(** * neural_canvas: the reproducible generation / regeneration pipeline

    A shallow embedding of [neural_canvas/utils/utils.py] (latent
    interpolation, image writing, TIFF metadata decoding, the backup of
    the sources) and of [neural_canvas/runners/runner2d.py]
    ([RunnerINRF2D.run_frames], [reinit_model_from_metadata],
    [regen_frames], [backup_pyfiles], [fit]).

    Conventions of the model:
    - a Python exception is a result [Raise e]; stateful code lives in a
      state-and-exception monad [M] whose state survives a raise;
    - the file system is a list of entries in listing order, the order in
      which [glob] yields them; a file is a TIFF with its pixel array and
      shaped metadata, or something tifffile cannot read; paths are taken
      as written, and a relative path without a slash names an entry of
      the current directory;
    - a dictionary with string keys is a [gmap string pyval], a dictionary
      whose order matters (the colormaps) an association list;
    - Python's [int] and [float], torch, numpy's cast to uint8, cv2,
      tifffile and the INRF2D model are collaborators behind the classes
      [Carriers] and [Externals]; module [Ref] instantiates them with exact
      fractions and a scripted model;
    - the arithmetic of the interpolation schemes is exact: a tensor entry
      is a real number or [None] for inf and nan, a latent sample of shape
      [1, D] is the list of its [D] entries, and rounding is not modelled.
      Model and code agree up to rounding wherever no divisor of the model
      is zero, and exactly where a divisor is an exact zero of the code as
      well (a norm of an all-zero sample). They part at exactly opposite
      endpoints of [slerp]: there [sin theta] is zero over the reals and a
      rounding residue of the order 1e-7 in float32. Nothing below is
      stated about that angle. *)

From Stdlib Require Import Reals Lra Lia ZArith String Ascii List Bool Sorted DecimalString.
From stdpp Require Import base gmap strings list pretty.
Import ListNotations.

Open Scope string_scope.

Set Warnings "-register-all".

(** ** Python exceptions and results *)

Inductive exn : Type :=
| AssertionError
| KeyError (key : string)
| TypeError
| ValueError
| IndexError
| OverflowError
| RuntimeError
| UnboundLocalError (var : string)
| cv2_error
| ExternalError (origin : string).

Inductive PyResult (A : Type) : Type :=
| Ret (a : A)
| Raise (e : exn).
Arguments Ret {A} a.
Arguments Raise {A} e.

Definition pbind {A B} (r : PyResult A) (k : A -> PyResult B) : PyResult B :=
  match r with
  | Ret a => k a
  | Raise e => Raise e
  end.

(** A [for] loop that appends one result per element. *)
Fixpoint collect {A B} (f : A -> PyResult B) (l : list A) : PyResult (list B) :=
  match l with
  | [] => Ret []
  | a :: r => pbind (f a) (fun b => pbind (collect f r) (fun bs => Ret (b :: bs)))
  end.

(** A local variable that is assigned only on some paths. *)
Inductive local (A : Type) : Type :=
| Unbound
| Bound (a : A).
Arguments Unbound {A}.
Arguments Bound {A} a.

(** ** Strings and posix paths *)

Module Path.

Definition startswith (pre s : string) : bool := String.prefix pre s.

(** [s.endswith(suf)] *)
Definition endswith (s suf : string) : bool :=
  (String.length suf <=? String.length s)%nat &&
  String.eqb (substring (String.length s - String.length suf)
                        (String.length suf) s) suf.

(** [s.split(sep)[0]]: the part of [s] before the first occurrence of a
    non-empty separator, all of [s] when there is none. *)
Fixpoint split_head (sep s : string) : string :=
  if String.prefix sep s then ""
  else match s with
       | EmptyString => ""
       | String c r => String c (split_head sep r)
       end.

(** [s[:-k]] for [k > 0]: an empty string when [s] is shorter than [k]. *)
Definition drop_last (k : nat) (s : string) : string :=
  substring 0 (String.length s - k) s.

Fixpoint basename_aux (s cur : string) : string :=
  match s with
  | EmptyString => cur
  | String c r =>
      if Ascii.eqb c "/" then basename_aux r r else basename_aux r cur
  end.

(** [os.path.basename]: what follows the last slash. *)
Definition basename (p : string) : string := basename_aux p p.

(** [os.path.dirname]: what precedes the last slash, without the trailing
    slashes unless the directory is the root. *)
Fixpoint rstrip_slash_rev (r : list ascii) : list ascii :=
  match r with
  | c :: r' => if Ascii.eqb c "/" then rstrip_slash_rev r' else r
  | [] => []
  end.

Definition dirname (p : string) : string :=
  let head := substring 0 (String.length p - String.length (basename p)) p in
  let stripped :=
    string_of_list_ascii
      (rev (rstrip_slash_rev (rev (list_ascii_of_string head)))) in
  if String.eqb stripped "" then head else stripped.

(** [os.path.join(a, b)] for two components. *)
Definition join (a b : string) : string :=
  if startswith "/" b then b
  else if String.eqb a "" || endswith a "/" then a ++ b
  else a ++ "/" ++ b.

(** [c.lower()] on ASCII letters. *)
Definition lower_ascii (c : ascii) : ascii :=
  let n := nat_of_ascii c in
  if (65 <=? n)%nat && (n <=? 90)%nat then ascii_of_nat (n + 32) else c.

Fixpoint lower (s : string) : string :=
  match s with
  | EmptyString => EmptyString
  | String c r => String (lower_ascii c) (lower r)
  end.

End Path.

(** The output name [regen_frames] derives for an input file
    (runner2d.py, lines 195-198). *)
Definition reproduce_save_fn (output_dir path : string) : string :=
  let basename := Path.basename path in
  let basename :=
    if Path.endswith basename "reproduce"
    then Path.split_head "_reproduce" basename
    else basename in
  Path.join output_dir (Path.drop_last 4 basename ++ "_reproduce").

(** The file whose existence makes [regen_frames] skip an input. *)
Definition reproduce_marker (output_dir path : string) : string :=
  reproduce_save_fn output_dir path ++ "_0_rgb.png".

(** ** Values, frames and the file system *)

(** Types owned by the collaborating libraries. *)
Class Carriers : Type := {
  float : Type;        (* Python and numpy floating-point numbers *)
  tensor : Type;       (* torch tensors *)
  model : Type;        (* an INRF2D instance together with its map_fn *)
  torch_state : Type   (* torch's global state, the random generator *)
}.

Section Values.
Context `{Carriers}.

(** Python values that occur in a metadata dictionary. *)
Inductive pyval : Type :=
| PNone
| PBool (b : bool)
| PInt (z : Z)
| PFloat (f : float)
| PStr (s : string)
| PList (l : list pyval)
| PDict (d : list (string * pyval))
| PTensor (t : tensor).

(** A uint8 numpy array: its shape and its entries in row-major order. *)
Record Frame : Type := mkFrame {
  frame_shape : list nat;
  pixels : list Z
}.

Inductive content : Type :=
| Opaque                                   (* not readable as a TIFF *)
| Tiff (img : Frame) (shaped_metadata : option (list (gmap string pyval))).

Inductive node : Type :=
| Dir
| File (c : content).

Inductive warning : Type :=
| CouldNotLoad (path : string)
| KeyNotFound (key : string)
| OldStyleLatent (key : string)
| NoTiffMetadata.

Inductive event : Type :=
| Warn (w : warning)
| LogGenerating (num_samples splits : nat)
| LogSkippingBlank
| LogSaving (save_fn : string) (shape : list nat)
| LogFoundExisting (save_fn : string)
| LogNoFrames (path : string)
| LogSavingFrames (count : nat) (save_fn : string) (shape : list nat)
| LogFinishedFitting
| Print (path save_fn : string).

(** Mutable state: the file system in directory-listing order, what was
    warned, logged and printed, torch's global state, [self.model], and a
    counter of the calls of the INRF2D constructor. *)
Record State : Type := mkState {
  fs : list (string * node);
  events : list event;
  torch : torch_state;
  self_model : option model;
  recon_calls : nat
}.

(** The immutable attributes of a [RunnerINRF2D]. *)
Record Runner : Type := mkRunner {
  output_dir : string;
  save_prefix : string;
  save_verbose : bool;
  skip_blank_generations : bool;
  colormaps : option (list string)
}.

(** *** The monad of stateful Python code *)

Definition M (A : Type) : Type := State -> PyResult A * State.

Definition ret {A} (a : A) : M A := fun st => (Ret a, st).
Definition raise {A} (e : exn) : M A := fun st => (Raise e, st).
Definition bind {A B} (c : M A) (k : A -> M B) : M B :=
  fun st => match c st with
            | (Ret a, st') => k a st'
            | (Raise e, st') => (Raise e, st')
            end.
Definition lift {A} (r : PyResult A) : M A := fun st => (r, st).
Definition get : M State := fun st => (Ret st, st).
Definition emit (e : event) : M unit :=
  fun st => (Ret tt, mkState (fs st) (events st ++ [e]) (torch st)
                             (self_model st) (recon_calls st)).
Definition set_fs (f : list (string * node)) : M unit :=
  fun st => (Ret tt, mkState f (events st) (torch st)
                             (self_model st) (recon_calls st)).
Definition set_model (m : model) : M unit :=
  fun st => (Ret tt, mkState (fs st) (events st) (torch st)
                             (Some m) (recon_calls st)).
Definition count_reconstruction : M unit :=
  fun st => (Ret tt, mkState (fs st) (events st) (torch st)
                             (self_model st) (S (recon_calls st))).
(** A call into torch: it may raise and it moves the global state. *)
Definition call_torch {A} (f : torch_state -> PyResult A * torch_state) : M A :=
  fun st => let '(r, t) := f (torch st) in
            (r, mkState (fs st) (events st) t (self_model st) (recon_calls st)).
Definition assert (b : bool) : M unit :=
  if b then ret tt else raise AssertionError.

(** *** Paths in the file system *)

Fixpoint assoc {V} (k : string) (l : list (string * V)) : option V :=
  match l with
  | [] => None
  | (k', v) :: r => if String.eqb k k' then Some v else assoc k r
  end.

(** Insertion-ordered update, as a Python dict or a directory does it. *)
Fixpoint assoc_set {V} (k : string) (v : V) (l : list (string * V))
  : list (string * V) :=
  match l with
  | [] => [(k, v)]
  | (k', v') :: r =>
      if String.eqb k k' then (k, v) :: r else (k', v') :: assoc_set k v r
  end.

(** A path names a directory with or without trailing slashes, a file
    without. *)
Definition norm (p : string) : string :=
  let r := Path.rstrip_slash_rev (rev (list_ascii_of_string p)) in
  match r with
  | [] => p
  | _ => string_of_list_ascii (rev r)
  end.

Definition fs_lookup (f : list (string * node)) (p : string) : option node :=
  match assoc (norm p) f with
  | Some (File c) => if String.eqb (norm p) p then Some (File c) else None
  | o => o
  end.

Definition exists_ (f : list (string * node)) (p : string) : bool :=
  match fs_lookup f p with Some _ => true | None => false end.
Definition isdir (f : list (string * node)) (p : string) : bool :=
  match fs_lookup f p with Some Dir => true | _ => false end.
Definition isfile (f : list (string * node)) (p : string) : bool :=
  match fs_lookup f p with Some (File _) => true | _ => false end.

Definition has_slash (s : string) : bool :=
  existsb (Ascii.eqb "/") (list_ascii_of_string s).

(** [glob.glob(os.path.join(path, '*.tif'))], for a [path] without glob
    metacharacters: the entries directly under [path] whose name ends in
    [.tif] and does not start with a dot, in listing order. *)
Definition glob_tif (f : list (string * node)) (path : string) : list string :=
  let prefix := Path.join path "" in
  map fst
    (filter (fun '(q, _) =>
               let name := substring (String.length prefix) (String.length q) q in
               Path.startswith prefix q && negb (has_slash name) &&
               negb (Path.startswith "." name) && Path.endswith name ".tif")
            f).

(** Whether a file can be created or replaced at [p]. *)
Definition writable (f : list (string * node)) (p : string) : bool :=
  (String.eqb (Path.dirname p) "" || isdir f (Path.dirname p)) &&
  negb (isdir f p).

End Values.

Declare Scope py_scope.
Delimit Scope py_scope with py.
Notation "x <- c ;; k" := (bind c (fun x => k))
  (at level 100, c at next level, right associativity) : py_scope.
Notation "c ;; k" := (bind c (fun _ => k))
  (at level 100, right associativity) : py_scope.
Open Scope py_scope.

(** ** The collaborators: Python builtins, torch, cv2, tifffile, INRF2D *)

Class Externals `{Carriers} : Type := {
  (* int(x) and float(x) *)
  int_of_float : float -> PyResult Z;
  float_of_int : Z -> PyResult float;
  int_of_str : string -> PyResult Z;
  float_of_str : string -> PyResult float;
  (* torch.Tensor(x) and torch.tensor(x) *)
  torch_Tensor : pyval -> PyResult tensor;
  torch_tensor : pyval -> PyResult tensor;
  (* numpy arithmetic on pixel values and the cast astype(np.uint8) *)
  fmul : float -> float -> float;
  fadd : float -> float -> float;
  f1 : float;
  f255 : float;
  f127_5 : float;
  f0_5 : float;
  to_uint8 : float -> Z;
  to_uint8_range : forall f, (0 <= to_uint8 f < 256)%Z;
  (* torch.randint(0, 99999999, size=(1,)).item() *)
  randint : torch_state -> PyResult Z * torch_state;
  (* INRF2D(output_shape, output_dir, latent_dim, latent_scale, seed) *)
  INRF2D : list Z -> string -> pyval -> pyval -> pyval ->
           torch_state -> PyResult model * torch_state;
  (* model.init_map_fn(...), its eleven keyword arguments in call order *)
  init_map_fn : model -> list pyval -> torch_state -> PyResult model * torch_state;
  x_dim : model -> nat;
  y_dim : model -> nat;
  c_dim : model -> nat;
  final_activation : model -> pyval;
  (* model.init_latent_inputs(latents, zoom, pan): the model as it is
     afterwards and (latents, inputs, meta_latents) *)
  init_latent_inputs : model -> pyval -> pyval -> pyval -> torch_state ->
                       PyResult (model * (tensor * tensor * pyval)) * torch_state;
  (* model.generate(latents, inputs, splits), its entries in row-major order *)
  generate : model -> tensor -> tensor -> nat -> torch_state ->
             PyResult (list float) * torch_state;
  (* model._metadata(meta_latents) *)
  model_metadata : model -> pyval -> PyResult (gmap string pyval);
  (* cv2.cvtColor(img, code) *)
  cvtColor : Frame -> string -> PyResult Frame;
  (* what tifffile.imwrite(path, img, metadata=metadata) puts into the file *)
  tiff_encode : Frame -> option (gmap string pyval) -> PyResult content
}.

Section Program.
Context `{Externals}.

(** ** utils.py: write_image and image_colormaps *)

(** [cv2.imwrite(path, img)]: an error for an empty image, otherwise the
    file is written when it can be. *)
Definition cv2_imwrite (path : string) (img : option Frame) : M unit :=
  match img with
  | None => raise cv2_error
  | Some _ =>
      st <- get ;;
      if writable (fs st) path
      then set_fs (assoc_set (norm path) (File Opaque) (fs st))
      else ret tt
  end.

Definition tifffile_imwrite (path : string) (img : Frame)
    (metadata : option (gmap string pyval)) : M unit :=
  st <- get ;;
  if writable (fs st) path
  then c <- lift (tiff_encode img metadata) ;;
       set_fs (assoc_set (norm path) (File c) (fs st))
  else raise (ExternalError "FileNotFoundError").

Definition last_dim (img : Frame) : option nat := last (frame_shape img).

Definition has_key {V} (k : string) (d : list (string * V)) : bool :=
  match assoc k d with Some _ => true | None => false end.

(** One [if name in colormaps: colormaps[name] = cv2.cvtColor(src, code)]. *)
Definition convert_if_present (name code : string) (src : Frame)
    (d : list (string * option Frame)) : PyResult (list (string * option Frame)) :=
  if has_key name d
  then match cvtColor src code with
       | Ret img' => Ret (assoc_set name (Some img') d)
       | Raise e => Raise e
       end
  else Ret d.

Fixpoint convert_all (steps : list (string * string)) (src : Frame)
    (d : list (string * option Frame)) : PyResult (list (string * option Frame)) :=
  match steps with
  | [] => Ret d
  | (name, code) :: r =>
      match convert_if_present name code src d with
      | Ret d' => convert_all r src d'
      | Raise e => Raise e
      end
  end.

Definition image_colormaps (img : Frame) (colormaps : list string)
  : PyResult (list (string * option Frame)) :=
  let d := fold_left (fun d c => assoc_set (Path.lower c) None d) colormaps [] in
  if decide (last_dim img = None) then Raise IndexError
  else if decide (last_dim img = Some 3%nat) then
    let d := assoc_set "rgb" (Some img) d in
    convert_all [("hsv", "COLOR_RGB2HSV"); ("gray", "COLOR_RGB2GRAY");
                 ("lab", "COLOR_RGB2LAB"); ("hls", "COLOR_RGB2HLS");
                 ("luv", "COLOR_RGB2LUV")] img d
  else
    match cvtColor img "COLOR_GRAY2RGB" with
    | Raise e => Raise e
    | Ret img2 =>
        let d := assoc_set "gray" (Some img) d in
        let d := if has_key "rgb" d then assoc_set "rgb" (Some img2) d else d in
        convert_all [("hsv", "COLOR_RGB2HSV"); ("lab", "COLOR_RGB2LAB");
                     ("hls", "COLOR_RGB2HLS"); ("luv", "COLOR_RGB2LUV")] img2 d
    end.

Definition assert_isfile (path : string) : M unit :=
  st <- get ;; assert (isfile (fs st) path).

Fixpoint write_colormapped (path suffix : string)
    (imgs : list (string * option Frame)) : M unit :=
  match imgs with
  | [] => ret tt
  | (cmap, cmap_img) :: r =>
      let cmap_path := path ++ "_" ++ cmap ++ "." ++ suffix in
      cv2_imwrite cmap_path cmap_img ;;
      assert_isfile cmap_path ;;
      write_colormapped path suffix r
  end.

Definition str_in (s : string) (l : list string) : bool :=
  existsb (String.eqb s) l.

Definition write_image (path : string) (img : Frame) (suffix : string)
    (metadata : option (gmap string pyval)) (colormaps : option (list string))
  : M unit :=
  assert (str_in suffix ["jpg"; "png"; "bmp"; "jpeg"; "tif"]) ;;
  if str_in suffix ["jpg"; "png"; "bmp"; "jpeg"] then
    match colormaps with
    | Some cms =>
        colormapped_imgs <- lift (image_colormaps img cms) ;;
        write_colormapped path suffix colormapped_imgs
    | None =>
        let path := path ++ "." ++ suffix in
        cv2_imwrite path (Some img) ;;
        assert_isfile path
    end
  else
    (match metadata with
     | None => emit (Warn NoTiffMetadata)
     | Some _ => ret tt
     end) ;;
    tifffile_imwrite (path ++ ".tif") img metadata.

(** ** utils.py: load_tif_metadata *)

(** [int(v)] *)
Definition py_int (v : pyval) : PyResult Z :=
  match v with
  | PInt z => Ret z
  | PBool b => Ret (if b then 1 else 0)%Z
  | PFloat f => int_of_float f
  | PStr s => int_of_str s
  | _ => Raise TypeError
  end.

(** [float(v)] *)
Definition py_float (v : pyval) : PyResult float :=
  match v with
  | PFloat f => Ret f
  | PInt z => float_of_int z
  | PBool b => float_of_int (if b then 1 else 0)%Z
  | PStr s => float_of_str s
  | _ => Raise TypeError
  end.

Definition conv_int (v : pyval) : PyResult pyval :=
  pbind (py_int v) (fun z => Ret (PInt z)).
Definition conv_float (v : pyval) : PyResult pyval :=
  pbind (py_float v) (fun f => Ret (PFloat f)).
Definition conv_id (v : pyval) : PyResult pyval := Ret v.

(** [d[k]] *)
Definition subscript (d : gmap string pyval) (k : string) : PyResult pyval :=
  match d !! k with
  | Some v => Ret v
  | None => Raise (KeyError k)
  end.

(** The [with tifffile.TiffFile(path) as tif] block: the pixel array and
    [tif.shaped_metadata[0]]. *)
Definition read_tiff (f : list (string * node)) (path : string)
  : PyResult (Frame * gmap string pyval) :=
  match fs_lookup f path with
  | Some (File (Tiff img (Some (data :: _)))) => Ret (img, data)
  | Some (File (Tiff img (Some []))) => Raise IndexError
  | Some (File (Tiff img None)) => Raise TypeError
  | _ => Raise (ExternalError "TiffFileError")
  end.

(** The keys that are always present: [metadata[k] = conv(data[k])]. *)
Fixpoint required_keys (data : gmap string pyval)
    (keys : list (string * (pyval -> PyResult pyval)))
    (metadata : gmap string pyval) : PyResult (gmap string pyval) :=
  match keys with
  | [] => Ret metadata
  | (k, conv) :: r =>
      pbind (subscript data k) (fun v =>
      pbind (conv v) (fun c =>
      required_keys data r (<[k := c]> metadata)))
  end.

(** One [try: metadata[k] = conv(data[k]) except KeyError: ...] loop. *)
Fixpoint optional_keys (data : gmap string pyval)
    (conv : pyval -> PyResult pyval) (keys : list string)
    (metadata : gmap string pyval) : M (gmap string pyval) :=
  match keys with
  | [] => ret metadata
  | k :: r =>
      match data !! k with
      | Some v =>
          c <- lift (conv v) ;;
          optional_keys data conv r (<[k := c]> metadata)
      | None =>
          emit (Warn (KeyNotFound k)) ;;
          optional_keys data conv r (<[k := PNone]> metadata)
      end
  end.

Definition latents_key (data metadata : gmap string pyval)
  : M (gmap string pyval) :=
  match data !! "latents" with
  | Some v =>
      t <- lift (torch_Tensor v) ;;
      ret (<["latents" := PTensor t]> metadata)
  | None =>
      match data !! "latent" with
      | Some v =>
          t <- lift (torch_tensor v) ;;
          emit (Warn (OldStyleLatent "latents")) ;;
          ret (<["latents" := PTensor t]> metadata)
      | None =>
          emit (Warn (KeyNotFound "latents")) ;;
          ret (<["latents" := PNone]> metadata)
      end
  end.

Definition normalize_legacy (metadata : gmap string pyval)
  : PyResult (gmap string pyval) :=
  pbind (subscript metadata "input_encoding_dim") (fun ied =>
  let metadata :=
    match ied with
    | PNone => <["input_encoding_dim" := PInt 1]> metadata
    | _ => metadata
    end in
  pbind (subscript metadata "activations") (fun act =>
  match act with
  | PStr s =>
      if String.eqb s "basic"
      then Ret (<["activations" := PStr "fixed"]> metadata)
      else Ret metadata
  | _ => Ret metadata
  end)).

(** Lines 210-256: from the decoded block to the metadata dictionary. *)
Definition extract_metadata (data : gmap string pyval) : M (gmap string pyval) :=
  metadata <- lift (required_keys data
                      [("seed", conv_int); ("latent_dim", conv_int);
                       ("latent_scale", conv_float); ("x_dim", conv_int);
                       ("y_dim", conv_int); ("c_dim", conv_int);
                       ("device", conv_id)] ∅) ;;
  z_dim <- lift (match data !! "z_dim" with
                 | Some v => conv_int v
                 | None => pbind (subscript data "x_dim") conv_int
                 end) ;;
  let metadata := <["z_dim" := z_dim]> metadata in
  metadata <- optional_keys data conv_int
                ["mlp_layer_width"; "conv_feature_map_size";
                 "input_encoding_dim"; "num_graph_nodes"] metadata ;;
  metadata <- optional_keys data conv_float
                ["weight_init_mean"; "weight_init_std";
                 "weight_init_max"; "weight_init_min"] metadata ;;
  metadata <- optional_keys data conv_id
                ["activations"; "graph"; "final_activation";
                 "weight_init"; "graph_topology"] metadata ;;
  metadata <- latents_key data metadata ;;
  lift (normalize_legacy metadata).

Definition load_tif_metadata (path : string)
  : M (option Frame * option (gmap string pyval)) :=
  st <- get ;;
  assert (isfile (fs st) path) ;;
  match read_tiff (fs st) path with
  | Raise _ =>
      emit (Warn (CouldNotLoad path)) ;;
      ret (None, None)
  | Ret (img, data) =>
      metadata <- extract_metadata data ;;
      ret (Some img, Some metadata)
  end.

(** ** runner2d.py: run_frames *)

Fixpoint for_each {A S} (body : A -> S -> M S) (l : list A) (s : S) : M S :=
  match l with
  | [] => ret s
  | a :: r => s' <- body a s ;; for_each body r s'
  end.

(** [schedule[i] if schedule is not None else default] *)
Definition schedule_at (schedule : option (list pyval)) (i : nat)
    (default : pyval) : PyResult pyval :=
  match schedule with
  | None => Ret default
  | Some l =>
      match nth_error l i with
      | Some v => Ret v
      | None => Raise IndexError
      end
  end.

(** [frame.reshape(-1, x_dim, y_dim, c_dim)]: the size of the leading axis. *)
Definition reshape_batch (m : model) (vals : list float) : PyResult nat :=
  let cell := (x_dim m * y_dim m * c_dim m)%nat in
  if (cell =? 0)%nat then Raise RuntimeError
  else if (length vals mod cell =? 0)%nat then Ret (length vals / cell)%nat
  else Raise RuntimeError.

(** Lines 107-112: from the activation's range to 0..255, cast to uint8. *)
Definition denormalize (fa : pyval) (x : float) : Z :=
  match fa with
  | PStr s =>
      if String.eqb s "sigmoid" then to_uint8 (fmul x f255)
      else if String.eqb s "tanh" then to_uint8 (fmul (fadd x f1) f127_5)
      else to_uint8 (fmul x f255)
  | _ => to_uint8 (fmul x f255)
  end.

(** [a.max()] and [a.min()] of a uint8 array; a zero-size array has none. *)
Definition arr_max (l : list Z) : PyResult Z :=
  match l with
  | [] => Raise ValueError
  | a :: r => Ret (fold_left Z.max r a)
  end.
Definition arr_min (l : list Z) : PyResult Z :=
  match l with
  | [] => Raise ValueError
  | a :: r => Ret (fold_left Z.min r a)
  end.

(** Subtraction of two uint8 scalars wraps around. *)
Definition uint8_sub (a b : Z) : Z := ((a - b) mod 256)%Z.

(** [np.abs(frame.max() - frame.min())] *)
Definition span (frame : Frame) : PyResult Z :=
  pbind (arr_max (pixels frame)) (fun mx =>
  pbind (arr_min (pixels frame)) (fun mn =>
  Ret (Z.abs (uint8_sub mx mn)))).

Definition is_blank (frame : Frame) : PyResult bool :=
  pbind (span frame) (fun d => Ret (d <? 15)%Z).

(** Lines 90-112 of one iteration: the frame as uint8 and [meta_latents]. *)
Definition render (latents : pyval) (zoom_schedule pan_schedule : option (list pyval))
    (splits i : nat) : M (Frame * pyval) :=
  zoom <- lift (schedule_at zoom_schedule i (PList [PFloat f0_5; PFloat f0_5])) ;;
  pan <- lift (schedule_at pan_schedule i (PList [PInt 2; PInt 2])) ;;
  st <- get ;;
  match self_model st with
  | None => raise (ExternalError "AttributeError")
  | Some m =>
      r <- call_torch (init_latent_inputs m latents zoom pan) ;;
      let '(m, (latents_gen, inputs, meta_latents)) := r in
      set_model m ;;
      vals <- call_torch (generate m latents_gen inputs splits) ;;
      batch <- lift (reshape_batch m vals) ;;
      let shape := if (batch =? 1)%nat then [x_dim m; y_dim m; c_dim m]
                   else [batch; x_dim m; y_dim m; c_dim m] in
      ret (mkFrame shape (map (denormalize (final_activation m)) vals),
           meta_latents)
  end.

(** The body of the loop of [run_frames] over the two result lists. *)
Definition run_frames_body (self : Runner) (latents : pyval)
    (zoom_schedule pan_schedule : option (list pyval)) (splits : nat)
    (autosave : bool) (randID : Z) (i : nat)
    (acc : list Frame * list (gmap string pyval))
  : M (list Frame * list (gmap string pyval)) :=
  let '(frames, metadata) := acc in
  r <- render latents zoom_schedule pan_schedule splits i ;;
  let '(frame, meta_latents) := r in
  blank <- (if skip_blank_generations self then lift (is_blank frame)
            else ret false) ;;
  if (blank : bool) then
    emit LogSkippingBlank ;;
    ret (frames, metadata)
  else
    st <- get ;;
    md <- lift (match self_model st with
                | Some m => model_metadata m meta_latents
                | None => Raise (ExternalError "AttributeError")
                end) ;;
    let metadata := (metadata ++ [md])%list in
    (if autosave then
       let save_fn :=
         Path.join (output_dir self)
                   (save_prefix self ++ "_" ++ pretty randID ++ "_" ++ pretty i) in
       (if save_verbose self then emit (LogSaving save_fn (frame_shape frame))
        else ret tt) ;;
       write_image save_fn frame "png" None (colormaps self) ;;
       write_image save_fn frame "tif" (Some md) None
     else ret tt) ;;
    ret ((frames ++ [frame])%list, metadata).

Definition run_frames (self : Runner) (latents : pyval) (num_samples : nat)
    (zoom_schedule pan_schedule : option (list pyval)) (splits : nat)
    (autosave : bool) : M (list Frame * list (gmap string pyval)) :=
  st <- get ;;
  assert (match self_model st with Some _ => true | None => false end) ;;
  randID <- call_torch randint ;;
  emit (LogGenerating num_samples splits) ;;
  for_each (run_frames_body self latents zoom_schedule pan_schedule splits
                            autosave randID)
           (seq 0 num_samples) ([], []).

(** ** runner2d.py: reinit_model_from_metadata *)

(** [metadata[k]] where [metadata] may be [None]. *)
Definition subscript_opt (metadata : option (gmap string pyval)) (k : string)
  : PyResult pyval :=
  match metadata with
  | Some md => subscript md k
  | None => Raise TypeError
  end.

Fixpoint subscripts (metadata : option (gmap string pyval)) (keys : list string)
  : PyResult (list pyval) :=
  match keys with
  | [] => Ret []
  | k :: r =>
      pbind (subscript_opt metadata k) (fun v =>
      pbind (subscripts metadata r) (fun vs => Ret (v :: vs)))
  end.

Definition reinit_model_from_metadata (self : Runner) (output_shape : list Z)
    (path : string) (metadata : option (gmap string pyval)) : M pyval :=
  metadata <- match metadata with
              | None => r <- load_tif_metadata path ;; ret (snd r)
              | Some md => ret (Some md)
              end ;;
  assert (length output_shape =? 3)%nat ;;
  latent_dim <- lift (subscript_opt metadata "latent_dim") ;;
  latent_scale <- lift (subscript_opt metadata "latent_scale") ;;
  seed <- lift (subscript_opt metadata "seed") ;;
  count_reconstruction ;;
  m <- call_torch (INRF2D output_shape (output_dir self)
                          latent_dim latent_scale seed) ;;
  args <- lift (subscripts metadata
                  ["mlp_layer_width"; "activations"; "final_activation";
                   "weight_init"; "weight_init_mean"; "weight_init_std";
                   "weight_init_max"; "weight_init_min"; "graph_topology";
                   "num_graph_nodes"; "graph"]) ;;
  m <- call_torch (init_map_fn m args) ;;
  set_model m ;;
  lift (subscript_opt metadata "latent").

(** ** runner2d.py: regen_frames *)

(** The loop over [enumerate(zip(frames, metadata))], lines 216-218. *)
Fixpoint write_frames (self : Runner) (save_fn : string) (i : nat)
    (l : list (Frame * gmap string pyval)) : M unit :=
  match l with
  | [] => ret tt
  | (frame, meta) :: r =>
      let path := save_fn ++ "_" ++ pretty i in
      write_image path frame "png" None (colormaps self) ;;
      write_image path frame "tif" (Some meta) None ;;
      write_frames self save_fn (S i) r
  end.

Definition first_shape (frames : list Frame) : PyResult (list nat) :=
  match frames with
  | f :: _ => Ret (frame_shape f)
  | [] => Raise IndexError
  end.

Section Regen.
(** [self.reinit_model_from_metadata], reached through [self]. *)
Variable reinit : Runner -> list Z -> string -> option (gmap string pyval) -> M pyval.

(** The body of the loop over [image_paths]; the state of the loop is
    the local variable [frames]. *)
Definition regen_body (self : Runner) (output_shape : list Z)
    (num_samples splits : nat) (zoom_schedule pan_schedule : option (list pyval))
    (save_video : bool) (path : string)
    (frames : local (option (list Frame)))
  : M (local (option (list Frame))) :=
  let save_fn := reproduce_save_fn (output_dir self) path in
  st <- get ;;
  if exists_ (fs st) (save_fn ++ "_0_rgb.png") then
    emit (LogFoundExisting save_fn) ;;
    ret frames
  else
    emit (Print path save_fn) ;;
    latent <- reinit self output_shape path None ;;
    r <- run_frames self latent num_samples zoom_schedule pan_schedule
                    splits false ;;
    let '(frames, metadata) := r in
    if (length frames =? 0)%nat then
      emit (LogNoFrames path) ;;
      ret (Bound (Some frames))
    else
      shape <- lift (first_shape frames) ;;
      emit (LogSavingFrames (length frames) save_fn shape) ;;
      write_frames self save_fn 0 (combine frames metadata) ;;
      (* write_video has no parameter save_name *)
      (if save_video then raise TypeError else ret tt) ;;
      ret (Bound None).

Definition regen_frames_with (self : Runner) (path : string)
    (output_shape : list Z) (num_samples splits : nat)
    (zoom_schedule pan_schedule : option (list pyval)) (save_video : bool)
  : M (option (list Frame)) :=
  st <- get ;;
  assert (exists_ (fs st) path) ;;
  let image_paths :=
    if isdir (fs st) path then Bound (glob_tif (fs st) path)
    else if isfile (fs st) path then Bound [path]
    else Unbound in
  match image_paths with
  | Unbound => raise (UnboundLocalError "image_paths")
  | Bound image_paths =>
      frames <- for_each (regen_body self output_shape num_samples splits
                                     zoom_schedule pan_schedule save_video)
                         image_paths Unbound ;;
      match frames with
      | Unbound => raise (UnboundLocalError "frames")
      | Bound v => ret v
      end
  end.
End Regen.

Definition regen_frames : Runner -> string -> list Z -> nat -> nat ->
    option (list pyval) -> option (list pyval) -> bool -> M (option (list Frame)) :=
  regen_frames_with reinit_model_from_metadata.

End Program.

Section ProgramBackup.
Context `{Externals}.

(** ** utils.py: save_repository, and runner2d.py: backup_pyfiles *)

(** [glob.glob('*.py')]: the entries of the current directory, which are
    the relative paths without a slash, whose name ends in [.py] and does
    not start with a dot, in listing order. *)
Definition glob_py (f : list (string * node)) : list string :=
  map fst
    (filter (fun '(q, _) =>
               negb (has_slash q) && negb (Path.startswith "." q) &&
               Path.endswith q ".py")
            f).

(** [os.path.samefile] as [shutil] uses it: false when a path does not
    exist. *)
Definition samefile (f : list (string * node)) (src dst : string) : bool :=
  exists_ f src && exists_ f dst && String.eqb (norm src) (norm dst).

(** [shutil.copy(src, dst)]: into [dst] when it is a directory; the same
    file is refused, the source is opened first, then the destination. *)
Definition shutil_copy (src dst : string) : M unit :=
  st <- get ;;
  let dst := if isdir (fs st) dst then Path.join dst (Path.basename src)
             else dst in
  if samefile (fs st) src dst then raise (ExternalError "SameFileError")
  else match fs_lookup (fs st) src with
       | None => raise (ExternalError "FileNotFoundError")
       | Some Dir => raise (ExternalError "IsADirectoryError")
       | Some (File c) =>
           if isdir (fs st) dst then raise (ExternalError "IsADirectoryError")
           else if writable (fs st) dst
           then set_fs (assoc_set (norm dst) (File c) (fs st))
           else raise (ExternalError "FileNotFoundError")
       end.

(** The loop [for fn in py_files: shutil.copy(fn, os.path.join(output_dir, fn))]. *)
Definition copy_all (output_dir : string) (py_files : list string) : M unit :=
  for_each (fun fn (_ : unit) => shutil_copy fn (Path.join output_dir fn))
           py_files tt.

Definition backup_pyfiles (self : Runner) : M unit :=
  st <- get ;;
  let py_files := glob_py (fs st) in
  assert (0 <? length py_files)%nat ;;
  copy_all (output_dir self) py_files.

Definition save_repository (search_dir output_dir : string) : M unit :=
  st <- get ;;
  assert (isdir (fs st) output_dir) ;;
  assert (isdir (fs st) search_dir) ;;
  let py_files := glob_py (fs st) in
  assert (0 <? length py_files)%nat ;;
  copy_all output_dir py_files.

End ProgramBackup.

(** ** runner2d.py: fit *)

(** The collaborators of [fit]: torch's optimizer and scheduler, the loss
    module, and the training step of the model. Optimizer, scheduler and
    loss are handles, their state is part of torch's. *)
Class Trainer `{Carriers} : Type := {
  target : Type;
  loss_weights : Type;
  optimizer : Type;
  scheduler : Type;
  loss_module : Type;
  loss_value : Type;
  (* isinstance(model.map_fn, INRConvMap) *)
  is_conv_map : model -> bool;
  (* torch.optim.AdamW(model.map_fn.parameters(), lr=lr, weight_decay=weight_decay, ...) *)
  AdamW : model -> float -> float -> torch_state -> PyResult optimizer * torch_state;
  (* torch.optim.lr_scheduler.CosineAnnealingWarmRestarts(optimizer, T_0=100, T_mult=2) *)
  CosineAnnealingWarmRestarts :
    optimizer -> torch_state -> PyResult scheduler * torch_state;
  (* losses.LossModule, the loss weights passed as keyword arguments *)
  LossModule : loss_weights -> torch_state -> PyResult loss_module * torch_state;
  (* model.init_latent_inputs() and model.init_latent_inputs(output_shape=...):
     the model as it is afterwards, the latents and the inputs *)
  default_latent_inputs :
    model -> torch_state -> PyResult (model * (tensor * tensor)) * torch_state;
  shaped_latent_inputs :
    model -> list Z -> torch_state -> PyResult (model * (tensor * tensor)) * torch_state;
  (* model.fit(num_iters, target, loss, optimizer, scheduler, inputs=...,
     test_inputs=..., test_resolution=...): the model as it is afterwards and
     (frame, test_frame, loss_val) *)
  model_fit :
    model -> nat -> target -> loss_module -> optimizer -> scheduler ->
    tensor * tensor -> tensor * tensor -> list Z -> torch_state ->
    PyResult (model * (Frame * Frame * loss_value)) * torch_state;
  (* f'{loss_val:.4f}' and loss_val.item() *)
  format_loss : loss_value -> PyResult string;
  loss_item : loss_value -> PyResult float
}.

Section ProgramFit.
Context `{Externals}.
Context `{!Trainer}.

(** The body of the loop over the epochs; the state of the loop is the
    list [loss_vals]. *)
Definition fit_epoch (self : Runner) (tgt : target) (output_shape : list Z)
    (num_iters_per_epoch : nat) (loss : loss_module) (opt : optimizer)
    (sch : scheduler) (inputs test_inputs : tensor * tensor)
    (epoch : nat) (loss_vals : list float) : M (list float) :=
  st <- get ;;
  match self_model st with
  | None => raise (ExternalError "AttributeError")
  | Some m =>
      r <- call_torch (model_fit m num_iters_per_epoch tgt loss opt sch
                                 inputs test_inputs output_shape) ;;
      let '(m, (frame, test_frame, loss_val)) := r in
      set_model m ;;
      lift (format_loss loss_val) ;;
      v <- lift (loss_item loss_val) ;;
      let loss_vals := (loss_vals ++ [v])%list in
      let path := output_dir self ++ "/fit_" ++ pretty epoch in
      write_image path frame "png" None None ;;
      write_image path frame "tif" None None ;;
      write_image (path ++ "_test") test_frame "png" None None ;;
      write_image (path ++ "_test") test_frame "tif" None None ;;
      ret loss_vals
  end.

Definition fit (self : Runner) (tgt : target) (output_shape : list Z)
    (weights : loss_weights) (num_epochs num_iters_per_epoch : nat)
    (lr weight_decay : float) : M (list float) :=
  st <- get ;;
  match self_model st with
  | None => raise AssertionError
  | Some m =>
      assert (is_conv_map m) ;;
      opt <- call_torch (AdamW m lr weight_decay) ;;
      sch <- call_torch (CosineAnnealingWarmRestarts opt) ;;
      loss <- call_torch (LossModule weights) ;;
      r <- call_torch (default_latent_inputs m) ;;
      let '(m, inputs) := r in
      set_model m ;;
      r <- call_torch (shaped_latent_inputs m output_shape) ;;
      let '(m, test_inputs) := r in
      set_model m ;;
      loss_vals <- for_each (fit_epoch self tgt output_shape num_iters_per_epoch
                                       loss opt sch inputs test_inputs)
                            (seq 0 num_epochs) [] ;;
      emit LogFinishedFitting ;;
      ret loss_vals
  end.

End ProgramFit.

(** ** utils.py: the latent interpolation schemes *)

Module Interp.

Open Scope R_scope.

(** A tensor entry: a real number, or [None] for inf and nan. *)
Definition xR : Type := option R.

Definition xlift (f : R -> R) (a : xR) : xR :=
  match a with
  | Some x => Some (f x)
  | None => None
  end.

Definition xlift2 (f : R -> R -> R) (a b : xR) : xR :=
  match a, b with
  | Some x, Some y => Some (f x y)
  | _, _ => None
  end.

Definition xadd : xR -> xR -> xR := xlift2 Rplus.
Definition xsub : xR -> xR -> xR := xlift2 Rminus.
Definition xmul : xR -> xR -> xR := xlift2 Rmult.

(** Division: a zero divisor gives no finite value. *)
Definition xdiv (a b : xR) : xR :=
  match a, b with
  | Some x, Some y => if Req_dec_T y 0 then None else Some (x / y)
  | _, _ => None
  end.

Definition xsum (v : list xR) : xR := fold_right xadd (Some 0) v.

(** [torch.clamp(x, lo, hi)] *)
Definition xclamp (lo hi : R) (a : xR) : xR :=
  xlift (fun x => Rmin (Rmax x lo) hi) a.

(** An elementwise operation on two tensors of shape [1, D] and [1, D'],
    with torch's broadcasting of an axis of size one. *)
Definition tbin (f : xR -> xR -> xR) (a b : list xR) : PyResult (list xR) :=
  if (length a =? length b)%nat then Ret (zip_with f a b)
  else match a, b with
       | [x], _ => Ret (map (f x) b)
       | _, [y] => Ret (map (fun x => f x y) a)
       | _, _ => Raise RuntimeError
       end.

(** An operation with a scalar on the right or on the left. *)
Definition tscale (s : xR) (a : list xR) : list xR := map (xmul s) a.

(** [torch.linspace(a, b, steps)] *)
Definition linspace (a b : R) (steps : nat) : list R :=
  match steps with
  | O => []
  | S O => [a]
  | _ => map (fun i => a + INR i * ((b - a) / INR (steps - 1))) (seq 0 steps)
  end.

Record LatentState (T : Type) : Type := mkLatent {
  sample : T;
  sample_shape : list nat
}.
Arguments mkLatent {T} sample sample_shape.
Arguments sample {T} l.
Arguments sample_shape {T} l.

Definition lerp (z1 z2 : LatentState (list xR)) (n : nat)
  : PyResult (list (LatentState (list xR))) :=
  pbind (tbin xsub (sample z2) (sample z1)) (fun d =>
  let delta := map (fun x => xdiv x (Some (INR (n + 1)))) d in
  let total_frames := (n + 2)%nat in
  collect (fun i =>
             pbind (tbin xadd (sample z1)
                         (map (fun x => xmul x (Some (INR i))) delta)) (fun z =>
             Ret (mkLatent z (sample_shape z1))))
          (seq 0 total_frames)).

(** [torch.norm(v, p=2, dim=-1, keepdim=True)] *)
Definition norm2 (v : list xR) : xR :=
  xlift sqrt (xsum (map (fun x => xmul x x) v)).

Definition normalized (v : list xR) : list xR :=
  map (fun x => xdiv x (norm2 v)) v.

(** The angle [theta] of [slerp], lines 34-38. *)
Definition slerp_theta (z1 z2 : LatentState (list xR)) : PyResult xR :=
  pbind (tbin xmul (normalized (sample z1)) (normalized (sample z2))) (fun prod =>
  let dot := xclamp (-1) 1 (xsum prod) in
  Ret (xlift acos dot)).

Definition slerp_angles (n : nat) : list R :=
  removelast (linspace 0 (2 * PI) (n + 1)).

(** The two weights, lines 45 and 46. The sine is the exact one: at
    [theta = pi] the divisor is zero here, while float32 has
    [sin (acos (-1))] nonzero (about -8.7e-8) and the weights of the code
    are finite there. The properties of [slerp] leave that angle out. *)
Definition slerp_alpha (theta : xR) (angle : R) : xR :=
  xdiv (xlift sin (xmul (xsub (Some 1) (xdiv (Some angle) theta)) theta))
       (xlift sin theta).

Definition slerp_beta (theta : xR) (angle : R) : xR :=
  xdiv (xlift sin (xmul (xdiv (Some angle) theta) theta)) (xlift sin theta).

Definition slerp (z1 z2 : LatentState (list xR)) (n : nat)
  : PyResult (list (LatentState (list xR))) :=
  let z1_norm := normalized (sample z1) in
  let z2_norm := normalized (sample z2) in
  pbind (slerp_theta z1 z2) (fun theta =>
  collect (fun angle =>
             let alpha := slerp_alpha theta angle in
             let beta := slerp_beta theta angle in
             pbind (tbin xadd (tscale alpha z1_norm) (tscale beta z2_norm))
                   (fun slerp_point =>
             Ret (mkLatent slerp_point (sample_shape z1))))
          (slerp_angles n)).

Section Spline.
(** Samples as numpy holds them, and lines 56-81: stacking the control
    points, closing the curve, [splprep] with the periodic condition and
    degree [k], [splev] at [n] parameters, plotting, and the axes put
    back. The argument [device] only moves tensors and is left out. *)
Variable T : Type.
Variable spline_points : list T -> nat -> nat -> PyResult (list T).

Definition rspline (z_points : list (LatentState T)) (n degree : nat)
  : PyResult (list (LatentState T)) :=
  match z_points with
  | [] => Raise ValueError
  | z0 :: _ =>
      let num_control_points := length z_points in
      pbind (spline_points (map sample z_points) n
                           (Nat.min degree (num_control_points - 1)))
            (fun points =>
      Ret (map (fun point => mkLatent point (sample_shape z0)) points))
  end.
End Spline.

Section Lemniscate.
(** Tensors of any shape [T], complex tensors [C]; [scaled z1 z2 w] is
    [z1 + (z2 - z1) * w] with torch's broadcasting, [combine xs ys i] is
    [xs[i] + ys[i] * 1j]. *)
Variables T TS C : Type.
Variable scaled : T -> T -> list xR -> PyResult TS.
Variable combine : TS -> TS -> nat -> PyResult C.

Definition xmin (v : list xR) : xR :=
  match v with
  | [] => None
  | a :: r => fold_left (xlift2 Rmin) r a
  end.
Definition xmax (v : list xR) : xR :=
  match v with
  | [] => None
  | a :: r => fold_left (xlift2 Rmax) r a
  end.

(** [v - v.min()] followed by [v / v.max()] *)
Definition unit_range (v : list xR) : list xR :=
  let v := map (fun x => xsub x (xmin v)) v in
  map (fun x => xdiv x (xmax v)) v.

Definition lemniscate_x (a : R) (t : R) : xR :=
  xdiv (Some (a * cos t)) (Some (1 + sin t ^ 2)).
Definition lemniscate_y (a : R) (t : R) : xR :=
  xdiv (Some (a * cos t * sin t)) (Some (1 + sin t ^ 2)).

Definition lemniscate (z1 z2 : LatentState T) (n : nat) (a : R)
  : PyResult (list (LatentState C)) :=
  let t_values := linspace 0 (2 * PI) (n + 2) in
  let x := unit_range (map (lemniscate_x a) t_values) in
  let y := unit_range (map (lemniscate_y a) t_values) in
  pbind (scaled (sample z1) (sample z2) x) (fun x_scaled =>
  pbind (scaled (sample z1) (sample z2) y) (fun y_scaled =>
  collect (fun i =>
             pbind (combine x_scaled y_scaled i) (fun z =>
             Ret (mkLatent z (sample_shape z1))))
          (seq 0 (n + 2)))).
End Lemniscate.

(** *** Vocabulary of the properties *)

(** A tensor all of whose entries are finite. *)
Definition fin (v : list R) : list xR := map Some v.

Definition dot (a b : list R) : R := fold_right Rplus 0 (zip_with Rmult a b).

Definition rnorm (v : list R) : R := sqrt (dot v v).

Definition unit_vec (v : list R) : list R := map (fun x => x / rnorm v) v.

(** The combination [a * u + b * v]. *)
Definition lin (a b : R) (u v : list R) : list R :=
  zip_with (fun x y => a * x + b * y) u v.

(** The states of [lerp] in closed form. *)
Definition lerp_point (v1 v2 : list R) (n i : nat) : list R :=
  zip_with (fun a b => a + (b - a) / INR (n + 1) * INR i) v1 v2.

Definition rsum (v : list R) : R := fold_right Rplus 0 v.

(** The point of [slerp] at one angle, for normalized endpoints [u1], [u2]
    at angle [theta] from one another. *)
Definition slerp_at (theta : R) (u1 u2 : list R) (angle : R) : list R :=
  lin (sin (theta - angle) / sin theta) (sin angle / sin theta) u1 u2.

(** The [k]-th of the [n] angles. *)
Definition angle_at (n k : nat) : R := 2 * PI * INR k / INR n.

(** [P] holds of every state of a trajectory that was returned. *)
Definition all_states {T} (P : LatentState T -> Prop)
    (r : PyResult (list (LatentState T))) : Prop :=
  match r with
  | Ret states => Forall P states
  | Raise _ => True
  end.

End Interp.

(** ** A reference instance of the collaborators

    Floating-point numbers are exact fractions, a tensor is the list of its
    entries, and the model is a test double: a script of the arrays that its
    successive generations return. *)

Module Ref.

Record ratio : Type := mkRatio { num : Z; den : positive }.

Record scripted_model : Type := mkModel {
  dims : nat * nat * nat;
  activation : string;
  script : list (list ratio)
}.

#[export] Instance carriers : Carriers := {|
  float := ratio;
  tensor := list ratio;
  model := scripted_model;
  torch_state := nat
|}.

Definition rmul (a b : ratio) : ratio :=
  mkRatio (num a * num b) (den a * den b).
Definition radd (a b : ratio) : ratio :=
  mkRatio (num a * Zpos (den b) + num b * Zpos (den a)) (den a * den b).
Definition of_Z (z : Z) : ratio := mkRatio z 1.

Definition parse_int (s : string) : PyResult Z :=
  match s with
  | EmptyString => Raise ValueError
  | _ => match NilEmpty.int_of_string s with
         | Some d => Ret (Z.of_int d)
         | None => Raise ValueError
         end
  end.

Definition entry (v : pyval) : PyResult ratio :=
  match v with
  | PInt z => Ret (of_Z z)
  | PFloat f => Ret f
  | PBool b => Ret (of_Z (if b then 1 else 0))
  | _ => Raise TypeError
  end.

Definition entries (v : pyval) : PyResult (list ratio) :=
  match v with
  | PList l => collect entry l
  | PTensor t => Ret t
  | _ => Raise TypeError
  end.

Definition new_model (output_shape : list Z) : PyResult scripted_model :=
  match output_shape with
  | [x; y; c] => Ret (mkModel (Z.to_nat x, Z.to_nat y, Z.to_nat c) "tanh" [])
  | _ => Raise ValueError
  end.

(** The next array of the script becomes the latents of the generation. *)
Definition next_inputs (m : scripted_model) (latents : pyval)
  : PyResult (scripted_model * (list ratio * list ratio * pyval)) :=
  match script m with
  | [] => Raise (ExternalError "script exhausted")
  | vals :: r => Ret (mkModel (dims m) (activation m) r, (vals, [], latents))
  end.

#[export, refine] Instance externals : Externals := {|
  int_of_float f := Ret (Z.quot (num f) (Zpos (den f)));
  float_of_int z := Ret (of_Z z);
  int_of_str := parse_int;
  float_of_str s := pbind (parse_int s) (fun z => Ret (of_Z z));
  torch_Tensor := entries;
  torch_tensor := entries;
  fmul := rmul;
  fadd := radd;
  f1 := of_Z 1;
  f255 := of_Z 255;
  f127_5 := mkRatio 255 2;
  f0_5 := mkRatio 1 2;
  to_uint8 f := ((num f / Zpos (den f)) mod 256)%Z;
  randint t := (Ret (Z.of_nat t), S t);
  INRF2D shape _ _ _ _ t := (new_model shape, t);
  init_map_fn m _ t := (Ret m, t);
  x_dim m := fst (fst (dims m));
  y_dim m := snd (fst (dims m));
  c_dim m := snd (dims m);
  final_activation m := PStr (activation m);
  init_latent_inputs m latents _ _ t := (next_inputs m latents, t);
  generate _ latents _ _ t := (Ret latents, t);
  model_metadata _ meta_latents := Ret {[ "latents" := meta_latents ]};
  cvtColor img _ := Ret img;
  tiff_encode img metadata := Ret (Tiff img (option_map (fun md => [md]) metadata))
|}.
Proof.
  intros f. apply Z.mod_pos_bound. lia.
Defined.

End Ref.

(** ** Vocabulary of the properties *)

Section Vocabulary.
Context `{Externals}.

(** [preserves obs c]: whatever [c] does, also when it raises, the
    observation [obs] of the state is as before. *)
Definition preserves {X A} (obs : State -> X) (c : M A) : Prop :=
  forall st, obs (snd (c st)) = obs st.

(** The number of rejections logged so far. *)
Fixpoint skipped (evs : list event) : nat :=
  match evs with
  | [] => 0
  | LogSkippingBlank :: r => S (skipped r)
  | _ :: r => skipped r
  end.

Definition rejections (st : State) : nat := skipped (events st).

(** Frame [f] and metadata [md] come from one and the same iteration [i]:
    the iteration rendered [f] together with some [meta_latents], and [md]
    is the model's metadata for these [meta_latents]. *)
Definition produced (latents : pyval) (zs ps : option (list pyval))
    (splits i : nat) (f : Frame) (md : gmap string pyval) : Prop :=
  exists st_i meta_latents st_r m,
    render latents zs ps splits i st_i = (Ret (f, meta_latents), st_r) /\
    self_model st_r = Some m /\
    model_metadata m meta_latents = Ret md.

(** The local variable [frames] holds no frame. *)
Definition no_frames (v : local (option (list Frame))) : Prop :=
  match v with
  | Bound (Some (_ :: _)) => False
  | _ => True
  end.

End Vocabulary.

(** ** Vocabulary of the further properties *)

Section FurtherVocabulary.
Context `{Externals}.

(** Two states that differ in the file system at most. *)
Definition same_but_fs (st st' : State) : Prop :=
  events st' = events st /\ torch st' = torch st /\
  self_model st' = self_model st /\ recon_calls st' = recon_calls st.

(** The colormap names that [image_colormaps] can fill in. *)
Definition known_colormaps : list string :=
  ["rgb"; "hsv"; "gray"; "lab"; "hls"; "luv"].

Definition raster_suffixes : list string := ["jpg"; "png"; "bmp"; "jpeg"].

(** The dictionary that [image_colormaps] starts from. *)
Definition requested (colormaps : list string) : list (string * option Frame) :=
  fold_left (fun d c => assoc_set (Path.lower c) None d) colormaps [].

(** The keys of lines 210-250, group by group. *)
Definition identity_int_keys : list string :=
  ["seed"; "latent_dim"; "x_dim"; "y_dim"; "c_dim"].
Definition identity_keys : list string :=
  ["seed"; "latent_dim"; "latent_scale"; "x_dim"; "y_dim"; "c_dim"; "device"].
Definition int_keys : list string :=
  ["mlp_layer_width"; "conv_feature_map_size"; "input_encoding_dim"; "num_graph_nodes"].
Definition float_keys : list string :=
  ["weight_init_mean"; "weight_init_std"; "weight_init_max"; "weight_init_min"].
Definition str_keys : list string :=
  ["activations"; "graph"; "final_activation"; "weight_init"; "graph_topology"].

(** The keys of every dictionary that [load_tif_metadata] returns. *)
Definition schema : list string :=
  (identity_keys ++ ["z_dim"] ++ int_keys ++ float_keys ++ str_keys ++ ["latents"])%list.

(** Everything of the state but the log of events. *)
Definition world (st : State) : list (string * node) * torch_state * option model * nat :=
  (fs st, torch st, self_model st, recon_calls st).

Definition is_warning (e : event) : bool :=
  match e with Warn _ => true | _ => false end.

(** [c] only adds warnings to the log, whatever its outcome. *)
Definition warns_only {A} (c : M A) : Prop :=
  forall st, exists ws, events (snd (c st)) = (events st ++ ws)%list /\
                        forallb is_warning ws = true.

(** The optional keys a metadata block lacks, in the order given. *)
Definition absent (data : gmap string pyval) (keys : list string) : list string :=
  List.filter (fun k => match data !! k with None => true | Some _ => false end) keys.

(** The warning of the [latents] loop. *)
Definition latents_warning (data : gmap string pyval) : list event :=
  match data !! "latents", data !! "latent" with
  | Some _, _ => []
  | None, Some _ => [Warn (OldStyleLatent "latents")]
  | None, None => [Warn (KeyNotFound "latents")]
  end.

(** The number of entries of an array of the given shape. *)
Definition size_of (shape : list nat) : nat := fold_right Nat.mul 1 shape.

(** A uint8 array with as many entries as its shape says. *)
Definition well_formed (f : Frame) : Prop :=
  length (pixels f) = size_of (frame_shape f) /\
  Forall (fun p => (0 <= p < 256)%Z) (pixels f).

(** The keyword arguments of [init_map_fn], in call order. *)
Definition map_fn_keys : list string :=
  ["mlp_layer_width"; "activations"; "final_activation"; "weight_init";
   "weight_init_mean"; "weight_init_std"; "weight_init_max"; "weight_init_min";
   "graph_topology"; "num_graph_nodes"; "graph"].

(** The files that [regen_frames] goes through. *)
Definition image_paths (f : list (string * node)) (path : string) : list string :=
  if isdir f path then glob_tif f path else [path].

(** The outcome of a run is a result, not an exception. *)
Definition returned {A} (r : PyResult A * State) : bool :=
  match fst r with Ret _ => true | Raise _ => false end.

(** The outcome of a decoding is a pair of an image and a dictionary. *)
Definition decoded
    (r : PyResult (option Frame * option (gmap string pyval)) * State) : bool :=
  match fst r with Ret (Some _, Some _) => true | _ => false end.

(** Where [shutil.copy(fn, os.path.join(output_dir, fn))] puts the copy. *)
Definition copy_target (f : list (string * node)) (output_dir fn : string) : string :=
  let dst := Path.join output_dir fn in
  if isdir f dst then Path.join dst (Path.basename fn) else dst.

(** The four files that [fit] writes for an epoch. *)
Definition fit_files (self : Runner) (epoch : nat) : list string :=
  let path := output_dir self ++ "/fit_" ++ pretty epoch in
  [path ++ ".png"; path ++ ".tif"; path ++ "_test.png"; path ++ "_test.tif"].

(** The models that the model [m0] of the runner can have become by the
    calls of [init_latent_inputs] with [latents], the one call of
    [run_frames] that acts on the model. *)
Inductive model_after (latents : pyval) (m0 : model) : model -> Prop :=
  | model_after_refl : model_after latents m0 m0
  | model_after_step m zoom pan t m' r t' :
      model_after latents m0 m ->
      init_latent_inputs m latents zoom pan t = (Ret (m', r), t') ->
      model_after latents m0 m'.

(** Frame [f] is what the runner's model, [m0] at the start of the call,
    generated in iteration [i]: the zoom and pan of the iteration went into
    [init_latent_inputs] of the model as it was then, the model as it came
    out generated the values with [splits], the pixels of [f] are these
    values taken to uint8 by the model's activation, and the shape of [f]
    is the output shape of that model, with the batch in front unless it
    is 1. *)
Definition generated_from (latents : pyval) (zs ps : option (list pyval))
    (splits : nat) (m0 : model) (i : nat) (f : Frame) : Prop :=
  exists zoom pan m t m' latents_gen inputs meta_latents t1 vals t2,
    schedule_at zs i (PList [PFloat f0_5; PFloat f0_5]) = Ret zoom /\
    schedule_at ps i (PList [PInt 2; PInt 2]) = Ret pan /\
    model_after latents m0 m /\
    init_latent_inputs m latents zoom pan t
      = (Ret (m', (latents_gen, inputs, meta_latents)), t1) /\
    generate m' latents_gen inputs splits t1 = (Ret vals, t2) /\
    pixels f = map (denormalize (final_activation m')) vals /\
    (frame_shape f = [x_dim m'; y_dim m'; c_dim m'] \/
     exists batch, batch <> 1 /\
       frame_shape f = [batch; x_dim m'; y_dim m'; c_dim m']).

End FurtherVocabulary.

(** ** Scenarios on the reference instance *)

Module Scenario.
Import Ref.
Open Scope Z_scope.

(** The metadata of the round-trip example: identity fields only. *)
Definition identity_data : gmap string pyval :=
  {[ "seed" := PInt 42; "latent_dim" := PInt 8;
     "latent_scale" := PFloat (mkRatio 1 1); "x_dim" := PInt 64;
     "y_dim" := PInt 64; "c_dim" := PInt 3; "device" := PStr "cpu" ]}.

(** A legacy block: singular [latent], activations ['basic']. *)
Definition legacy_data : gmap string pyval :=
  <["latent" := PList [PInt 1; PInt 2]]>
    (<["activations" := PStr "basic"]> identity_data).

Definition img : Frame := mkFrame [1; 1; 3]%nat [0; 128; 255].

Definition self : Runner := mkRunner "out" "gen_image" false true None.

Definition archive : State :=
  mkState [("in", Dir); ("out", Dir);
           ("in/a.tif", File (Tiff img (Some [identity_data])));
           ("legacy", Dir);
           ("legacy/old.tif", File (Tiff img (Some [legacy_data])));
           ("legacy/broken.tif", File Opaque);
           ("legacy/bare.tif", File (Tiff img None));
           ("legacy/anonymous.tif",
            File (Tiff img (Some [delete "seed" identity_data])));
           ("empty", Dir)]
          [] 0%nat None 0.

Definition decoded_legacy := load_tif_metadata "legacy/old.tif" archive.

Definition decoded_legacy_metadata : gmap string pyval :=
  match fst decoded_legacy with
  | Ret (_, Some md) => md
  | _ => ∅
  end.

(** Two runs of [regen_frames] over the directory [in], one after the other. *)
Definition first_run := regen_frames self "in" [8; 8; 3] 1 1 None None false archive.
Definition second_run :=
  regen_frames self "in" [8; 8; 3] 1 1 None None false (snd first_run).

(** A model about to generate a blank frame (pixels 200 to 205), a frame
    with a full range, and a blank frame again. *)
Definition blank_values : list ratio := map (fun z => mkRatio z 255) [200; 205; 203].
Definition good_values : list ratio := map (fun z => mkRatio z 255) [0; 100; 255].

Definition with_script (script : list (list ratio)) : State :=
  mkState [("out", Dir)] [] 0%nat (Some (mkModel (1, 1, 3)%nat "sigmoid" script)) 0.

Definition three_samples :=
  run_frames self PNone 3 None None 1 false
             (with_script [blank_values; good_values; blank_values]).
Definition three_frames : list Frame :=
  match fst three_samples with Ret (fr, _) => fr | Raise _ => [] end.
Definition three_metadata : list (gmap string pyval) :=
  match fst three_samples with Ret (_, md) => md | Raise _ => [] end.

Definition one_sample :=
  run_frames self PNone 1 None None 1 false (with_script [blank_values]).

(** A stand-in for [reinit_model_from_metadata] that succeeds: it binds a
    scripted model and returns no latent. *)
Definition reinit_stub (script : list (list ratio))
    (_ : Runner) (_ : list Z) (_ : string) (_ : option (gmap string pyval))
  : M pyval :=
  set_model (mkModel (1, 1, 3)%nat "sigmoid" script) ;; ret PNone.

End Scenario.

(** Further scenarios on the reference instance. *)

Module Scenario2.
Import Ref Scenario.
Open Scope Z_scope.

(** The archive after the reproduction of [in/a.tif] was written by hand. *)
Definition reproduced : State :=
  mkState (fs archive ++ [("out/a_reproduce_0_rgb.png", File Opaque)])
          [] 0%nat None 0.

(** A metadata dictionary of a caller who knows the key that
    [reinit_model_from_metadata] returns. *)
Definition with_latent : gmap string pyval :=
  <["latent" := PList [PInt 1; PInt 2]]>
    (list_to_map (map (fun k => (k, PNone)) map_fn_keys) ∪ identity_data).

End Scenario2.

Module Scenario3.
Import Ref Scenario.
Open Scope Z_scope.

(** A project directory: two sources, a note, and two directories. *)
Definition project : State :=
  mkState [("main.py", File Opaque); ("notes.txt", File Opaque);
           ("model.py", File (Tiff img None)); ("out", Dir); ("lib", Dir)]
          [] 0%nat None 0.

(** A runner as the constructor makes it without arguments. *)
Definition default_runner : Runner := mkRunner "" "gen_image" false true None.

(** A training step that changes nothing and reports the loss 1/2. *)
#[export] Instance trainer : Trainer := {|
  target := unit;
  loss_weights := unit;
  optimizer := unit;
  scheduler := unit;
  loss_module := unit;
  loss_value := ratio;
  is_conv_map _ := true;
  AdamW _ _ _ t := (Ret tt, t);
  CosineAnnealingWarmRestarts _ t := (Ret tt, t);
  LossModule _ t := (Ret tt, t);
  default_latent_inputs m t := (Ret (m, ([], [])), t);
  shaped_latent_inputs m _ t := (Ret (m, ([], [])), t);
  model_fit m _ _ _ _ _ _ _ _ t := (Ret (m, (img, img, mkRatio 1 2)), t);
  format_loss _ := Ret "0.5000";
  loss_item v := Ret v
|}.

End Scenario3.

(** * Properties *)

(** ** Paths *)

Example basename_ex : Path.basename "in/a.tif" = "a.tif".
Proof. reflexivity. Qed.

Example dirname_ex : Path.dirname "out/sub/a_0.png" = "out/sub".
Proof. reflexivity. Qed.

Example dirname_root_ex : Path.dirname "/a.png" = "/".
Proof. reflexivity. Qed.

Example dirname_rel_ex : Path.dirname "a.png" = "".
Proof. reflexivity. Qed.

Example split_head_ex : Path.split_head "_reproduce" "img_reproduce" = "img".
Proof. reflexivity. Qed.

Example lower_ex : Path.lower "RGB_x1" = "rgb_x1".
Proof. reflexivity. Qed.

Example save_fn_fresh : reproduce_save_fn "out" "in/a.tif" = "out/a_reproduce".
Proof. reflexivity. Qed.

(** The only names the test [basename.endswith('reproduce')] accepts have
    no extension, and then the slice [basename[:-4]] eats four more
    characters of the stem. *)
Example save_fn_no_extension :
  reproduce_save_fn "out" "in/image_reproduce" = "out/i_reproduce".
Proof. reflexivity. Qed.

Lemma endswith_last s suf c :
  Path.endswith s suf = true ->
  String.get (String.length suf - 1) suf = Some c ->
  String.get (String.length s - 1) s = Some c.
Proof.
  unfold Path.endswith. intros E G.
  apply andb_true_iff in E as [Hl E].
  apply Nat.leb_le in Hl. apply String.eqb_eq in E.
  assert (Hpos : String.length suf <> 0%nat).
  { destruct suf; [discriminate G | simpl; lia]. }
  rewrite <- E in G at 2.
  rewrite substring_correct1 in G by lia.
  replace (String.length suf - 1 + (String.length s - String.length suf))%nat
    with (String.length s - 1)%nat in G by lia.
  exact G.
Qed.

Lemma tif_not_reproduce s :
  Path.endswith s ".tif" = true -> Path.endswith s "reproduce" = false.
Proof.
  intros E. destruct (Path.endswith s "reproduce") eqn:R; [|reflexivity].
  pose proof (endswith_last s ".tif" "f" E eq_refl) as H1.
  pose proof (endswith_last s "reproduce" "e" R eq_refl) as H2.
  rewrite H1 in H2. discriminate H2.
Qed.

(** For a file whose name ends in [.tif], as every file that the glob
    lists, the strip of line 197 never runs: the output name is the name
    without its extension followed by [_reproduce]. *)
Lemma tif_name_never_stripped output_dir path :
  Path.endswith (Path.basename path) ".tif" = true ->
  reproduce_save_fn output_dir path =
    Path.join output_dir (Path.drop_last 4 (Path.basename path) ++ "_reproduce").
Proof.
  intros E. unfold reproduce_save_fn. rewrite (tif_not_reproduce _ E). reflexivity.
Qed.

(** C4, evaluated on the code. The first reproduction of [in/a.tif] is
    written as [out/a_reproduce_0.tif]; when that file and a file named
    [a_reproduce.tif] are processed in turn, the suffix [_reproduce] is not
    stripped: the name ends in [.tif], so [endswith('reproduce')] is false,
    and the derived output name carries the suffix twice. *)
Theorem reproduce_suffix_accumulates :
  reproduce_save_fn "out" "in/a.tif" ++ "_0.tif" = "out/a_reproduce_0.tif" /\
  Path.endswith (Path.basename "out/a_reproduce_0.tif") "reproduce" = false /\
  reproduce_save_fn "out" "out/a_reproduce_0.tif" = "out/a_reproduce_0_reproduce" /\
  reproduce_save_fn "out" "out/a_reproduce.tif" = "out/a_reproduce_reproduce".
Proof. repeat split; reflexivity. Qed.

(** ** The monad *)

Section MonadFacts.
Context `{Carriers}.

Lemma bind_ret_inv {A B} (c : M A) (k : A -> M B) st b st' :
  bind c k st = (Ret b, st') ->
  exists a st1, c st = (Ret a, st1) /\ k a st1 = (Ret b, st').
Proof.
  unfold bind. destruct (c st) as [[a|e] st1]; intros E.
  - exists a, st1. split; [reflexivity | exact E].
  - discriminate E.
Qed.

Lemma bind_ret_intro {A B} (c : M A) (k : A -> M B) st a st1 :
  c st = (Ret a, st1) -> bind c k st = k a st1.
Proof. unfold bind. intros ->. reflexivity. Qed.

Lemma bind_raise_intro {A B} (c : M A) (k : A -> M B) st e st1 :
  c st = (Raise e, st1) -> bind c k st = (Raise e, st1).
Proof. unfold bind. intros ->. reflexivity. Qed.

Lemma lift_ret_inv {A} (r : PyResult A) st a st' :
  lift r st = (Ret a, st') -> r = Ret a /\ st' = st.
Proof. unfold lift. intros E. inversion E. split; reflexivity. Qed.

Lemma assert_ret_inv b st u st' :
  assert b st = (Ret u, st') -> b = true /\ st' = st.
Proof.
  unfold assert. destruct b; cbv [ret raise]; intros E; inversion E.
  split; reflexivity.
Qed.

Lemma pbind_ret_inv {A B} (r : PyResult A) (k : A -> PyResult B) b :
  pbind r k = Ret b -> exists a, r = Ret a /\ k a = Ret b.
Proof.
  destruct r as [a|e]; simpl; intros E.
  - exists a. split; [reflexivity | exact E].
  - discriminate E.
Qed.

End MonadFacts.

(** Inversion of a computation that returned. *)
Ltac inv_ret H :=
  lazymatch type of H with
  | bind _ _ _ = (Ret _, _) =>
      let a := fresh "a" in
      let s := fresh "st" in
      let E := fresh "E" in
      apply bind_ret_inv in H as (a & s & E & H); inv_ret E; inv_ret H
  | lift _ _ = (Ret _, _) =>
      apply lift_ret_inv in H as [H ?]; subst
  | assert _ _ = (Ret _, _) =>
      apply assert_ret_inv in H as [H ?]; subst
  | get _ = (Ret _, _) =>
      cbv [get] in H; inversion H; subst; clear H
  | ret _ _ = (Ret _, _) =>
      cbv [ret] in H; inversion H; subst; clear H
  | emit _ _ = (Ret _, _) =>
      cbv [emit] in H; inversion H; subst; clear H
  | set_model _ _ = (Ret _, _) =>
      cbv [set_model] in H; inversion H; subst; clear H
  | set_fs _ _ = (Ret _, _) =>
      cbv [set_fs] in H; inversion H; subst; clear H
  | count_reconstruction _ = (Ret _, _) =>
      cbv [count_reconstruction] in H; inversion H; subst; clear H
  | raise _ _ = (Ret _, _) =>
      cbv [raise] in H; discriminate H
  | _ => idtac
  end.

(** ** Metadata decoding *)

Section DecodeFacts.
Context `{Externals}.

Lemma required_keys_other data keys md md' k :
  required_keys data keys md = Ret md' ->
  ~ In k (map fst keys) -> md' !! k = md !! k.
Proof.
  revert md. induction keys as [|[k0 conv] r IH]; intros md E Hk; simpl in *.
  - inversion E. reflexivity.
  - apply pbind_ret_inv in E as (v & _ & E).
    apply pbind_ret_inv in E as (c & _ & E).
    rewrite (IH _ E) by tauto.
    apply lookup_insert_ne. intros ->. tauto.
Qed.

Lemma optional_keys_other data conv keys md st md' st' k :
  optional_keys data conv keys md st = (Ret md', st') ->
  ~ In k keys -> md' !! k = md !! k.
Proof.
  revert md st. induction keys as [|k0 r IH]; intros md st E Hk; simpl in *.
  - inv_ret E. reflexivity.
  - destruct (data !! k0) as [v|]; inv_ret E.
    + rewrite (IH _ _ E) by tauto.
      apply lookup_insert_ne. intros ->. tauto.
    + rewrite (IH _ _ E) by tauto.
      apply lookup_insert_ne. intros ->. tauto.
Qed.

(** A key of an optional group holds the converted value, or [None] when
    the decoded block lacks it. *)
Lemma optional_keys_at data conv keys md st md' st' k :
  optional_keys data conv keys md st = (Ret md', st') ->
  In k keys ->
  match data !! k with
  | Some v => exists c, conv v = Ret c /\ md' !! k = Some c
  | None => md' !! k = Some PNone
  end.
Proof.
  revert md st. induction keys as [|k0 r IH]; intros md st E Hk; simpl in *.
  - contradiction.
  - destruct (in_dec string_dec k r) as [Hr|Hr].
    + destruct (data !! k0) as [v|]; inv_ret E; exact (IH _ _ E Hr).
    + destruct Hk as [->|Hk]; [|contradiction].
      destruct (data !! k) as [v|] eqn:Dk; inv_ret E.
      * exists a. split; [assumption|].
        rewrite (optional_keys_other _ _ _ _ _ _ _ k E Hr).
        apply lookup_insert_eq.
      * rewrite (optional_keys_other _ _ _ _ _ _ _ k E Hr).
        apply lookup_insert_eq.
Qed.

Lemma latents_key_other data md st md' st' k :
  latents_key data md st = (Ret md', st') ->
  k <> "latents" -> md' !! k = md !! k.
Proof.
  unfold latents_key. intros E Hk.
  destruct (data !! "latents"); [|destruct (data !! "latent")];
    inv_ret E; apply lookup_insert_ne; congruence.
Qed.

Lemma latents_key_at data md st md' st' :
  latents_key data md st = (Ret md', st') ->
  match data !! "latents", data !! "latent" with
  | Some v, _ => exists t, torch_Tensor v = Ret t /\ md' !! "latents" = Some (PTensor t)
  | None, Some v => exists t, torch_tensor v = Ret t /\ md' !! "latents" = Some (PTensor t)
  | None, None => md' !! "latents" = Some PNone
  end.
Proof.
  unfold latents_key. intros E.
  destruct (data !! "latents"); [|destruct (data !! "latent")]; inv_ret E.
  - exists a. split; [assumption | apply lookup_insert_eq].
  - exists a. split; [assumption | apply lookup_insert_eq].
  - apply lookup_insert_eq.
Qed.

Lemma normalize_legacy_other md md' k :
  normalize_legacy md = Ret md' ->
  k <> "input_encoding_dim" -> k <> "activations" -> md' !! k = md !! k.
Proof.
  unfold normalize_legacy. intros E H1 H2.
  apply pbind_ret_inv in E as (ied & _ & E).
  apply pbind_ret_inv in E as (act & _ & E).
  assert (Hied : (match ied with
                  | PNone => <["input_encoding_dim" := PInt 1]> md
                  | _ => md
                  end) !! k = md !! k).
  { destruct ied; try reflexivity. apply lookup_insert_ne. congruence. }
  destruct act as [| | | |s| | |]; try (inversion E; subst; exact Hied).
  destruct (String.eqb s "basic"); inversion E; subst; [|exact Hied].
  rewrite lookup_insert_ne by congruence. exact Hied.
Qed.

Lemma normalize_legacy_input_encoding_dim md md' :
  normalize_legacy md = Ret md' ->
  exists v, md !! "input_encoding_dim" = Some v /\
            md' !! "input_encoding_dim" =
              Some (match v with PNone => PInt 1 | _ => v end).
Proof.
  unfold normalize_legacy. intros E.
  apply pbind_ret_inv in E as (ied & Hied & E).
  apply pbind_ret_inv in E as (act & _ & E).
  unfold subscript in Hied.
  destruct (md !! "input_encoding_dim") as [v|] eqn:Dv; [|discriminate].
  inversion Hied; subst ied. exists v. split; [reflexivity|].
  assert (Hm : (match v with
                | PNone => <["input_encoding_dim" := PInt 1]> md
                | _ => md
                end) !! "input_encoding_dim"
               = Some (match v with PNone => PInt 1 | _ => v end)).
  { destruct v; try exact Dv. apply lookup_insert_eq. }
  destruct act as [| | | |s| | |]; try (inversion E; subst; exact Hm).
  destruct (String.eqb s "basic"); inversion E; subst; [|exact Hm].
  rewrite lookup_insert_ne by discriminate. exact Hm.
Qed.

Lemma normalize_legacy_activations md md' :
  normalize_legacy md = Ret md' ->
  exists v, md !! "activations" = Some v /\
            md' !! "activations" =
              Some (match v with
                    | PStr s => if String.eqb s "basic" then PStr "fixed" else v
                    | _ => v
                    end).
Proof.
  unfold normalize_legacy. intros E.
  apply pbind_ret_inv in E as (ied & _ & E).
  apply pbind_ret_inv in E as (act & Hact & E).
  unfold subscript in Hact.
  assert (Hpre : (match ied with
                  | PNone => <["input_encoding_dim" := PInt 1]> md
                  | _ => md
                  end) !! "activations" = md !! "activations").
  { destruct ied; try reflexivity. apply lookup_insert_ne. discriminate. }
  rewrite Hpre in Hact.
  destruct (md !! "activations") as [v|] eqn:Dv; [|discriminate].
  inversion Hact; subst act. exists v. split; [reflexivity|].
  destruct v as [| | | |s| | |]; try (inversion E; subst; exact Hpre).
  destruct (String.eqb s "basic"); inversion E; subst.
  - apply lookup_insert_eq.
  - exact Hpre.
Qed.

End DecodeFacts.

Section DecodeTheorems.
Context `{Externals}.

Lemma conv_int_inv v c :
  conv_int v = Ret c -> exists z, py_int v = Ret z /\ c = PInt z.
Proof.
  unfold conv_int. intros E. apply pbind_ret_inv in E as (z & Hz & E).
  inversion E. eauto.
Qed.

Lemma required_identity_keys data md :
  required_keys data
    [("seed", conv_int); ("latent_dim", conv_int); ("latent_scale", conv_float);
     ("x_dim", conv_int); ("y_dim", conv_int); ("c_dim", conv_int);
     ("device", conv_id)] ∅ = Ret md ->
  (exists vx zx, data !! "x_dim" = Some vx /\ py_int vx = Ret zx /\
                 md !! "x_dim" = Some (PInt zx)) /\
  md !! "latent" = None /\ md !! "z_dim" = None.
Proof.
  intros E. split; [|split].
  - simpl in E.
    repeat (apply pbind_ret_inv in E as (? & ? & E)).
    inversion E; subst md; clear E.
    match goal with
    | Hs : subscript data "x_dim" = Ret ?v, Hc : conv_int ?v = Ret ?c |- _ =>
        unfold subscript in Hs; destruct (data !! "x_dim") as [vx|] eqn:Dx;
        [inversion Hs; subst v | discriminate Hs];
        apply conv_int_inv in Hc as (zx & Hz & ->);
        exists vx, zx
    end.
    split; [reflexivity | split; [assumption|]].
    rewrite !lookup_insert_ne by discriminate. apply lookup_insert_eq.
  - rewrite (required_keys_other _ _ _ _ "latent" E).
    + apply lookup_empty.
    + simpl. intros Hin. repeat (destruct Hin as [Hin|Hin]; [discriminate Hin|]).
      exact Hin.
  - rewrite (required_keys_other _ _ _ _ "z_dim" E).
    + apply lookup_empty.
    + simpl. intros Hin. repeat (destruct Hin as [Hin|Hin]; [discriminate Hin|]).
      exact Hin.
Qed.

(** What the field extraction of lines 210-256 guarantees about the keys
    with legacy defaults. *)
Lemma extract_metadata_defaults data st md st' :
  extract_metadata data st = (Ret md, st') ->
  (exists zx, md !! "x_dim" = Some (PInt zx) /\
     (data !! "z_dim" = None -> md !! "z_dim" = Some (PInt zx))) /\
  match data !! "latents", data !! "latent" with
  | Some v, _ => exists t, torch_Tensor v = Ret t /\ md !! "latents" = Some (PTensor t)
  | None, Some v => exists t, torch_tensor v = Ret t /\ md !! "latents" = Some (PTensor t)
  | None, None => md !! "latents" = Some PNone
  end /\
  (data !! "input_encoding_dim" = None ->
     md !! "input_encoding_dim" = Some (PInt 1)) /\
  md !! "input_encoding_dim" <> Some PNone /\
  (data !! "activations" = Some (PStr "basic") ->
     md !! "activations" = Some (PStr "fixed")) /\
  md !! "activations" <> Some (PStr "basic") /\
  md !! "latent" = None.
Proof.
  unfold extract_metadata. intros E.
  apply bind_ret_inv in E as (md0 & s0 & E0 & E). inv_ret E0.
  apply bind_ret_inv in E as (zd & s1 & E1 & E). inv_ret E1.
  apply bind_ret_inv in E as (md1 & s2 & E2 & E).
  apply bind_ret_inv in E as (md2 & s3 & E3 & E).
  apply bind_ret_inv in E as (md3 & s4 & E4 & E).
  apply bind_ret_inv in E as (md4 & s5 & E5 & E).
  inv_ret E.
  destruct (required_identity_keys _ _ E0) as ((vx & zx & Dx & Hzx & Mx) & Ml & Mz).
  assert (K : forall k, ~ In k ["mlp_layer_width"; "conv_feature_map_size";
                                "input_encoding_dim"; "num_graph_nodes";
                                "weight_init_mean"; "weight_init_std";
                                "weight_init_max"; "weight_init_min";
                                "activations"; "graph"; "final_activation";
                                "weight_init"; "graph_topology"; "latents"] ->
                     md !! k = (<["z_dim" := zd]> md0) !! k).
  { intros k Hk.
    rewrite (normalize_legacy_other _ _ k E) by (intros ->; simpl in Hk; tauto).
    rewrite (latents_key_other _ _ _ _ _ k E5) by (intros ->; simpl in Hk; tauto).
    rewrite (optional_keys_other _ _ _ _ _ _ _ k E4) by (simpl in *; tauto).
    rewrite (optional_keys_other _ _ _ _ _ _ _ k E3) by (simpl in *; tauto).
    rewrite (optional_keys_other _ _ _ _ _ _ _ k E2) by (simpl in *; tauto).
    reflexivity. }
  repeat split.
  - exists zx. split.
    + rewrite K.
      * rewrite lookup_insert_ne by discriminate. exact Mx.
      * simpl. intros Hin.
        repeat (destruct Hin as [Hin|Hin]; [discriminate Hin|]). exact Hin.
    + intros Dz. rewrite Dz in E1. rewrite K.
      * unfold subscript in E1. rewrite Dx in E1. simpl in E1.
        apply conv_int_inv in E1 as (z' & Hz' & ->).
        rewrite Hzx in Hz'. inversion Hz'; subst z'. apply lookup_insert_eq.
      * simpl. intros Hin.
        repeat (destruct Hin as [Hin|Hin]; [discriminate Hin|]). exact Hin.
  - pose proof (latents_key_at _ _ _ _ _ E5) as L.
    rewrite <- (normalize_legacy_other _ _ "latents" E) in L by discriminate.
    exact L.
  - intros Di.
    destruct (normalize_legacy_input_encoding_dim _ _ E) as (v & Hv & Hv').
    rewrite (latents_key_other _ _ _ _ _ _ E5) in Hv by discriminate.
    rewrite (optional_keys_other _ _ _ _ _ _ _ _ E4) in Hv
      by (simpl; intros Hin;
          repeat (destruct Hin as [Hin|Hin]; [discriminate Hin|]); exact Hin).
    rewrite (optional_keys_other _ _ _ _ _ _ _ _ E3) in Hv
      by (simpl; intros Hin;
          repeat (destruct Hin as [Hin|Hin]; [discriminate Hin|]); exact Hin).
    pose proof (optional_keys_at _ _ _ _ _ _ _ "input_encoding_dim" E2) as A.
    rewrite Di in A. rewrite A in Hv by (simpl; tauto).
    inversion Hv; subst v. exact Hv'.
  - destruct (normalize_legacy_input_encoding_dim _ _ E) as (v & Hv & Hv').
    rewrite Hv'. destruct v; discriminate.
  - intros Da.
    destruct (normalize_legacy_activations _ _ E) as (v & Hv & Hv').
    rewrite (latents_key_other _ _ _ _ _ _ E5) in Hv by discriminate.
    pose proof (optional_keys_at _ _ _ _ _ _ _ "activations" E4) as A.
    rewrite Da in A. destruct A as (c & Hc & A); [simpl; tauto|].
    inversion Hc; subst c. rewrite A in Hv. inversion Hv; subst v.
    exact Hv'.
  - destruct (normalize_legacy_activations _ _ E) as (v & Hv & Hv').
    rewrite Hv'. destruct v as [| | | |s| | |]; try discriminate.
    destruct (String.eqb s "basic") eqn:Es; [discriminate|].
    intros Heq. inversion Heq; subst s. discriminate Es.
  - rewrite K.
    + rewrite lookup_insert_ne by discriminate. exact Ml.
    + simpl. intros Hin.
      repeat (destruct Hin as [Hin|Hin]; [discriminate Hin|]). exact Hin.
Qed.

Lemma load_tif_metadata_inv path st img md st' :
  load_tif_metadata path st = (Ret (Some img, Some md), st') ->
  exists data, read_tiff (fs st) path = Ret (img, data) /\
               extract_metadata data st = (Ret md, st').
Proof.
  unfold load_tif_metadata. intros E.
  cbv [bind get assert] in E.
  destruct (isfile (fs st) path); [|discriminate E].
  cbv [ret] in E.
  destruct (read_tiff (fs st) path) as [[img0 data]|e].
  - destruct (extract_metadata data st) as [[md0|e] s3] eqn:Ex;
      inversion E; subst.
    exists data. split; [reflexivity | exact Ex].
  - cbv [emit] in E. inversion E.
Qed.

(** C1. Whenever [load_tif_metadata] decodes a file, the legacy defaults
    hold of the metadata it returns: [z_dim] is [x_dim] when the block has
    no [z_dim]; [latents] comes from the key [latents], else from the
    legacy key [latent], else is [None]; [input_encoding_dim] is 1 when
    the block has none (and is never [None]); [activations] is ['fixed']
    when the block says ['basic'] (and is never ['basic']). *)
Theorem load_tif_metadata_legacy_defaults path st img md st' :
  load_tif_metadata path st = (Ret (Some img, Some md), st') ->
  exists data,
    read_tiff (fs st) path = Ret (img, data) /\
    (exists zx, md !! "x_dim" = Some (PInt zx) /\
       (data !! "z_dim" = None -> md !! "z_dim" = Some (PInt zx))) /\
    (forall v, data !! "latents" = Some v ->
       exists t, torch_Tensor v = Ret t /\ md !! "latents" = Some (PTensor t)) /\
    (forall v, data !! "latents" = None -> data !! "latent" = Some v ->
       exists t, torch_tensor v = Ret t /\ md !! "latents" = Some (PTensor t)) /\
    (data !! "latents" = None -> data !! "latent" = None ->
       md !! "latents" = Some PNone) /\
    (data !! "input_encoding_dim" = None ->
       md !! "input_encoding_dim" = Some (PInt 1)) /\
    md !! "input_encoding_dim" <> Some PNone /\
    (data !! "activations" = Some (PStr "basic") ->
       md !! "activations" = Some (PStr "fixed")) /\
    md !! "activations" <> Some (PStr "basic").
Proof.
  intros E. destruct (load_tif_metadata_inv _ _ _ _ _ E) as (data & Hr & Hx).
  exists data. split; [exact Hr|].
  destruct (extract_metadata_defaults _ _ _ _ Hx)
    as (Hz & Hl & Hi & Hi' & Ha & Ha' & _).
  repeat split; try assumption.
  - intros v Dv. rewrite Dv in Hl. exact Hl.
  - intros v Dn Dv. rewrite Dn, Dv in Hl. exact Hl.
  - intros Dn Dv. rewrite Dn, Dv in Hl. exact Hl.
Qed.

(** C2, as amended. For a path that names an existing regular file, any
    failure to open the file or to read its metadata block is swallowed:
    the result is the pair [(None, None)], one warning is issued and
    nothing else changes. *)
Theorem load_tif_metadata_soft_failure path st e :
  isfile (fs st) path = true ->
  read_tiff (fs st) path = Raise e ->
  load_tif_metadata path st =
    (Ret (None, None),
     mkState (fs st) (events st ++ [Warn (CouldNotLoad path)]) (torch st)
             (self_model st) (recon_calls st)).
Proof.
  intros Hf Hr. unfold load_tif_metadata.
  cbv [bind get assert]. rewrite Hf. cbv [ret]. rewrite Hr.
  reflexivity.
Qed.

(** The guard of line 202: a path that is not an existing regular file
    fails the assertion before anything is opened. *)
Lemma load_tif_metadata_not_a_file path st :
  isfile (fs st) path = false ->
  load_tif_metadata path st = (Raise AssertionError, st).
Proof.
  intros Hf. unfold load_tif_metadata.
  cbv [bind get assert]. rewrite Hf. reflexivity.
Qed.

End DecodeTheorems.

(** ** What a computation leaves alone *)

Section Preservation.
Context `{Externals}.

Lemma preserves_ret {X A} (obs : State -> X) (a : A) : preserves obs (ret a).
Proof. intros st. reflexivity. Qed.

Lemma preserves_raise {X A} (obs : State -> X) e : preserves obs (@raise _ A e).
Proof. intros st. reflexivity. Qed.

Lemma preserves_lift {X A} (obs : State -> X) (r : PyResult A) :
  preserves obs (lift r).
Proof. intros st. reflexivity. Qed.

Lemma preserves_get {X} (obs : State -> X) : preserves obs get.
Proof. intros st. reflexivity. Qed.

Lemma preserves_assert {X} (obs : State -> X) b : preserves obs (assert b).
Proof. intros st. destruct b; reflexivity. Qed.

Lemma preserves_bind {X A B} (obs : State -> X) (c : M A) (k : A -> M B) :
  preserves obs c -> (forall a, preserves obs (k a)) -> preserves obs (bind c k).
Proof.
  intros Hc Hk st. unfold bind. specialize (Hc st).
  destruct (c st) as [[a|e] st1]; simpl in *.
  - rewrite Hk. exact Hc.
  - exact Hc.
Qed.

Lemma preserves_for_each {X A S} (obs : State -> X) (body : A -> S -> M S) l s :
  (forall a s, preserves obs (body a s)) -> preserves obs (for_each body l s).
Proof.
  intros Hb. revert s. induction l as [|a r IH]; intros s; simpl.
  - apply preserves_ret.
  - apply preserves_bind; [apply Hb | intros s'; apply IH].
Qed.

Lemma skipped_app evs evs' : skipped (evs ++ evs') = skipped evs + skipped evs'.
Proof.
  induction evs as [|e r IH]; simpl; [reflexivity|].
  destruct e; simpl; rewrite IH; reflexivity.
Qed.

Lemma rejections_emit e st :
  rejections (snd (emit e st)) =
  rejections st + match e with LogSkippingBlank => 1 | _ => 0 end.
Proof.
  unfold rejections. simpl. rewrite skipped_app. simpl.
  destruct e; simpl; lia.
Qed.

Lemma rejections_emit_other e :
  e <> LogSkippingBlank -> preserves rejections (emit e).
Proof.
  intros He st. rewrite rejections_emit. destruct e; try lia. congruence.
Qed.

Lemma rejections_set_fs f : preserves rejections (set_fs f).
Proof. intros st. reflexivity. Qed.

Lemma rejections_set_model m : preserves rejections (set_model m).
Proof. intros st. reflexivity. Qed.

Lemma rejections_call_torch {A} (f : torch_state -> PyResult A * torch_state) :
  preserves rejections (call_torch f).
Proof. intros st. unfold call_torch. destruct (f (torch st)). reflexivity. Qed.

Lemma fs_emit e : preserves fs (emit e).
Proof. intros st. reflexivity. Qed.

Lemma fs_set_model m : preserves fs (set_model m).
Proof. intros st. reflexivity. Qed.

Lemma fs_count_reconstruction : preserves fs count_reconstruction.
Proof. intros st. reflexivity. Qed.

Lemma fs_call_torch {A} (f : torch_state -> PyResult A * torch_state) :
  preserves fs (call_torch f).
Proof. intros st. unfold call_torch. destruct (f (torch st)). reflexivity. Qed.

End Preservation.

Create HintDb keeps discriminated.
#[export] Hint Resolve preserves_ret preserves_raise preserves_lift preserves_get
  preserves_assert rejections_set_fs rejections_set_model rejections_call_torch
  fs_emit fs_set_model fs_count_reconstruction fs_call_torch : keeps.

(** Goes through a computation bind by bind and branch by branch. *)
Ltac keeps :=
  repeat first
    [ progress auto with keeps
    | apply preserves_bind; [|intros ?]
    | apply rejections_emit_other; discriminate
    | match goal with
      | |- preserves _ (match ?x with _ => _ end) => destruct x
      | |- preserves _ (if ?b then _ else _) => destruct b
      | |- preserves _ (let '(_, _) := ?x in _) => destruct x
      end ].

Section WriteFacts.
Context `{Externals}.

Lemma rejections_cv2_imwrite path img : preserves rejections (cv2_imwrite path img).
Proof. unfold cv2_imwrite. keeps. Qed.

Lemma rejections_write_colormapped path suffix imgs :
  preserves rejections (write_colormapped path suffix imgs).
Proof.
  induction imgs as [|[cmap img] r IH]; simpl.
  - keeps.
  - apply preserves_bind; [apply rejections_cv2_imwrite | intros _].
    apply preserves_bind; [unfold assert_isfile; keeps | intros _; exact IH].
Qed.

Lemma rejections_write_image path img suffix metadata cms :
  preserves rejections (write_image path img suffix metadata cms).
Proof.
  unfold write_image, tifffile_imwrite, assert_isfile.
  pose proof rejections_cv2_imwrite. pose proof rejections_write_colormapped.
  keeps.
Qed.

Lemma rejections_render latents zs ps splits i :
  preserves rejections (render latents zs ps splits i).
Proof. unfold render. keeps. Qed.

End WriteFacts.

(** ** run_frames *)

Section RunFrames.
Context `{Externals}.

Lemma preserves_ret_inv {X A} (obs : State -> X) (c : M A) st r st' :
  preserves obs c -> c st = (r, st') -> obs st' = obs st.
Proof. intros Hp E. specialize (Hp st). rewrite E in Hp. exact Hp. Qed.

Lemma run_frames_body_inv self latents zs ps splits autosave randID i
    frames metas st frames' metas' st' :
  run_frames_body self latents zs ps splits autosave randID i (frames, metas) st
    = (Ret (frames', metas'), st') ->
  (skip_blank_generations self = true /\ frames' = frames /\ metas' = metas /\
   rejections st' = S (rejections st)) \/
  (exists f md,
     frames' = (frames ++ [f])%list /\ metas' = (metas ++ [md])%list /\
     produced latents zs ps splits i f md /\
     (skip_blank_generations self = true -> is_blank f = Ret false) /\
     rejections st' = rejections st).
Proof.
  unfold run_frames_body. intros E.
  apply bind_ret_inv in E as ([f ml] & st_r & Er & E).
  pose proof (preserves_ret_inv _ _ _ _ _ (rejections_render _ _ _ _ _) Er) as Rr.
  apply bind_ret_inv in E as (blank & st_b & Eb & E).
  assert (Hb : st_b = st_r /\
               (skip_blank_generations self = true -> is_blank f = Ret blank) /\
               (skip_blank_generations self = false -> blank = false)).
  { destruct (skip_blank_generations self).
    - apply lift_ret_inv in Eb as [Eb ->].
      split; [reflexivity | split; [auto | discriminate]].
    - cbv [ret] in Eb. inversion Eb; subst.
      split; [reflexivity | split; [discriminate | auto]]. }
  destruct Hb as (-> & Hb1 & Hb2).
  destruct blank.
  - left.
    apply bind_ret_inv in E as (u & st_e & Ee & E).
    cbv [ret] in E. inversion E; subst.
    cbv [emit] in Ee. inversion Ee; subst.
    repeat split.
    + destruct (skip_blank_generations self); [reflexivity|].
      specialize (Hb2 eq_refl). discriminate.
    + unfold rejections in *. simpl. rewrite skipped_app. simpl. lia.
  - right.
    apply bind_ret_inv in E as (st_g & st_g' & Eg & E).
    cbv [get] in Eg. inversion Eg; subst st_g st_g'.
    apply bind_ret_inv in E as (md & st_m & Em & E).
    apply lift_ret_inv in Em as [Em ->].
    apply bind_ret_inv in E as (u & st_w & Ew & E).
    cbv [ret] in E. inversion E; subst.
    exists f, md. repeat split.
    + destruct (self_model st_r) as [m|] eqn:Hm; [|discriminate Em].
      exists st, ml, st_r, m. repeat split; assumption.
    + exact Hb1.
    + rewrite <- Rr. revert Ew. apply preserves_ret_inv.
      pose proof rejections_write_image. keeps.
Qed.

Lemma sorted_snoc (l : list nat) i :
  StronglySorted lt l -> Forall (fun j => j < i) l -> StronglySorted lt (l ++ [i]).
Proof.
  induction 1 as [|a l Hs IH Ha]; intros Hl; simpl.
  - repeat constructor.
  - inversion Hl; subst. constructor; [auto|].
    apply Forall_app. split; [exact Ha | repeat constructor; assumption].
Qed.

Lemma run_frames_loop self latents zs ps splits autosave randID len :
  forall start frames metas st frames' metas' st' kept,
  for_each (run_frames_body self latents zs ps splits autosave randID)
           (seq start len) (frames, metas) st = (Ret (frames', metas'), st') ->
  Forall3 (fun i f md =>
             produced latents zs ps splits i f md /\
             (skip_blank_generations self = true -> is_blank f = Ret false))
          kept frames metas ->
  Forall (fun j => j < start) kept ->
  StronglySorted lt kept ->
  exists kept',
    Forall3 (fun i f md =>
               produced latents zs ps splits i f md /\
               (skip_blank_generations self = true -> is_blank f = Ret false))
            kept' frames' metas' /\
    Forall (fun j => j < start + len) kept' /\
    StronglySorted lt kept' /\
    length frames' + rejections st' = length frames + rejections st + len /\
    (skip_blank_generations self = false -> length frames' = length frames + len).
Proof.
  induction len as [|len IH]; intros start frames metas st frames' metas' st' kept
                                     E HQ Hlt Hs; simpl in E.
  - cbv [ret] in E. inversion E; subst. exists kept.
    split; [assumption|]. split; [|split; [assumption|split; [lia|intros; lia]]].
    eapply Forall_impl; [exact Hlt | simpl; intros; lia].
  - apply bind_ret_inv in E as ([frames1 metas1] & st1 & Eb & E).
    apply run_frames_body_inv in Eb
      as [(Hsk & -> & -> & Hr) | (f & md & -> & -> & Hp & Hb & Hr)].
    + destruct (IH (S start) frames metas st1 frames' metas' st' kept E HQ)
        as (kept' & HQ' & Hlt' & Hs' & Hn & _); try assumption.
      { eapply Forall_impl; [exact Hlt | simpl; intros; lia]. }
      exists kept'.
      split; [assumption|]. split; [|split; [assumption|split; [lia|]]].
      * eapply Forall_impl; [exact Hlt' | simpl; intros; lia].
      * intros Hno. rewrite Hsk in Hno. discriminate Hno.
    + destruct (IH (S start) (frames ++ [f])%list (metas ++ [md])%list st1
                   frames' metas' st' (kept ++ [start])%list E)
        as (kept' & HQ' & Hlt' & Hs' & Hn & Hall).
      { apply Forall3_app; [exact HQ|]. repeat constructor; assumption. }
      { apply Forall_app. split.
        - eapply Forall_impl; [exact Hlt | simpl; intros; lia].
        - repeat constructor. }
      { apply sorted_snoc; assumption. }
      exists kept'. rewrite length_app in Hn, Hall. simpl in Hn, Hall.
      split; [assumption|]. split; [|split; [assumption|split; [lia|]]].
      * eapply Forall_impl; [exact Hlt' | simpl; intros; lia].
      * intros Hno. specialize (Hall Hno). lia.
Qed.

Lemma is_blank_false_span f :
  is_blank f = Ret false -> exists d, span f = Ret d /\ (15 <= d)%Z.
Proof.
  unfold is_blank. intros E. apply pbind_ret_inv in E as (d & Hd & E).
  inversion E. exists d. split; [exact Hd | lia].
Qed.

(** C5, as amended. Whenever [run_frames] returns: the two lists have
    the same length; their entries at one index come from one and the same
    iteration, in increasing order of the iterations; with blank-frame
    rejection enabled every returned frame has a span of at least 15; every
    rejection is logged and uses up its iteration, so that the number of
    returned frames and the number of rejections add up to [num_samples];
    with rejection disabled all [num_samples] frames are returned. *)
Theorem run_frames_rejects_blank self latents num_samples zs ps splits autosave
    st frames metas st' :
  run_frames self latents num_samples zs ps splits autosave st
    = (Ret (frames, metas), st') ->
  length frames = length metas /\
  (exists kept : list nat,
     StronglySorted lt kept /\
     Forall3 (fun i f md =>
                i < num_samples /\
                produced latents zs ps splits i f md /\
                (skip_blank_generations self = true ->
                 exists d, span f = Ret d /\ (15 <= d)%Z))
             kept frames metas) /\
  length frames + rejections st' = num_samples + rejections st /\
  (skip_blank_generations self = false -> length frames = num_samples).
Proof.
  intros E. unfold run_frames in E.
  apply bind_ret_inv in E as (st0 & st0' & Eg & E).
  cbv [get] in Eg. inversion Eg; subst st0 st0'.
  apply bind_ret_inv in E as (u & st1 & Ea & E).
  apply assert_ret_inv in Ea as [_ ->].
  apply bind_ret_inv in E as (randID & st2 & Er & E).
  pose proof (preserves_ret_inv _ _ _ _ _ (rejections_call_torch _) Er) as R2.
  apply bind_ret_inv in E as (u' & st3 & Ee & E).
  assert (R3 : rejections st3 = rejections st2).
  { revert Ee. apply preserves_ret_inv. apply rejections_emit_other. discriminate. }
  destruct (run_frames_loop _ _ _ _ _ _ _ _ _ _ _ _ _ _ _ [] E
              (Forall3_nil _) (List.Forall_nil _) (SSorted_nil _))
    as (kept & HQ & Hlt & Hs & Hn & Hall).
  split; [|split; [|split]].
  - pose proof (Forall3_length_lm _ _ _ _ HQ).
    pose proof (Forall3_length_lr _ _ _ _ HQ). lia.
  - exists kept. split; [exact Hs|].
    clear - HQ Hlt. revert Hlt.
    induction HQ as [|i f md l k k' [Hp Hb] HQ IH]; intros Hlt.
    + constructor.
    + inversion Hlt; subst. constructor; [|auto].
      split; [simpl in *; lia|]. split; [exact Hp|].
      intros Hskip. apply is_blank_false_span. auto.
  - simpl in Hn. lia.
  - intros Hno. specialize (Hall Hno). simpl in Hall. exact Hall.
Qed.

End RunFrames.

(** ** reinit_model_from_metadata and regen_frames *)

Section RegenFacts.
Context `{Externals}.

Lemma for_each_invariant {A S} (P : S -> Prop) (body : A -> S -> M S) l :
  (forall a s st s' st', P s -> body a s st = (Ret s', st') -> P s') ->
  forall s st s' st', P s -> for_each body l s st = (Ret s', st') -> P s'.
Proof.
  intros Hb. induction l as [|a r IH]; intros s st s' st' Hs E; simpl in E.
  - cbv [ret] in E. inversion E; subst. exact Hs.
  - apply bind_ret_inv in E as (s1 & st1 & E1 & E).
    eapply IH; [|exact E]. eapply Hb; eassumption.
Qed.

Lemma regen_body_no_frames reinit self shape n splits zs ps sv path fr st fr' st' :
  no_frames fr ->
  regen_body reinit self shape n splits zs ps sv path fr st = (Ret fr', st') ->
  no_frames fr'.
Proof.
  unfold regen_body. intros Hfr E.
  apply bind_ret_inv in E as (s0 & s1 & Eg & E).
  destruct (exists_ (fs s0) _).
  - apply bind_ret_inv in E as (u & s2 & _ & E).
    cbv [ret] in E. inversion E; subst. exact Hfr.
  - apply bind_ret_inv in E as (u & s2 & _ & E).
    apply bind_ret_inv in E as (latent & s3 & _ & E).
    apply bind_ret_inv in E as ([frames metadata] & s4 & _ & E).
    destruct (length frames =? 0)%nat eqn:Hlen.
    + apply bind_ret_inv in E as (u' & s5 & _ & E).
      cbv [ret] in E. inversion E; subst.
      apply Nat.eqb_eq in Hlen. destruct frames; [exact I | discriminate Hlen].
    + apply bind_ret_inv in E as (shape0 & s5 & _ & E).
      apply bind_ret_inv in E as (u1 & s6 & _ & E).
      apply bind_ret_inv in E as (u2 & s7 & _ & E).
      apply bind_ret_inv in E as (u3 & s8 & _ & E).
      cbv [ret] in E. inversion E; subst. exact I.
Qed.

(** A file whose marker exists is skipped: nothing is decoded, rebuilt or
    written, the only effect is the log entry. *)
Lemma regen_body_skips_existing reinit self shape n splits zs ps sv path fr st :
  exists_ (fs st) (reproduce_marker (output_dir self) path) = true ->
  regen_body reinit self shape n splits zs ps sv path fr st =
    (Ret fr,
     mkState (fs st)
             (events st ++ [LogFoundExisting (reproduce_save_fn (output_dir self) path)])
             (torch st) (self_model st) (recon_calls st)).
Proof.
  intros Hm. unfold regen_body, reproduce_marker in *.
  cbv [bind get]. rewrite Hm. reflexivity.
Qed.

(** Whatever the files, the collaborators and the method
    [reinit_model_from_metadata] bound to [self] do, [regen_frames] never
    returns a non-empty list of frames: a file processed to the end of the
    loop body leaves the local [frames] set to [None]. *)
Lemma regen_frames_returns_no_frames
    (reinit : Runner -> list Z -> string -> option (gmap string pyval) -> M pyval)
    self path shape n splits zs ps sv st :
  match fst (regen_frames_with reinit self path shape n splits zs ps sv st) with
  | Ret (Some (_ :: _)) => False
  | _ => True
  end.
Proof.
  destruct (regen_frames_with reinit self path shape n splits zs ps sv st)
    as [[v|e] st'] eqn:E; simpl; [|exact I].
  unfold regen_frames_with in E.
  apply bind_ret_inv in E as (s0 & s1 & Eg & E).
  apply bind_ret_inv in E as (u & s2 & _ & E).
  destruct (if isdir (fs s0) path then Bound (glob_tif (fs s0) path)
            else if isfile (fs s0) path then Bound [path] else Unbound)
    as [|paths]; [discriminate E|].
  apply bind_ret_inv in E as (fr & s3 & El & E).
  assert (Hfr : no_frames fr).
  { eapply for_each_invariant with (P := no_frames) (s := Unbound);
      [|exact I|exact El].
    intros a s st0 s' st0'. apply regen_body_no_frames. }
  destruct fr as [|w]; [discriminate E|].
  cbv [ret] in E. inversion E; subst. exact Hfr.
Qed.

Lemma fs_optional_keys data conv keys md :
  preserves fs (optional_keys data conv keys md).
Proof.
  revert md. induction keys as [|k r IH]; intros md; simpl.
  - keeps.
  - destruct (data !! k).
    + apply preserves_bind; [keeps | intros c; apply IH].
    + apply preserves_bind; [keeps | intros _; apply IH].
Qed.

Lemma fs_load_tif_metadata path : preserves fs (load_tif_metadata path).
Proof.
  unfold load_tif_metadata, extract_metadata, latents_key.
  pose proof fs_optional_keys. keeps.
Qed.

Lemma fs_reinit_model_from_metadata self shape path metadata :
  preserves fs (reinit_model_from_metadata self shape path metadata).
Proof.
  unfold reinit_model_from_metadata.
  pose proof fs_load_tif_metadata. keeps.
Qed.

Lemma load_tif_metadata_pair path st oi md st' :
  load_tif_metadata path st = (Ret (oi, Some md), st') ->
  exists img, oi = Some img.
Proof.
  unfold load_tif_metadata. intros E.
  cbv [bind get assert] in E.
  destruct (isfile (fs st) path); [|discriminate E].
  cbv [ret] in E.
  destruct (read_tiff (fs st) path) as [[img0 data]|e].
  - destruct (extract_metadata data st) as [[md0|e] s3]; inversion E; subst.
    exists img0. reflexivity.
  - cbv [emit] in E. inversion E.
Qed.

(** The dictionary that [load_tif_metadata] builds has no key [latent]
    (line 246 stores the legacy value under [latents]), and line 158 reads
    [metadata['latent']]: the method never returns. *)
Lemma reinit_never_returns self shape path st v st' :
  reinit_model_from_metadata self shape path None st <> (Ret v, st').
Proof.
  unfold reinit_model_from_metadata. intros E.
  apply bind_ret_inv in E as (metadata & s1 & El & E).
  apply bind_ret_inv in El as ([oi om] & s0 & El & Er).
  cbv [ret] in Er. inversion Er; subst; clear Er. simpl in E.
  apply bind_ret_inv in E as (u & s2 & _ & E).
  apply bind_ret_inv in E as (ld & s3 & E1 & E).
  apply lift_ret_inv in E1 as [E1 _].
  destruct metadata as [md|]; [|discriminate E1].
  destruct (load_tif_metadata_pair _ _ _ _ _ El) as (img & ->).
  destruct (load_tif_metadata_inv _ _ _ _ _ El) as (data & _ & Hx).
  destruct (extract_metadata_defaults _ _ _ _ Hx) as (_ & _ & _ & _ & _ & _ & Hl).
  repeat (apply bind_ret_inv in E as (? & ? & _ & E)).
  apply lift_ret_inv in E as [E _].
  simpl in E. unfold subscript in E. rewrite Hl in E. discriminate E.
Qed.

Lemma preserves_bind_never {X A B} (obs : State -> X) (c : M A) (k : A -> M B) :
  preserves obs c -> (forall st a st', c st <> (Ret a, st')) ->
  preserves obs (bind c k).
Proof.
  intros Hc Hn st. unfold bind. specialize (Hc st). specialize (Hn st).
  destruct (c st) as [[a|e] st1]; simpl in *.
  - exfalso. eapply Hn. reflexivity.
  - exact Hc.
Qed.

Lemma fs_regen_body self shape n splits zs ps sv path fr :
  preserves fs (regen_body reinit_model_from_metadata self shape n splits
                           zs ps sv path fr).
Proof.
  unfold regen_body.
  apply preserves_bind; [keeps | intros s0].
  destruct (exists_ (fs s0) _); [keeps|].
  apply preserves_bind; [keeps | intros _].
  apply preserves_bind_never.
  - apply fs_reinit_model_from_metadata.
  - intros st a st'. apply reinit_never_returns.
Qed.

Lemma regen_body_keeps_frames self shape n splits zs ps sv path fr st fr' st' :
  regen_body reinit_model_from_metadata self shape n splits zs ps sv path fr st
    = (Ret fr', st') ->
  fr' = fr.
Proof.
  unfold regen_body. intros E.
  apply bind_ret_inv in E as (s0 & s1 & Eg & E).
  destruct (exists_ (fs s0) _).
  - apply bind_ret_inv in E as (u & s2 & _ & E).
    cbv [ret] in E. inversion E; subst. reflexivity.
  - apply bind_ret_inv in E as (u & s2 & _ & E).
    apply bind_ret_inv in E as (latent & s3 & Er & E).
    exfalso. exact (reinit_never_returns _ _ _ _ _ _ Er).
Qed.

(** No call of [regen_frames] returns, and none changes the file system:
    a file that is not skipped stops the call in
    [reinit_model_from_metadata], before any frame is generated or written,
    and when every file is skipped the local [frames] is unbound at the
    [return]. *)
Lemma regen_frames_raises self path shape n splits zs ps sv st :
  exists e, fst (regen_frames self path shape n splits zs ps sv st) = Raise e /\
            fs (snd (regen_frames self path shape n splits zs ps sv st)) = fs st.
Proof.
  assert (Hfs : preserves fs (regen_frames self path shape n splits zs ps sv)).
  { unfold regen_frames, regen_frames_with.
    apply preserves_bind; [keeps | intros s0].
    apply preserves_bind; [keeps | intros _].
    destruct (if isdir (fs s0) path then Bound (glob_tif (fs s0) path)
              else if isfile (fs s0) path then Bound [path] else Unbound);
      [keeps|].
    apply preserves_bind; [|intros fr; keeps].
    apply preserves_for_each. intros p fr. apply fs_regen_body. }
  destruct (regen_frames self path shape n splits zs ps sv st)
    as [[v|e] st'] eqn:E.
  - exfalso. unfold regen_frames, regen_frames_with in E.
    apply bind_ret_inv in E as (s0 & s1 & Eg & E).
    apply bind_ret_inv in E as (u & s2 & _ & E).
    destruct (if isdir (fs s0) path then Bound (glob_tif (fs s0) path)
              else if isfile (fs s0) path then Bound [path] else Unbound)
      as [|paths]; [discriminate E|].
    apply bind_ret_inv in E as (fr & s3 & El & E).
    assert (Hfr : fr = Unbound).
    { eapply for_each_invariant
        with (P := fun fr : local (option (list Frame)) => fr = Unbound)
             (s := Unbound);
        [|reflexivity|exact El].
      intros a s st0 s' st0' -> Hb.
      exact (regen_body_keeps_frames _ _ _ _ _ _ _ _ _ _ _ _ Hb). }
    subst fr. discriminate E.
  - exists e. split; [reflexivity|].
    specialize (Hfs st). rewrite E in Hfs. exact Hfs.
Qed.

End RegenFacts.

(** ** The scenarios *)

Module ScenarioFacts.
Import Ref Scenario.
Open Scope Z_scope.

Example decoded_identity_example :
  match fst (load_tif_metadata "in/a.tif" archive) with
  | Ret (Some _, Some md) =>
      md !! "seed" = Some (PInt 42) /\ md !! "z_dim" = Some (PInt 64) /\
      md !! "input_encoding_dim" = Some (PInt 1) /\
      md !! "mlp_layer_width" = Some PNone /\ md !! "latents" = Some PNone
  | _ => False
  end.
Proof. vm_compute. repeat split; reflexivity. Qed.

(** Past the [try] block nothing is caught: a block without the identity
    field [seed] raises KeyError. *)
Example load_tif_metadata_without_seed :
  fst (load_tif_metadata "legacy/anonymous.tif" archive) = Raise (KeyError "seed").
Proof. vm_compute. reflexivity. Qed.

Lemma load_tif_metadata_legacy_defaults_witness :
  decoded_legacy_metadata !! "z_dim" = Some (PInt 64) /\
  decoded_legacy_metadata !! "latents" = Some (PTensor [mkRatio 1 1; mkRatio 2 1]) /\
  decoded_legacy_metadata !! "input_encoding_dim" = Some (PInt 1) /\
  decoded_legacy_metadata !! "activations" = Some (PStr "fixed").
Proof.
  assert (E : load_tif_metadata "legacy/old.tif" archive
              = (Ret (Some img, Some decoded_legacy_metadata), snd decoded_legacy))
    by (vm_compute; reflexivity).
  destruct (load_tif_metadata_legacy_defaults _ _ _ _ _ E)
    as (data & Hr & (zx & Hx & Hz) & _ & Hl & _ & Hi & _ & Ha & _).
  assert (Hr' : read_tiff (fs archive) "legacy/old.tif" = Ret (img, legacy_data))
    by reflexivity.
  rewrite Hr' in Hr. inversion Hr; subst data; clear Hr Hr'.
  split; [|split; [|split]].
  - rewrite (Hz eq_refl), <- Hx. vm_compute. reflexivity.
  - destruct (Hl (PList [PInt 1; PInt 2]) eq_refl eq_refl) as (t & Ht & ->).
    vm_compute in Ht. congruence.
  - exact (Hi eq_refl).
  - exact (Ha eq_refl).
Defined.

Lemma load_tif_metadata_soft_failure_witness :
  load_tif_metadata "legacy/broken.tif" archive =
    (Ret (None, None),
     mkState (fs archive) [Warn (CouldNotLoad "legacy/broken.tif")] 0%nat None 0) /\
  fst (load_tif_metadata "legacy/bare.tif" archive) = Ret (None, None).
Proof.
  split.
  - apply (load_tif_metadata_soft_failure "legacy/broken.tif" archive
             (ExternalError "TiffFileError")); reflexivity.
  - rewrite (load_tif_metadata_soft_failure "legacy/bare.tif" archive TypeError);
      reflexivity.
Defined.

(** C2 as stated fails for a path that names no file: nothing can be
    opened there, and the call raises AssertionError instead of returning
    [(None, None)]. *)
Lemma load_tif_metadata_missing_file_raises :
  exists_ (fs archive) "in/missing.tif" = false /\
  load_tif_metadata "in/missing.tif" archive = (Raise AssertionError, archive) /\
  fst (load_tif_metadata "in/missing.tif" archive) <> Ret (None, None).
Proof.
  split; [reflexivity|]. split; [reflexivity|].
  vm_compute. discriminate.
Qed.

(** C3, evaluated on the code: a directory with one well-formed archival
    file and an empty output directory. The first run rebuilds the model
    and then raises KeyError at [metadata['latent']]; it writes nothing, so
    the second run finds no existing output, decodes the file and rebuilds
    the model again. *)
Theorem regen_frames_second_run_reconstructs :
  glob_tif (fs archive) "in" = ["in/a.tif"] /\
  fst first_run = Raise (KeyError "latent") /\
  recon_calls (snd first_run) = 1%nat /\
  fs (snd first_run) = fs archive /\
  exists_ (fs (snd first_run)) (reproduce_marker "out" "in/a.tif") = false /\
  fst second_run = Raise (KeyError "latent") /\
  recon_calls (snd second_run) = 2%nat.
Proof. vm_compute. repeat split; reflexivity. Qed.

Lemma run_frames_rejects_blank_witness :
  three_frames = [mkFrame [1; 1; 3]%nat [0; 100; 255]] /\
  length three_frames = length three_metadata /\
  (length three_frames + rejections (snd three_samples) = 3 + 0)%nat.
Proof.
  assert (E : run_frames self PNone 3 None None 1 false
                (with_script [blank_values; good_values; blank_values])
              = (Ret (three_frames, three_metadata), snd three_samples))
    by (vm_compute; reflexivity).
  destruct (run_frames_rejects_blank self PNone 3 None None 1 false _ _ _ _ E)
    as (Hlen & _ & Hn & _).
  split; [vm_compute; reflexivity|]. split; [exact Hlen | exact Hn].
Defined.

(** C5 as stated fails: one sample is requested, the frame generated for it
    has pixels 200 to 205 and is rejected, and the call returns no frame;
    the rejected frame has used up the one sample asked for, and the script
    of the model shows that nothing else was generated. *)
Lemma run_frames_rejection_counts_toward_num_samples :
  fst one_sample = Ret ([], []) /\
  events (snd one_sample) = [LogGenerating 1 1; LogSkippingBlank] /\
  option_map script (self_model (snd one_sample)) = Some [].
Proof. vm_compute. repeat split; reflexivity. Qed.

(** C10, the code at the failing input. On a directory without archival
    files the loop body never runs, so the local [frames], first assigned
    inside the loop, is unbound at [return frames] (line 222): the call
    raises UnboundLocalError where the claim, the path through a processed
    file (line 221) and the docstring (lines 183-184) have it return. *)
Lemma regen_frames_unbound_frames :
  glob_tif (fs archive) "empty" = [] /\
  regen_frames self "empty" [8; 8; 3] 1 1 None None false archive
    = (Raise (UnboundLocalError "frames"), archive).
Proof. vm_compute. split; reflexivity. Qed.

(** With a method that succeeds, the loop of [regen_frames] runs to its
    end: it writes the surviving frames and returns [None]; a file whose
    frames are all rejected leaves the empty list instead. *)
Example regen_frames_with_stub_returns_none :
  let r := regen_frames_with (reinit_stub [good_values]) self "in" [1; 1; 3]
                             1 1 None None false archive in
  fst r = Ret None /\
  map fst (fs (snd r)) =
    (map fst (fs archive) ++ ["out/a_reproduce_0.png"; "out/a_reproduce_0.tif"])%list /\
  exists_ (fs (snd r)) (reproduce_marker "out" "in/a.tif") = false.
Proof. vm_compute. repeat split; reflexivity. Qed.

Example regen_frames_with_stub_returns_empty :
  fst (regen_frames_with (reinit_stub [blank_values]) self "in" [1; 1; 3]
                         1 1 None None false archive) = Ret (Some []).
Proof. vm_compute. reflexivity. Qed.

End ScenarioFacts.

(** ** The interpolation schemes *)

Module InterpFacts.
Import Interp.
Open Scope R_scope.

Lemma length_fin v : length (fin v) = length v.
Proof. apply length_map. Qed.

Lemma fin_inj a b : fin a = fin b -> a = b.
Proof.
  revert b. induction a as [|x a IH]; intros [|y b] E; simpl in E;
    try discriminate; [reflexivity|].
  inversion E. f_equal. auto.
Qed.

Lemma zip_with_fin (g : R -> R -> R) a b :
  zip_with (xlift2 g) (fin a) (fin b) = fin (zip_with g a b).
Proof.
  revert b. induction a as [|x a IH]; intros [|y b]; simpl; try reflexivity.
  rewrite IH. reflexivity.
Qed.

Lemma tbin_fin (g : R -> R -> R) a b :
  length a = length b ->
  tbin (xlift2 g) (fin a) (fin b) = Ret (fin (zip_with g a b)).
Proof.
  intros Hl. unfold tbin. rewrite !length_fin, Hl, Nat.eqb_refl.
  rewrite zip_with_fin. reflexivity.
Qed.

Lemma xdiv_some x y : y <> 0 -> xdiv (Some x) (Some y) = Some (x / y).
Proof. intros Hy. unfold xdiv. destruct (Req_dec_T y 0); [contradiction | reflexivity]. Qed.

Lemma xdiv_zero a : xdiv a (Some 0) = None.
Proof.
  unfold xdiv. destruct a; [|reflexivity].
  destruct (Req_dec_T 0 0); [reflexivity | contradiction].
Qed.

Lemma map_fin (f : xR -> xR) (g : R -> R) v :
  (forall x, f (Some x) = Some (g x)) -> map f (fin v) = fin (map g v).
Proof.
  intros Hf. unfold fin. rewrite !map_map. apply map_ext. exact Hf.
Qed.

Lemma collect_map {A B} (f : A -> PyResult B) (g : A -> B) l :
  (forall a, In a l -> f a = Ret (g a)) -> collect f l = Ret (map g l).
Proof.
  induction l as [|a r IH]; intros Hf; simpl; [reflexivity|].
  rewrite Hf by (left; reflexivity). simpl.
  rewrite IH by (intros; apply Hf; right; assumption). reflexivity.
Qed.

Lemma collect_length {A B} (f : A -> PyResult B) l r :
  collect f l = Ret r -> length r = length l.
Proof.
  revert r. induction l as [|a l IH]; intros r E; simpl in E.
  - inversion E. reflexivity.
  - apply pbind_ret_inv in E as (b & _ & E).
    apply pbind_ret_inv in E as (bs & Hbs & E).
    inversion E. simpl. rewrite (IH _ Hbs). reflexivity.
Qed.

Lemma collect_Forall {A B} (P : B -> Prop) (f : A -> PyResult B) l r :
  (forall a b, f a = Ret b -> P b) -> collect f l = Ret r -> Forall P r.
Proof.
  intros Hf. revert r. induction l as [|a l IH]; intros r E; simpl in E.
  - inversion E. constructor.
  - apply pbind_ret_inv in E as (b & Hb & E).
    apply pbind_ret_inv in E as (bs & Hbs & E).
    inversion E. constructor; [eapply Hf; exact Hb | auto].
Qed.

Lemma zip_with_pointwise (f g : R -> R -> R) a b :
  (forall x y, f x y = g x y) -> zip_with f a b = zip_with g a b.
Proof.
  intros Hfg. revert b. induction a as [|x a IH]; intros [|y b]; simpl;
    try reflexivity.
  rewrite Hfg, IH. reflexivity.
Qed.

Lemma zip_with_fst_same (a b : list R) :
  length a = length b -> zip_with (fun x _ => x) a b = a.
Proof.
  revert b. induction a as [|x a IH]; intros [|y b] Hl; simpl in *;
    try discriminate; [reflexivity|].
  rewrite IH by lia. reflexivity.
Qed.

Lemma zip_with_snd_same (a b : list R) :
  length a = length b -> zip_with (fun _ y => y) a b = b.
Proof.
  revert b. induction a as [|x a IH]; intros [|y b] Hl; simpl in *;
    try discriminate; [reflexivity|].
  rewrite IH by lia. reflexivity.
Qed.

Lemma INR_succ_neq_0 n : INR (n + 1) <> 0.
Proof. apply not_0_INR. lia. Qed.

Lemma lerp_closed_form v1 v2 s1 s2 n :
  length v1 = length v2 ->
  lerp (mkLatent (fin v1) s1) (mkLatent (fin v2) s2) n =
    Ret (map (fun i => mkLatent (fin (lerp_point v1 v2 n i)) s1) (seq 0 (n + 2))).
Proof.
  intros Hl. unfold lerp. cbn [sample sample_shape].
  change xsub with (xlift2 Rminus).
  rewrite tbin_fin by congruence. cbn [pbind].
  rewrite (map_fin _ (fun x => x / INR (n + 1)))
    by (intros x; apply xdiv_some, INR_succ_neq_0).
  apply collect_map. intros i _.
  rewrite (map_fin _ (fun x => x * INR i)) by reflexivity.
  change xadd with (xlift2 Rplus).
  rewrite tbin_fin.
  - cbn [pbind]. do 3 f_equal. unfold lerp_point.
    clear s1 s2. revert v2 Hl.
    induction v1 as [|a v1 IH]; intros [|b v2] Hl; simpl in *;
      try discriminate; [reflexivity|].
    rewrite IH by lia. reflexivity.
  - rewrite !length_map, length_zip_with. lia.
Qed.

Lemma nth_error_map_seq {B} (g : nat -> B) m i :
  (i < m)%nat -> nth_error (map g (seq 0 m)) i = Some (g i).
Proof.
  intros Hi. rewrite nth_error_map, nth_error_seq.
  destruct (Nat.ltb_spec i m); [reflexivity | lia].
Qed.

Lemma lerp_point_first v1 v2 n :
  length v1 = length v2 -> lerp_point v1 v2 n 0 = v1.
Proof.
  intros Hl. unfold lerp_point.
  rewrite (zip_with_pointwise _ (fun x _ => x)).
  - apply zip_with_fst_same, Hl.
  - intros x y. simpl. lra.
Qed.

Lemma lerp_point_last v1 v2 n :
  length v1 = length v2 -> lerp_point v1 v2 n (n + 1) = v2.
Proof.
  intros Hl. unfold lerp_point.
  rewrite (zip_with_pointwise _ (fun _ y => y)).
  - apply zip_with_snd_same, Hl.
  - intros x y. pose proof (INR_succ_neq_0 n). field. assumption.
Qed.

Lemma lerp_point_step v1 v2 n i :
  zip_with Rminus (lerp_point v1 v2 n (S i)) (lerp_point v1 v2 n i) =
  zip_with (fun a b => (b - a) / INR (n + 1)) v1 v2.
Proof.
  unfold lerp_point. revert v2.
  induction v1 as [|a v1 IH]; intros [|b v2]; cbn [zip_with]; try reflexivity.
  rewrite IH. f_equal.
  pose proof (INR_succ_neq_0 n).
  rewrite S_INR. field. assumption.
Qed.

(** C6. For two latent states with finite entries and the same shape and
    every count [n], [lerp] returns [n + 2] states; the first sample is that
    of [z1], the last that of [z2], and the samples of two consecutive
    states differ by the step [(z2 - z1) / (n + 1)]. *)
Theorem lerp_endpoints_and_spacing v1 v2 s1 s2 n :
  length v1 = length v2 ->
  exists states,
    lerp (mkLatent (fin v1) s1) (mkLatent (fin v2) s2) n = Ret states /\
    length states = (n + 2)%nat /\
    option_map sample (nth_error states 0) = Some (fin v1) /\
    option_map sample (nth_error states (n + 1)) = Some (fin v2) /\
    forall i, (i <= n)%nat ->
      exists a b,
        option_map sample (nth_error states i) = Some (fin a) /\
        option_map sample (nth_error states (S i)) = Some (fin b) /\
        zip_with Rminus b a = zip_with (fun x y => (y - x) / INR (n + 1)) v1 v2.
Proof.
  intros Hl. eexists. split; [apply lerp_closed_form, Hl|].
  split; [rewrite length_map, length_seq; reflexivity|].
  split; [|split].
  - rewrite nth_error_map_seq by lia. simpl.
    rewrite lerp_point_first by exact Hl. reflexivity.
  - rewrite nth_error_map_seq by lia. simpl.
    rewrite lerp_point_last by exact Hl. reflexivity.
  - intros i Hi.
    exists (lerp_point v1 v2 n i), (lerp_point v1 v2 n (S i)).
    rewrite !nth_error_map_seq by lia. simpl.
    split; [reflexivity|]. split; [reflexivity|].
    apply lerp_point_step.
Qed.

Lemma lerp_endpoints_and_spacing_witness :
  exists states,
    lerp (mkLatent (fin [0; 1]) [1; 2]%nat) (mkLatent (fin [3; 7]) [1; 2]%nat) 2
      = Ret states /\
    length states = 4%nat /\
    option_map sample (nth_error states 3) = Some (fin [3; 7]).
Proof.
  destruct (lerp_endpoints_and_spacing [0; 1] [3; 7] [1; 2]%nat [1; 2]%nat 2 eq_refl)
    as (states & E & Hlen & _ & Hlast & _).
  exists states. split; [exact E|]. split; [exact Hlen | exact Hlast].
Defined.

(** *** Vectors of reals *)

Lemma xsum_fin v : xsum (fin v) = Some (rsum v).
Proof.
  induction v as [|x v IH]; [reflexivity|].
  change (xsum (fin (x :: v))) with (xadd (Some x) (xsum (fin v))).
  rewrite IH. reflexivity.
Qed.

Lemma xsum_some l s : xsum l = Some s -> exists v, l = fin v.
Proof.
  revert s. induction l as [|a l IH]; intros s E.
  - exists []. reflexivity.
  - change (xsum (a :: l)) with (xadd a (xsum l)) in E.
    unfold xadd, xlift2 in E.
    destruct a as [x|]; [|discriminate E].
    destruct (xsum l) as [t|] eqn:Et; [|discriminate E].
    destruct (IH _ eq_refl) as (v & ->). exists (x :: v). reflexivity.
Qed.

Lemma zip_with_xmul_fin a b v :
  length a = length b -> zip_with xmul a b = fin v ->
  exists va vb, a = fin va /\ b = fin vb.
Proof.
  revert b v. induction a as [|x a IH]; intros [|y b] v Hl E; simpl in *;
    try discriminate.
  - exists [], []. split; reflexivity.
  - destruct v as [|z v]; [discriminate E|]. inversion E as [[Ez Ev]].
    unfold xmul, xlift2 in Ez.
    destruct x as [x|]; [|discriminate Ez].
    destruct y as [y|]; [|discriminate Ez].
    destruct (IH b v) as (va & vb & -> & ->); [lia | exact Ev |].
    exists (x :: va), (y :: vb). split; reflexivity.
Qed.

Lemma zip_with_diag (f : R -> R -> R) v : zip_with f v v = map (fun x => f x x) v.
Proof. induction v as [|x v IH]; simpl; [|rewrite IH]; reflexivity. Qed.

Lemma norm2_fin v : norm2 (fin v) = Some (rnorm v).
Proof.
  unfold norm2. rewrite (map_fin _ (fun x => x * x)) by reflexivity.
  rewrite xsum_fin. simpl. unfold rnorm, dot. rewrite zip_with_diag. reflexivity.
Qed.

Lemma normalized_fin v : rnorm v <> 0 -> normalized (fin v) = fin (unit_vec v).
Proof.
  intros Hn. unfold normalized. rewrite norm2_fin.
  apply map_fin. intros x. apply xdiv_some, Hn.
Qed.

Lemma map_xdiv_fin (l : list xR) d u :
  map (fun x => xdiv x d) l = fin u ->
  l = [] \/ exists v y, l = fin v /\ d = Some y /\ y <> 0.
Proof.
  destruct l as [|a l]; [left; reflexivity|]. intros E. right.
  assert (Hd : exists y, d = Some y /\ y <> 0).
  { destruct u as [|z u]; [discriminate E|]. simpl in E. inversion E as [[Ez _]].
    unfold xdiv in Ez. destruct a as [x|]; [|discriminate Ez].
    destruct d as [y|]; [|discriminate Ez].
    destruct (Req_dec_T y 0); [discriminate Ez|]. exists y. split; [reflexivity | assumption]. }
  destruct Hd as (y & -> & Hy).
  assert (Hv : exists v, a :: l = fin v).
  { clear - E. revert u E. generalize (a :: l). intros l0.
    induction l0 as [|b l0 IH]; intros u E.
    - exists []. reflexivity.
    - destruct u as [|z u]; [discriminate E|]. simpl in E.
      inversion E as [[Ez Eu]].
      destruct b as [x|]; [|discriminate Ez].
      destruct (IH _ Eu) as (v & ->). exists (x :: v). reflexivity. }
  destruct Hv as (v & Hv). exists v, y. repeat split; assumption.
Qed.

(** When the normalization of a tensor is finite, the tensor is finite
    and, unless it is empty, its norm is not zero. *)
Lemma normalized_finite a u :
  normalized a = fin u ->
  exists v, a = fin v /\ (v = [] \/ (rnorm v <> 0 /\ u = unit_vec v)).
Proof.
  intros E. unfold normalized in E.
  destruct (map_xdiv_fin _ _ _ E) as [-> | (v & y & Hv & Hy & Hy0)].
  - exists []. split; [reflexivity | left; reflexivity].
  - subst a. exists v. split; [reflexivity|]. right.
    rewrite norm2_fin in Hy. inversion Hy; subst y.
    split; [exact Hy0|].
    rewrite norm2_fin in E.
    rewrite (map_fin _ (fun x => x / rnorm v)) in E
      by (intros x; apply xdiv_some, Hy0).
    symmetry. apply fin_inj. exact E.
Qed.

Lemma dot_self_nonneg v : 0 <= dot v v.
Proof.
  unfold dot. induction v as [|x v IH]; simpl; [lra|].
  pose proof (Rle_0_sqr x) as Hx. unfold Rsqr in Hx. lra.
Qed.

Lemma rnorm_sq v : rnorm v * rnorm v = dot v v.
Proof. unfold rnorm. apply sqrt_sqrt, dot_self_nonneg. Qed.

Lemma dot_div (a b : list R) c :
  c <> 0 ->
  dot (map (fun x => x / c) a) (map (fun x => x / c) b) = dot a b / (c * c).
Proof.
  intros Hc. unfold dot. revert b.
  induction a as [|x a IH]; intros [|y b]; simpl; try (field; assumption).
  rewrite IH. field. assumption.
Qed.

Lemma dot_unit_vec v : rnorm v <> 0 -> dot (unit_vec v) (unit_vec v) = 1.
Proof.
  intros Hn. unfold unit_vec. rewrite dot_div by exact Hn.
  rewrite rnorm_sq. rewrite <- rnorm_sq. field. exact Hn.
Qed.

Lemma length_unit_vec v : length (unit_vec v) = length v.
Proof. apply length_map. Qed.

Lemma dot_lin a b c d (u v : list R) :
  length u = length v ->
  dot (lin a b u v) (lin c d u v) =
  a * c * dot u u + (a * d + b * c) * dot u v + b * d * dot v v.
Proof.
  unfold dot, lin. revert v.
  induction u as [|x u IH]; intros [|y v] Hl; simpl in *; try discriminate.
  - ring.
  - rewrite IH by lia. ring.
Qed.

Lemma length_lin a b u v : length (lin a b u v) = Nat.min (length u) (length v).
Proof. apply length_zip_with. Qed.

(** Cauchy-Schwarz for two unit vectors. *)
Lemma dot_unit_bound (u v : list R) :
  length u = length v -> dot u u = 1 -> dot v v = 1 -> -1 <= dot u v <= 1.
Proof.
  intros Hl Hu Hv.
  pose proof (dot_self_nonneg (lin 1 (-1) u v)) as Hm.
  pose proof (dot_self_nonneg (lin 1 1 u v)) as Hp.
  rewrite dot_lin in Hm, Hp by exact Hl.
  rewrite Hu, Hv in Hm, Hp. lra.
Qed.

Lemma dot_nil_l v : dot [] v = 0.
Proof. reflexivity. Qed.

(** *** slerp *)

Lemma removelast_map_seq {B} (f : nat -> B) n :
  removelast (map f (seq 0 (S n))) = map f (seq 0 n).
Proof. rewrite seq_S, map_app. simpl. apply removelast_last. Qed.

Lemma slerp_angles_eq n : slerp_angles n = map (angle_at n) (seq 0 n).
Proof.
  unfold slerp_angles, linspace. destruct n as [|m]; [reflexivity|].
  replace (S m + 1)%nat with (S (S m)) by lia.
  rewrite removelast_map_seq. apply map_ext. intros k.
  unfold angle_at. replace (S (S m) - 1)%nat with (S m) by lia.
  assert (INR (S m) <> 0) by (apply not_0_INR; lia).
  field. assumption.
Qed.

Lemma slerp_weights theta angle :
  theta <> 0 -> sin theta <> 0 ->
  slerp_alpha (Some theta) angle = Some (sin (theta - angle) / sin theta) /\
  slerp_beta (Some theta) angle = Some (sin angle / sin theta).
Proof.
  intros Ht Hs. unfold slerp_alpha, slerp_beta.
  rewrite (xdiv_some angle theta Ht). cbn [xsub xmul xlift2 xlift].
  rewrite !xdiv_some by exact Hs.
  split; do 3 f_equal; field; exact Ht.
Qed.

Lemma tscale_fin a u : tscale (Some a) (fin u) = fin (map (Rmult a) u).
Proof. unfold tscale. apply map_fin. reflexivity. Qed.

Lemma zip_with_scaled a b (u v : list R) :
  zip_with Rplus (map (Rmult a) u) (map (Rmult b) v) = lin a b u v.
Proof.
  unfold lin. revert v. induction u as [|x u IH]; intros [|y v]; simpl;
    try reflexivity.
  rewrite IH. reflexivity.
Qed.

Lemma length_normalized a : length (normalized a) = length a.
Proof. apply length_map. Qed.

Lemma slerp_theta_inv z1 z2 theta :
  length (sample z1) = length (sample z2) ->
  slerp_theta z1 z2 = Ret (Some theta) ->
  exists u1 u2,
    normalized (sample z1) = fin u1 /\ normalized (sample z2) = fin u2 /\
    length u1 = length u2 /\
    theta = acos (Rmin (Rmax (dot u1 u2) (-1)) 1).
Proof.
  intros Hl E. unfold slerp_theta, tbin in E.
  rewrite !length_normalized, Hl, Nat.eqb_refl in E. cbn [pbind] in E.
  inversion E as [Et]; clear E.
  destruct (xsum (zip_with xmul (normalized (sample z1)) (normalized (sample z2))))
    as [s|] eqn:Es; [|discriminate Et].
  destruct (xsum_some _ _ Es) as (v & Hv).
  assert (Hln : length (normalized (sample z1)) = length (normalized (sample z2)))
    by (rewrite !length_normalized; exact Hl).
  destruct (zip_with_xmul_fin _ _ _ Hln Hv) as (u1 & u2 & Hu1 & Hu2).
  exists u1, u2. split; [exact Hu1|]. split; [exact Hu2|].
  split.
  - rewrite <- (length_fin u1), <- (length_fin u2), <- Hu1, <- Hu2,
      !length_normalized. exact Hl.
  - rewrite Hu1, Hu2 in Es. change xmul with (xlift2 Rmult) in Es.
    rewrite zip_with_fin, xsum_fin in Es. inversion Es; subst s.
    cbn [xclamp xlift] in Et. inversion Et. reflexivity.
Qed.

Lemma slerp_theta_fin v1 v2 s1 s2 :
  length v1 = length v2 -> rnorm v1 <> 0 -> rnorm v2 <> 0 ->
  slerp_theta (mkLatent (fin v1) s1) (mkLatent (fin v2) s2) =
    Ret (Some (acos (Rmin (Rmax (dot (unit_vec v1) (unit_vec v2)) (-1)) 1))).
Proof.
  intros Hl H1 H2. unfold slerp_theta. cbn [sample].
  rewrite !normalized_fin by assumption.
  change xmul with (xlift2 Rmult).
  rewrite tbin_fin by (rewrite !length_unit_vec; exact Hl).
  cbn [pbind]. rewrite xsum_fin. reflexivity.
Qed.

(** Between 0 and pi the sine vanishes at the two ends only. *)
Lemma sin_acos_range_neq_0 theta :
  0 <= theta <= PI -> theta <> 0 -> theta <> PI -> sin theta <> 0.
Proof.
  intros [H0 H1] Hn0 Hnpi.
  assert (0 < sin theta) by (apply sin_gt_0; lra). lra.
Qed.

Lemma clamp_bound x : -1 <= Rmin (Rmax x (-1)) 1 <= 1.
Proof.
  unfold Rmin, Rmax.
  destruct (Rle_dec x (-1)); destruct (Rle_dec _ 1); lra.
Qed.

Lemma clamp_id x : -1 <= x <= 1 -> Rmin (Rmax x (-1)) 1 = x.
Proof.
  intros Hx. unfold Rmin, Rmax.
  destruct (Rle_dec x (-1)); destruct (Rle_dec _ 1); lra.
Qed.

(** The inner product of two points of the trajectory depends on the
    difference of their angles only. *)
Lemma dot_slerp_at theta (u1 u2 : list R) a b :
  length u1 = length u2 -> dot u1 u1 = 1 -> dot u2 u2 = 1 ->
  dot u1 u2 = cos theta -> sin theta <> 0 ->
  dot (slerp_at theta u1 u2 a) (slerp_at theta u1 u2 b) = cos (b - a).
Proof.
  intros Hl H1 H2 H12 Hs. unfold slerp_at.
  rewrite dot_lin by exact Hl. rewrite H1, H2, H12.
  rewrite !sin_minus, cos_minus.
  pose proof (sin2_cos2 theta) as Hsc. unfold Rsqr in Hsc.
  set (S := sin theta) in *. set (C := cos theta) in *.
  set (sa := sin a). set (ca := cos a). set (sb := sin b). set (cb := cos b).
  assert (E : (S * ca - C * sa) / S * ((S * cb - C * sb) / S) * 1 +
              ((S * ca - C * sa) / S * (sb / S) + sa / S * ((S * cb - C * sb) / S)) * C +
              sa / S * (sb / S) * 1 =
              cb * ca + sb * sa + sa * sb * (1 - (S * S + C * C)) / (S * S))
    by (field; exact Hs).
  rewrite E, Hsc. field. exact Hs.
Qed.

Section SlerpDefined.
Variables (z1 z2 : LatentState (list xR)) (theta : R).
Hypothesis same_shape : length (sample z1) = length (sample z2).
Hypothesis angle_defined : slerp_theta z1 z2 = Ret (Some theta).
Hypothesis not_equal : theta <> 0.
Hypothesis not_opposite : theta <> PI.

Lemma slerp_sin_theta : sin theta <> 0.
Proof.
  destruct (slerp_theta_inv _ _ _ same_shape angle_defined)
    as (u1 & u2 & _ & _ & _ & Ht).
  apply sin_acos_range_neq_0; try assumption.
  rewrite Ht. apply acos_bound.
Qed.

Lemma slerp_closed_form n :
  exists u1 u2,
    normalized (sample z1) = fin u1 /\ normalized (sample z2) = fin u2 /\
    length u1 = length u2 /\
    theta = acos (Rmin (Rmax (dot u1 u2) (-1)) 1) /\
    slerp z1 z2 n =
      Ret (map (fun k => mkLatent (fin (slerp_at theta u1 u2 (angle_at n k)))
                                  (sample_shape z1))
               (seq 0 n)).
Proof.
  destruct (slerp_theta_inv _ _ _ same_shape angle_defined)
    as (u1 & u2 & Hu1 & Hu2 & Hl & Ht).
  exists u1, u2. repeat (split; [assumption|]).
  unfold slerp. rewrite angle_defined. cbn [pbind].
  rewrite slerp_angles_eq, Hu1, Hu2.
  rewrite <- (map_map (angle_at n)
                (fun angle => mkLatent (fin (slerp_at theta u1 u2 angle))
                                       (sample_shape z1))).
  apply collect_map. intros angle _.
  destruct (slerp_weights theta angle not_equal slerp_sin_theta) as [-> ->].
  rewrite !tscale_fin. change xadd with (xlift2 Rplus).
  rewrite tbin_fin by (rewrite !length_map; exact Hl).
  cbn [pbind]. rewrite zip_with_scaled. reflexivity.
Qed.

End SlerpDefined.

Lemma normalized_unit a u :
  a <> [] -> normalized a = fin u -> dot u u = 1.
Proof.
  intros Ha E. destruct (normalized_finite _ _ E) as (v & -> & [-> | [Hn ->]]).
  - contradiction Ha. reflexivity.
  - apply dot_unit_vec, Hn.
Qed.

Lemma rnorm_of_unit p : dot p p = 1 -> norm2 (fin p) = Some 1.
Proof. intros Hp. rewrite norm2_fin. unfold rnorm. rewrite Hp, sqrt_1. reflexivity. Qed.

Lemma angle_at_step n k :
  (S k < n)%nat -> angle_at n (S k) - angle_at n k = 2 * PI / INR n.
Proof.
  intros Hk. unfold angle_at. rewrite S_INR.
  assert (INR n <> 0) by (apply not_0_INR; lia). field. assumption.
Qed.

Lemma angle_at_wrap n :
  (0 < n)%nat -> cos (angle_at n 0 - angle_at n (n - 1)) = cos (2 * PI / INR n).
Proof.
  intros Hn. unfold angle_at. rewrite minus_INR by lia.
  assert (INR n <> 0) by (apply not_0_INR; lia).
  replace (2 * PI * INR 0 / INR n - 2 * PI * (INR n - INR 1) / INR n)
    with (- (2 * PI - 2 * PI / INR n)) by (simpl; field; assumption).
  rewrite cos_neg, cos_minus, cos_2PI, sin_2PI. ring.
Qed.

(** C7, as amended. For two non-empty latent states of the same shape
    whose normalizations are at an angle [theta] that is neither 0 nor pi,
    and every count [n]: [slerp] returns [n] states; the [k]-th is the
    combination of the two normalized endpoints with the weights
    [sin (theta - a) / sin theta] and [sin a / sin theta] at the angle
    [a = 2 pi k / n], and has norm 1; the inner product of two consecutive
    states is [cos (2 pi / n)], also from the last state back to the
    first. *)
Theorem slerp_unit_norm_closed_loop z1 z2 theta n :
  length (sample z1) = length (sample z2) ->
  sample z1 <> [] ->
  slerp_theta z1 z2 = Ret (Some theta) ->
  theta <> 0 -> theta <> PI ->
  exists u1 u2 states,
    normalized (sample z1) = fin u1 /\ normalized (sample z2) = fin u2 /\
    slerp z1 z2 n = Ret states /\ length states = n /\
    (forall k, (k < n)%nat ->
       exists p,
         nth_error states k = Some (mkLatent (fin p) (sample_shape z1)) /\
         p = slerp_at theta u1 u2 (angle_at n k) /\
         norm2 (fin p) = Some 1) /\
    (forall k p q, (S k < n)%nat ->
       option_map sample (nth_error states k) = Some (fin p) ->
       option_map sample (nth_error states (S k)) = Some (fin q) ->
       dot p q = cos (2 * PI / INR n)) /\
    (forall p q, (0 < n)%nat ->
       option_map sample (nth_error states (n - 1)) = Some (fin p) ->
       option_map sample (nth_error states 0) = Some (fin q) ->
       dot p q = cos (2 * PI / INR n)).
Proof.
  intros Hl Hne Ht H0 Hpi.
  destruct (slerp_closed_form z1 z2 theta Hl Ht H0 Hpi n)
    as (u1 & u2 & Hu1 & Hu2 & Hlu & Hth & Hs).
  pose proof (slerp_sin_theta z1 z2 theta Hl Ht H0 Hpi) as Hsin.
  assert (Hne2 : sample z2 <> []).
  { intros E. apply Hne. rewrite E in Hl. destruct (sample z1); [reflexivity | discriminate Hl]. }
  pose proof (normalized_unit _ _ Hne Hu1) as U1.
  pose proof (normalized_unit _ _ Hne2 Hu2) as U2.
  assert (U12 : dot u1 u2 = cos theta).
  { rewrite Hth, clamp_id by (apply dot_unit_bound; assumption).
    symmetry. apply cos_acos. apply dot_unit_bound; assumption. }
  assert (Hdot : forall a b,
             dot (slerp_at theta u1 u2 a) (slerp_at theta u1 u2 b) = cos (b - a))
    by (intros a b; apply dot_slerp_at; assumption).
  eexists u1, u2, _. repeat (split; [first [eassumption | exact Hs]|]).
  split; [rewrite length_map, length_seq; reflexivity|].
  split; [|split].
  - intros k Hk. eexists. rewrite nth_error_map_seq by exact Hk.
    split; [reflexivity|]. split; [reflexivity|].
    apply rnorm_of_unit. rewrite Hdot, Rminus_diag. apply cos_0.
  - intros k p q Hk Hp Hq.
    rewrite nth_error_map_seq in Hp, Hq by lia. simpl in Hp, Hq.
    inversion Hp as [Hp']. inversion Hq as [Hq'].
    apply fin_inj in Hp', Hq'. subst p q.
    rewrite Hdot, angle_at_step by exact Hk. reflexivity.
  - intros p q Hn Hp Hq.
    rewrite nth_error_map_seq in Hp, Hq by lia. simpl in Hp, Hq.
    inversion Hp as [Hp']. inversion Hq as [Hq'].
    apply fin_inj in Hp', Hq'. subst p q.
    rewrite Hdot. apply angle_at_wrap, Hn.
Qed.

(** *** Concrete endpoints *)

Lemma rnorm_e1 x : x * x = 1 -> rnorm [x; 0] = 1.
Proof.
  intros Hx. unfold rnorm, dot. simpl.
  replace (x * x + (0 * 0 + 0)) with 1 by lra. apply sqrt_1.
Qed.

Lemma rnorm_e2 : rnorm [0; 1] = 1.
Proof.
  unfold rnorm, dot. simpl.
  replace (0 * 0 + (1 * 1 + 0)) with 1 by lra. apply sqrt_1.
Qed.

Lemma unit_vec_e1 x : x * x = 1 -> unit_vec [x; 0] = [x; 0].
Proof.
  intros Hx. unfold unit_vec. rewrite (rnorm_e1 x Hx). simpl.
  f_equal; [lra | f_equal; lra].
Qed.

Lemma unit_vec_e2 : unit_vec [0; 1] = [0; 1].
Proof. unfold unit_vec. rewrite rnorm_e2. simpl. f_equal; [lra | f_equal; lra]. Qed.

(** Orthogonal endpoints are at the angle pi / 2. *)
Lemma slerp_theta_orthogonal s :
  slerp_theta (mkLatent (fin [1; 0]) s) (mkLatent (fin [0; 1]) s)
    = Ret (Some (PI / 2)).
Proof.
  rewrite slerp_theta_fin;
    [|reflexivity | rewrite (rnorm_e1 1) by lra; lra | rewrite rnorm_e2; lra].
  rewrite (unit_vec_e1 1) by lra. rewrite unit_vec_e2.
  unfold dot. simpl.
  replace (1 * 0 + (0 * 1 + 0)) with 0 by lra.
  rewrite clamp_id by lra. rewrite acos_0. reflexivity.
Qed.

Lemma PI_neq_half : PI / 2 <> 0 /\ PI / 2 <> PI.
Proof. pose proof PI_RGT_0. split; lra. Qed.

Lemma slerp_unit_norm_closed_loop_witness :
  exists states,
    slerp (mkLatent (fin [1; 0]) [1; 2]%nat) (mkLatent (fin [0; 1]) [1; 2]%nat) 4
      = Ret states /\
    length states = 4%nat /\
    (forall k, (k < 4)%nat ->
       exists p, option_map sample (nth_error states k) = Some (fin p) /\
                 norm2 (fin p) = Some 1).
Proof.
  destruct (slerp_unit_norm_closed_loop
              (mkLatent (fin [1; 0]) [1; 2]%nat) (mkLatent (fin [0; 1]) [1; 2]%nat)
              (PI / 2) 4 eq_refl ltac:(discriminate)
              (slerp_theta_orthogonal _) (proj1 PI_neq_half) (proj2 PI_neq_half))
    as (u1 & u2 & states & _ & _ & Hs & Hlen & Hk & _).
  exists states. split; [exact Hs|]. split; [exact Hlen|].
  intros k Hlt. destruct (Hk k Hlt) as (p & Hp & _ & Hn).
  exists p. rewrite Hp. split; [reflexivity | exact Hn].
Defined.

(** *** Endpoints of different sizes *)

Lemma rnorm_one : rnorm [1] = 1.
Proof.
  unfold rnorm, dot. simpl.
  replace (1 * 1 + 0) with 1 by lra. apply sqrt_1.
Qed.

Lemma rnorm_diagonal : rnorm [1; -1] = sqrt 2.
Proof. unfold rnorm, dot. simpl. f_equal. lra. Qed.

Lemma sqrt2_neq_1 : sqrt 2 <> 1.
Proof.
  intros E. pose proof (sqrt_sqrt 2 ltac:(lra)) as S. rewrite E in S. lra.
Qed.

Lemma sqrt2_neq_0 : sqrt 2 <> 0.
Proof. pose proof (sqrt_lt_R0 2 ltac:(lra)). lra. Qed.

Lemma normalized_one : normalized (fin [1]) = fin [1].
Proof.
  rewrite normalized_fin by (rewrite rnorm_one; lra).
  unfold unit_vec. rewrite rnorm_one. simpl. do 2 f_equal. lra.
Qed.

Lemma normalized_diagonal :
  normalized (fin [1; -1]) = fin [1 / sqrt 2; -1 / sqrt 2].
Proof.
  rewrite normalized_fin by (rewrite rnorm_diagonal; apply sqrt2_neq_0).
  unfold unit_vec. rewrite rnorm_diagonal. reflexivity.
Qed.

(** A sample of one entry against a sample of two: torch broadcasts, and
    the angle of [slerp] is pi / 2. *)
Lemma slerp_theta_broadcast s1 s2 :
  slerp_theta (mkLatent (fin [1]) s1) (mkLatent (fin [1; -1]) s2)
    = Ret (Some (PI / 2)).
Proof.
  unfold slerp_theta. cbn [sample].
  rewrite normalized_one, normalized_diagonal.
  cbn [tbin fin map length Nat.eqb pbind xmul xlift2 xsum fold_right xadd
       xclamp xlift].
  do 2 f_equal.
  replace (1 * (1 / sqrt 2) + (1 * (-1 / sqrt 2) + 0)) with 0
    by (field; apply sqrt2_neq_0).
  rewrite clamp_id by lra. apply acos_0.
Qed.

Lemma slerp_broadcast_state angle :
  pbind (tbin xadd (tscale (slerp_alpha (Some (PI / 2)) angle) (fin [1]))
                   (tscale (slerp_beta (Some (PI / 2)) angle)
                           (fin [1 / sqrt 2; -1 / sqrt 2])))
        (fun slerp_point => Ret (mkLatent slerp_point [1; 1]%nat))
  = Ret (mkLatent
           (fin [sin (PI / 2 - angle) / sin (PI / 2) * 1 +
                 sin angle / sin (PI / 2) * (1 / sqrt 2);
                 sin (PI / 2 - angle) / sin (PI / 2) * 1 +
                 sin angle / sin (PI / 2) * (-1 / sqrt 2)])
           [1; 1]%nat).
Proof.
  destruct (slerp_weights (PI / 2) angle (proj1 PI_neq_half)) as [-> ->].
  { rewrite sin_PI2. lra. }
  reflexivity.
Qed.

(** C7 as stated fails when the second endpoint has more entries than the
    first, which has one: the angle is pi / 2, not zero, four states are
    returned, and the first of them is [(1, 1)], of norm [sqrt 2]. *)
Lemma slerp_broadcast_not_unit :
  slerp_theta (mkLatent (fin [1]) [1; 1]%nat) (mkLatent (fin [1; -1]) [1; 2]%nat)
    = Ret (Some (PI / 2)) /\
  PI / 2 <> 0 /\
  exists states,
    slerp (mkLatent (fin [1]) [1; 1]%nat) (mkLatent (fin [1; -1]) [1; 2]%nat) 4
      = Ret states /\
    length states = 4%nat /\
    option_map sample (nth_error states 0) = Some (fin [1; 1]) /\
    norm2 (fin [1; 1]) = Some (sqrt 2) /\
    sqrt 2 <> 1.
Proof.
  split; [apply slerp_theta_broadcast|].
  split; [exact (proj1 PI_neq_half)|].
  eexists. split; [|split; [|split; [|split]]].
  - unfold slerp. rewrite slerp_theta_broadcast. cbn [pbind sample sample_shape].
    rewrite normalized_one, normalized_diagonal, slerp_angles_eq.
    apply collect_map. intros angle _. apply slerp_broadcast_state.
  - rewrite !length_map, length_seq. reflexivity.
  - cbn [seq map nth_error option_map sample]. do 2 f_equal.
    unfold angle_at. cbn [INR].
    replace (2 * PI * 0 / (1 + 1 + 1 + 1)) with 0 by (unfold Rdiv; ring).
    rewrite Rminus_0_r, sin_0, sin_PI2.
    f_equal; [|f_equal]; field; apply sqrt2_neq_0.
  - rewrite norm2_fin. unfold rnorm, dot. simpl. do 2 f_equal. lra.
  - apply sqrt2_neq_1.
Qed.

(** *** The shape descriptor *)

Lemma all_states_collect {A T} (P : LatentState T -> Prop)
    (f : A -> PyResult (LatentState T)) l :
  (forall a b, f a = Ret b -> P b) -> all_states P (collect f l).
Proof.
  intros Hf. unfold all_states.
  destruct (collect f l) as [states|e] eqn:E; [|exact I].
  exact (collect_Forall P f l states Hf E).
Qed.

Lemma collect_total {A B} (f : A -> PyResult B) l :
  (forall a, exists b, f a = Ret b) -> exists r, collect f l = Ret r.
Proof.
  intros Hf. induction l as [|a l [r IH]]; simpl.
  - exists []. reflexivity.
  - destruct (Hf a) as (b & ->). simpl. rewrite IH. simpl.
    exists (b :: r). reflexivity.
Qed.

(** Two latent states of one shape always give [n] states, finite or not. *)
Lemma slerp_returns z1 z2 n :
  length (sample z1) = length (sample z2) ->
  exists states, slerp z1 z2 n = Ret states /\ length states = n.
Proof.
  intros Hl. unfold slerp, slerp_theta.
  assert (T : forall f a b, length a = length b ->
                            tbin f a b = Ret (zip_with f a b)).
  { intros f a b E. unfold tbin. rewrite E, Nat.eqb_refl. reflexivity. }
  rewrite T by (rewrite !length_normalized; exact Hl). cbn [pbind].
  match goal with
  | |- exists states, collect ?f ?l = _ /\ _ =>
      destruct (collect_total f l) as (r & Hr)
  end.
  - intros angle. rewrite T.
    + eexists. reflexivity.
    + unfold tscale. rewrite !length_map, !length_normalized. exact Hl.
  - exists r. split; [exact Hr|].
    rewrite (collect_length _ _ _ Hr), slerp_angles_eq, length_map, length_seq.
    reflexivity.
Qed.

(** C9. Every state that [lerp], [slerp], [rspline] or [lemniscate]
    returns carries the [sample_shape] of the first input endpoint,
    whatever numpy's and scipy's spline fitting and torch's broadcasting
    and complex arithmetic compute; [rspline] has no first endpoint on an
    empty list of control points, and raises. *)
Theorem interpolation_preserves_sample_shape :
  (forall z1 z2 n,
     all_states (fun s => sample_shape s = sample_shape z1) (lerp z1 z2 n)) /\
  (forall z1 z2 n,
     all_states (fun s => sample_shape s = sample_shape z1) (slerp z1 z2 n)) /\
  (forall T (spline_points : list T -> nat -> nat -> PyResult (list T))
          z_points n degree,
     match z_points with
     | z0 :: _ =>
         all_states (fun s => sample_shape s = sample_shape z0)
                    (rspline T spline_points z_points n degree)
     | [] => rspline T spline_points z_points n degree = Raise ValueError
     end) /\
  (forall T TS C (scaled : T -> T -> list xR -> PyResult TS)
          (combine : TS -> TS -> nat -> PyResult C) z1 z2 n a,
     all_states (fun s => sample_shape s = sample_shape z1)
                (lemniscate T TS C scaled combine z1 z2 n a)).
Proof.
  split; [|split; [|split]].
  - intros z1 z2 n. unfold lerp.
    destruct (tbin xsub (sample z2) (sample z1)) as [d|e]; [|exact I].
    cbn [pbind]. apply all_states_collect. intros i b E.
    apply pbind_ret_inv in E as (z & _ & E). inversion E. reflexivity.
  - intros z1 z2 n. unfold slerp.
    destruct (slerp_theta z1 z2) as [theta|e]; [|exact I].
    cbn [pbind]. apply all_states_collect. intros angle b E.
    apply pbind_ret_inv in E as (z & _ & E). inversion E. reflexivity.
  - intros T spline_points [|z0 r] n degree; [reflexivity|].
    unfold rspline.
    destruct (spline_points _ n _) as [points|e]; [|exact I].
    cbn [pbind all_states]. apply Forall_map.
    apply List.Forall_forall. intros p _. reflexivity.
  - intros T TS C scaled combine z1 z2 n a. unfold lemniscate.
    destruct (scaled (sample z1) (sample z2) _) as [xs|e]; [|exact I].
    cbn [pbind].
    destruct (scaled (sample z1) (sample z2) _) as [ys|e]; [|exact I].
    cbn [pbind]. apply all_states_collect. intros i b E.
    apply pbind_ret_inv in E as (z & _ & E). inversion E. reflexivity.
Qed.

(** The four schemes do return trajectories: [lerp] and [slerp] on any two
    states of one shape, [rspline] and [lemniscate] whenever the numeric
    collaborators return. *)
Lemma interpolation_returns :
  (forall v1 v2 s1 s2 n, length v1 = length v2 ->
     exists states, lerp (mkLatent (fin v1) s1) (mkLatent (fin v2) s2) n = Ret states /\
                    length states = (n + 2)%nat) /\
  (forall z1 z2 n, length (sample z1) = length (sample z2) ->
     exists states, slerp z1 z2 n = Ret states /\ length states = n) /\
  (forall (z0 z1 : LatentState (list R)) n,
     rspline (list R) (fun cps n _ => Ret (repeat (hd [] cps) n)) [z0; z1] n 3
       = Ret (repeat (mkLatent (sample z0) (sample_shape z0)) n)) /\
  (forall (z1 z2 : LatentState R) n a,
     exists states,
       lemniscate R (list xR) (xR * xR) (fun _ _ w => Ret w)
                  (fun xs ys i => Ret (nth i xs None, nth i ys None)) z1 z2 n a
         = Ret states /\
       length states = (n + 2)%nat).
Proof.
  split; [|split; [|split]].
  - intros v1 v2 s1 s2 n Hl. eexists. split; [apply lerp_closed_form, Hl|].
    rewrite length_map, length_seq. reflexivity.
  - apply slerp_returns.
  - intros z0 z1 n. unfold rspline. cbn [pbind map hd].
    f_equal. induction n as [|n IH]; simpl; [reflexivity|]. rewrite IH. reflexivity.
  - intros z1 z2 n a. unfold lemniscate. cbn [pbind].
    match goal with
    | |- exists states, collect ?f ?l = _ /\ _ =>
        destruct (collect_total f l) as (r & Hr)
    end.
    + intros i. eexists. reflexivity.
    + exists r. split; [exact Hr|].
      rewrite (collect_length _ _ _ Hr), length_seq. reflexivity.
Qed.

End InterpFacts.

(** * Further properties *)

Set Warnings "-clear-no-such-hyp".

(** ** The file system and write_image *)

Section FsFacts.
Context `{Externals}.

Lemma assoc_set_same {V} k (v : V) l : assoc k (assoc_set k v l) = Some v.
Proof.
  induction l as [|[k' v'] r IH]; simpl.
  - rewrite String.eqb_refl. reflexivity.
  - destruct (String.eqb k k') eqn:E; simpl.
    + rewrite String.eqb_refl. reflexivity.
    + rewrite E. exact IH.
Qed.

Lemma assoc_set_other {V} k k' (v : V) l :
  k <> k' -> assoc k' (assoc_set k v l) = assoc k' l.
Proof.
  intros Hne. induction l as [|[k0 v0] r IH]; simpl.
  - destruct (String.eqb k' k) eqn:E; [|reflexivity].
    apply String.eqb_eq in E. congruence.
  - destruct (String.eqb k k0) eqn:E; simpl.
    + apply String.eqb_eq in E. subst k0.
      destruct (String.eqb k' k) eqn:E'; [|reflexivity].
      apply String.eqb_eq in E'. congruence.
    + destruct (String.eqb k' k0); [reflexivity | exact IH].
Qed.

Lemma assoc_In {V} k (v : V) l : assoc k l = Some v -> In (k, v) l.
Proof.
  induction l as [|[k' v'] r IH]; simpl; [discriminate|].
  destruct (String.eqb k k') eqn:E.
  - apply String.eqb_eq in E. intros [= ->]. left. congruence.
  - intros Hr. right. auto.
Qed.

Lemma fs_lookup_write_other f p nd q :
  norm q <> p -> fs_lookup (assoc_set p nd f) q = fs_lookup f q.
Proof.
  intros Hne. unfold fs_lookup. rewrite assoc_set_other by congruence. reflexivity.
Qed.

Lemma isfile_write_mono f p c q :
  isfile f q = true -> isfile (assoc_set p (File c) f) q = true.
Proof.
  unfold isfile, fs_lookup. intros Hq.
  destruct (string_dec p (norm q)) as [->|Hne].
  - rewrite assoc_set_same.
    destruct (assoc (norm q) f) as [[|c']|]; try discriminate.
    destruct (String.eqb (norm q) q); [reflexivity | discriminate].
  - rewrite assoc_set_other by exact Hne. exact Hq.
Qed.

Lemma list_ascii_of_string_app a b :
  list_ascii_of_string (a ++ b) = (list_ascii_of_string a ++ list_ascii_of_string b)%list.
Proof. induction a as [|c a IH]; simpl; [|rewrite IH]; reflexivity. Qed.

(** A path whose last character is not a slash names itself. *)
Lemma norm_no_trailing_slash p c :
  c <> "/"%char -> norm (p ++ String c "") = p ++ String c "".
Proof.
  intros Hc. unfold norm.
  rewrite list_ascii_of_string_app, rev_app_distr. simpl.
  destruct (Ascii.eqb c "/") eqn:E; [apply Ascii.eqb_eq in E; contradiction|].
  simpl. rewrite rev_involutive.
  change (list_ascii_of_string p ++ [c])%list
    with (list_ascii_of_string p ++ list_ascii_of_string (String c ""))%list.
  rewrite <- list_ascii_of_string_app.
  apply string_of_list_ascii_of_string.
Qed.

Lemma app_assoc_string (a b c : string) : (a ++ b) ++ c = a ++ (b ++ c).
Proof.
  induction a as [|x a IH]; [reflexivity|].
  change (String x ((a ++ b) ++ c) = String x (a ++ (b ++ c))).
  f_equal. exact IH.
Qed.

Lemma norm_tif p : norm (p ++ ".tif") = p ++ ".tif".
Proof.
  assert (E : p ++ ".tif" = (p ++ ".ti") ++ "f").
  { symmetry. apply app_assoc_string. }
  rewrite E. apply norm_no_trailing_slash. discriminate.
Qed.

Lemma fs_lookup_write_same f p c :
  norm p = p -> fs_lookup (assoc_set (norm p) (File c) f) p = Some (File c).
Proof.
  intros Hn. unfold fs_lookup. rewrite assoc_set_same, Hn, String.eqb_refl.
  reflexivity.
Qed.

Lemma fs_lookup_write_at f p c :
  norm p = p -> fs_lookup (assoc_set p (File c) f) p = Some (File c).
Proof.
  intros Hn. unfold fs_lookup. rewrite Hn, assoc_set_same, String.eqb_refl.
  reflexivity.
Qed.

End FsFacts.

Section WriteImage.
Context `{Externals}.

Lemma same_but_fs_refl st : same_but_fs st st.
Proof. repeat split. Qed.

Lemma same_but_fs_trans st1 st2 st3 :
  same_but_fs st1 st2 -> same_but_fs st2 st3 -> same_but_fs st1 st3.
Proof. unfold same_but_fs. intros (?&?&?&?) (?&?&?&?). repeat split; congruence. Qed.

Lemma cv2_imwrite_inv path img st u st' :
  cv2_imwrite path img st = (Ret u, st') ->
  img <> None /\ same_but_fs st st' /\
  (fs st' = fs st \/ fs st' = assoc_set (norm path) (File Opaque) (fs st)).
Proof.
  unfold cv2_imwrite. destruct img as [fr|]; [|discriminate].
  cbv [bind get]. destruct (writable (fs st) path); cbv [set_fs ret];
    intros E; inversion E; subst; simpl.
  - split; [discriminate|]. split; [repeat split|]. right. reflexivity.
  - split; [discriminate|]. split; [repeat split|]. left. reflexivity.
Qed.

Lemma cv2_imwrite_other path img st u st' q :
  cv2_imwrite path img st = (Ret u, st') ->
  norm q <> norm path -> fs_lookup (fs st') q = fs_lookup (fs st) q.
Proof.
  intros E Hq. destruct (cv2_imwrite_inv _ _ _ _ _ E) as (_ & _ & [-> | ->]);
    [reflexivity|].
  apply fs_lookup_write_other. exact Hq.
Qed.

Lemma cv2_imwrite_isfile_mono path img st u st' q :
  cv2_imwrite path img st = (Ret u, st') ->
  isfile (fs st) q = true -> isfile (fs st') q = true.
Proof.
  intros E Hq. destruct (cv2_imwrite_inv _ _ _ _ _ E) as (_ & _ & [-> | ->]);
    [exact Hq|].
  apply isfile_write_mono. exact Hq.
Qed.

Lemma assert_isfile_inv path st u st' :
  assert_isfile path st = (Ret u, st') -> st' = st /\ isfile (fs st) path = true.
Proof.
  unfold assert_isfile. cbv [bind get]. intros E.
  apply assert_ret_inv in E as [E ->]. split; [reflexivity | exact E].
Qed.

(** What a successful write of a raster file without colormaps does. *)
Lemma write_image_plain_inv path img suffix md st st' :
  str_in suffix raster_suffixes = true ->
  write_image path img suffix md None st = (Ret tt, st') ->
  isfile (fs st') (path ++ "." ++ suffix) = true /\
  (forall q, norm q <> norm (path ++ "." ++ suffix) ->
             fs_lookup (fs st') q = fs_lookup (fs st) q) /\
  same_but_fs st st'.
Proof.
  intros Hs E. unfold write_image in E.
  apply bind_ret_inv in E as (u & s1 & Ea & E).
  apply assert_ret_inv in Ea as [_ ->].
  change (str_in suffix ["jpg"; "png"; "bmp"; "jpeg"])
    with (str_in suffix raster_suffixes) in E.
  rewrite Hs in E.
  apply bind_ret_inv in E as (u1 & s2 & Ew & E).
  apply assert_isfile_inv in E as [-> Hf].
  split; [exact Hf|]. split.
  - intros q Hq. exact (cv2_imwrite_other _ _ _ _ _ _ Ew Hq).
  - exact (proj1 (proj2 (cv2_imwrite_inv _ _ _ _ _ Ew))).
Qed.

Lemma str_in_tif_not_raster : str_in "tif" raster_suffixes = false.
Proof. reflexivity. Qed.

(** What a successful write of an archival file does. *)
Lemma write_image_tif_inv path img md cms st st' :
  write_image path img "tif" md cms st = (Ret tt, st') ->
  exists c,
    tiff_encode img md = Ret c /\
    fs st' = assoc_set (path ++ ".tif") (File c) (fs st) /\
    events st' = (events st ++ match md with
                               | None => [Warn NoTiffMetadata]
                               | Some _ => []
                               end)%list /\
    torch st' = torch st /\ self_model st' = self_model st /\
    recon_calls st' = recon_calls st.
Proof.
  intros E. unfold write_image in E.
  apply bind_ret_inv in E as (u & s1 & Ea & E).
  apply assert_ret_inv in Ea as [_ ->].
  change (str_in "tif" ["jpg"; "png"; "bmp"; "jpeg"]) with false in E.
  cbv iota in E.
  apply bind_ret_inv in E as (u1 & s2 & Ew & E).
  unfold tifffile_imwrite in E. cbv [bind get] in E.
  destruct (writable (fs s2) (path ++ ".tif")); [|discriminate E].
  cbv [lift] in E.
  destruct (tiff_encode img md) as [c|e]; [|discriminate E].
  cbv [set_fs] in E. inversion E; subst; clear E. simpl.
  exists c. rewrite norm_tif.
  destruct md as [m|]; cbv [emit ret] in Ew; inversion Ew; subst; simpl.
  - rewrite app_nil_r. repeat split; reflexivity.
  - repeat split; reflexivity.
Qed.

End WriteImage.

Section Colormaps.
Context `{Externals}.


Lemma fold_requested_keeps k cms (d : list (string * option Frame)) :
  assoc k d = Some None ->
  assoc k (fold_left (fun d c => assoc_set (Path.lower c) None d) cms d) = Some None.
Proof.
  revert d. induction cms as [|c r IH]; intros d Hd; simpl; [exact Hd|].
  apply IH. destruct (string_dec (Path.lower c) k) as [<-|Hne].
  - apply assoc_set_same.
  - rewrite assoc_set_other by exact Hne. exact Hd.
Qed.

Lemma fold_requested_at c cms (d : list (string * option Frame)) :
  In c cms ->
  assoc (Path.lower c)
        (fold_left (fun d c => assoc_set (Path.lower c) None d) cms d) = Some None.
Proof.
  revert d. induction cms as [|c' r IH]; intros d Hin; simpl; [contradiction|].
  destruct Hin as [->|Hin].
  - apply fold_requested_keeps, assoc_set_same.
  - apply IH, Hin.
Qed.

Lemma convert_if_present_other name code src d d' k :
  convert_if_present name code src d = Ret d' -> k <> name ->
  assoc k d' = assoc k d.
Proof.
  unfold convert_if_present. intros E Hk.
  destruct (has_key name d); [|inversion E; reflexivity].
  destruct (cvtColor src code) as [img'|e]; inversion E; subst.
  apply assoc_set_other. congruence.
Qed.

Lemma convert_all_other steps src d d' k :
  convert_all steps src d = Ret d' -> ~ In k (map fst steps) ->
  assoc k d' = assoc k d.
Proof.
  revert d. induction steps as [|[name code] r IH]; intros d E Hk; simpl in *.
  - inversion E. reflexivity.
  - destruct (convert_if_present name code src d) as [d1|e] eqn:E1; [|discriminate E].
    rewrite (IH _ E) by tauto.
    apply (convert_if_present_other _ _ _ _ _ _ E1). intros ->. tauto.
Qed.

(** The dictionary of [image_colormaps]: the image itself under [rgb] for
    three channels and under [gray] otherwise, and every requested name that
    is not a known colormap with no image. *)
Lemma image_colormaps_inv img cms d :
  image_colormaps img cms = Ret d ->
  (last_dim img = Some 3%nat -> assoc "rgb" d = Some (Some img)) /\
  (last_dim img <> Some 3%nat -> assoc "gray" d = Some (Some img)) /\
  (forall c, In c cms -> ~ In (Path.lower c) known_colormaps ->
             assoc (Path.lower c) d = Some None).
Proof.
  unfold image_colormaps. intros E.
  destruct (decide (last_dim img = None)) as [Hn|Hn]; [discriminate E|].
  destruct (decide (last_dim img = Some 3%nat)) as [H3|H3].
  - split; [|split].
    + intros _. rewrite (convert_all_other _ _ _ _ "rgb" E).
      * apply assoc_set_same.
      * simpl. intros Hin.
        repeat (destruct Hin as [Hin|Hin]; [discriminate Hin|]). exact Hin.
    + intros Hc. contradiction.
    + intros c Hin Hk. rewrite (convert_all_other _ _ _ _ _ E).
      * rewrite assoc_set_other by (intros Heq; apply Hk; rewrite <- Heq; simpl; tauto).
        apply fold_requested_at, Hin.
      * simpl. intros Hs. apply Hk. simpl.
        destruct Hs as [<-|[<-|[<-|[<-|[<-|[]]]]]]; tauto.
  - destruct (cvtColor img "COLOR_GRAY2RGB") as [img2|e]; [|discriminate E].
    assert (Hg : forall k, k <> "gray" -> k <> "rgb" ->
               assoc k (if has_key "rgb"
                             (assoc_set "gray" (Some img) (requested cms))
                        then assoc_set "rgb" (Some img2)
                               (assoc_set "gray" (Some img) (requested cms))
                        else assoc_set "gray" (Some img) (requested cms))
               = assoc k (requested cms)).
    { intros k Hk1 Hk2. destruct (has_key "rgb" _).
      - rewrite !assoc_set_other by congruence. reflexivity.
      - rewrite assoc_set_other by congruence. reflexivity. }
    split; [|split].
    + intros Hc. contradiction.
    + intros _. rewrite (convert_all_other _ _ _ _ "gray" E).
      * destruct (has_key "rgb" _).
        -- rewrite assoc_set_other by discriminate. apply assoc_set_same.
        -- apply assoc_set_same.
      * simpl. intros Hin.
        repeat (destruct Hin as [Hin|Hin]; [discriminate Hin|]). exact Hin.
    + intros c Hin Hk. rewrite (convert_all_other _ _ _ _ _ E).
      * fold (requested cms). rewrite Hg.
        -- apply fold_requested_at, Hin.
        -- intros Heq. apply Hk. rewrite Heq. simpl. tauto.
        -- intros Heq. apply Hk. rewrite Heq. simpl. tauto.
      * simpl. intros Hs. apply Hk. simpl.
        destruct Hs as [<-|[<-|[<-|[<-|[]]]]]; tauto.
Qed.

Lemma write_colormapped_same_but_fs path suffix imgs st u st' :
  write_colormapped path suffix imgs st = (Ret u, st') -> same_but_fs st st'.
Proof.
  revert st. induction imgs as [|[cmap im] r IH]; intros st E; simpl in E.
  - cbv [ret] in E. inversion E. apply same_but_fs_refl.
  - apply bind_ret_inv in E as (u1 & s1 & Ew & E).
    apply bind_ret_inv in E as (u2 & s2 & Ea & E).
    apply assert_isfile_inv in Ea as [-> _].
    eapply same_but_fs_trans; [|exact (IH _ E)].
    exact (proj1 (proj2 (cv2_imwrite_inv _ _ _ _ _ Ew))).
Qed.

Lemma write_colormapped_isfile_mono path suffix imgs st u st' q :
  write_colormapped path suffix imgs st = (Ret u, st') ->
  isfile (fs st) q = true -> isfile (fs st') q = true.
Proof.
  revert st. induction imgs as [|[cmap im] r IH]; intros st E Hq; simpl in E.
  - cbv [ret] in E. inversion E; subst. exact Hq.
  - apply bind_ret_inv in E as (u1 & s1 & Ew & E).
    apply bind_ret_inv in E as (u2 & s2 & Ea & E).
    apply assert_isfile_inv in Ea as [-> _].
    apply (IH _ E). exact (cv2_imwrite_isfile_mono _ _ _ _ _ _ Ew Hq).
Qed.

(** After a successful loop over the colormap dictionary every entry has
    an image and its file. *)
Lemma write_colormapped_files path suffix imgs st u st' cmap im :
  write_colormapped path suffix imgs st = (Ret u, st') ->
  In (cmap, im) imgs ->
  im <> None /\ isfile (fs st') (path ++ "_" ++ cmap ++ "." ++ suffix) = true.
Proof.
  revert st. induction imgs as [|[cmap0 im0] r IH]; intros st E Hin; simpl in E.
  - contradiction.
  - apply bind_ret_inv in E as (u1 & s1 & Ew & E).
    apply bind_ret_inv in E as (u2 & s2 & Ea & E).
    apply assert_isfile_inv in Ea as [-> Hf].
    destruct Hin as [Heq|Hin].
    + inversion Heq; subst cmap0 im0. split.
      * exact (proj1 (cv2_imwrite_inv _ _ _ _ _ Ew)).
      * exact (write_colormapped_isfile_mono _ _ _ _ _ _ _ E Hf).
    + exact (IH _ E Hin).
Qed.

Lemma write_image_colormapped_inv path img suffix md cms st st' :
  str_in suffix raster_suffixes = true ->
  write_image path img suffix md (Some cms) st = (Ret tt, st') ->
  exists d, image_colormaps img cms = Ret d /\
            write_colormapped path suffix d st = (Ret tt, st').
Proof.
  intros Hs E. unfold write_image in E.
  apply bind_ret_inv in E as (u & s1 & Ea & E).
  apply assert_ret_inv in Ea as [_ ->].
  change (str_in suffix ["jpg"; "png"; "bmp"; "jpeg"])
    with (str_in suffix raster_suffixes) in E.
  rewrite Hs in E.
  apply bind_ret_inv in E as (d & s2 & Ei & E).
  apply lift_ret_inv in Ei as [Ei ->].
  exists d. split; [exact Ei | exact E].
Qed.

End Colormaps.

Section WriteImageTheorems.
Context `{Externals}.

Lemma has_key_assoc_set {V} k k' (v : V) d :
  has_key k d = true -> has_key k (assoc_set k' v d) = true.
Proof.
  unfold has_key. intros Hk. destruct (string_dec k' k) as [->|Hne].
  - rewrite assoc_set_same. reflexivity.
  - rewrite assoc_set_other by exact Hne. exact Hk.
Qed.

Lemma convert_all_has_key steps src d d' k :
  convert_all steps src d = Ret d' -> has_key k d = true -> has_key k d' = true.
Proof.
  revert d. induction steps as [|[name code] r IH]; intros d E Hk; simpl in *.
  - inversion E; subst. exact Hk.
  - destruct (convert_if_present name code src d) as [d1|e] eqn:E1; [|discriminate E].
    apply (IH _ E). unfold convert_if_present in E1.
    destruct (has_key name d); [|inversion E1; subst; exact Hk].
    destruct (cvtColor src code); inversion E1; subst.
    apply has_key_assoc_set, Hk.
Qed.

Lemma image_colormaps_has_key img cms d c :
  image_colormaps img cms = Ret d -> In c cms -> has_key (Path.lower c) d = true.
Proof.
  unfold image_colormaps. intros E Hin.
  assert (Hr : has_key (Path.lower c) (requested cms) = true).
  { unfold has_key, requested. rewrite fold_requested_at by exact Hin. reflexivity. }
  fold (requested cms) in E.
  destruct (decide (last_dim img = None)); [discriminate E|].
  destruct (decide (last_dim img = Some 3%nat)).
  - apply (convert_all_has_key _ _ _ _ _ E). apply has_key_assoc_set, Hr.
  - destruct (cvtColor img "COLOR_GRAY2RGB") as [img2|e]; [|discriminate E].
    apply (convert_all_has_key _ _ _ _ _ E).
    destruct (has_key "rgb" _); repeat apply has_key_assoc_set; exact Hr.
Qed.

(** X1. [write_image] takes five suffixes and raises AssertionError on any
    other, with no effect. For a raster suffix and no colormaps, a call that
    returns leaves a file at [path.suffix]; no other path and nothing else
    of the state changes, and the metadata plays no part. *)
Theorem write_image_raster_effect path img suffix md st :
  (str_in suffix (raster_suffixes ++ ["tif"]) = false ->
   forall cms, write_image path img suffix md cms st = (Raise AssertionError, st)) /\
  (str_in suffix raster_suffixes = true ->
   write_image path img suffix md None st = write_image path img suffix None None st /\
   forall st',
     write_image path img suffix md None st = (Ret tt, st') ->
     isfile (fs st') (path ++ "." ++ suffix) = true /\
     (forall q, norm q <> norm (path ++ "." ++ suffix) ->
                fs_lookup (fs st') q = fs_lookup (fs st) q) /\
     same_but_fs st st').
Proof.
  split.
  - intros Hs cms. unfold write_image.
    change (str_in suffix ["jpg"; "png"; "bmp"; "jpeg"; "tif"])
      with (str_in suffix (raster_suffixes ++ ["tif"])).
    rewrite Hs. reflexivity.
  - intros Hs. split.
    + unfold write_image.
      change (str_in suffix ["jpg"; "png"; "bmp"; "jpeg"])
        with (str_in suffix raster_suffixes).
      rewrite Hs. reflexivity.
    + intros st'. apply write_image_plain_inv, Hs.
Qed.

(** X2. A successful archival write stores at [path.tif] what tifffile
    encodes for the image and the metadata, changes no other path, ignores
    the colormaps, and warns once when there is no metadata and not at all
    otherwise. *)
Theorem write_image_tif_effect path img md cms st st' :
  write_image path img "tif" md cms st = (Ret tt, st') ->
  exists c,
    tiff_encode img md = Ret c /\
    fs_lookup (fs st') (path ++ ".tif") = Some (File c) /\
    (forall q, norm q <> path ++ ".tif" ->
               fs_lookup (fs st') q = fs_lookup (fs st) q) /\
    events st' = (events st ++ match md with
                               | None => [Warn NoTiffMetadata]
                               | Some _ => []
                               end)%list /\
    write_image path img "tif" md None st = (Ret tt, st').
Proof.
  intros E. destruct (write_image_tif_inv _ _ _ _ _ _ E) as (c & Hc & Hfs & Hev & _).
  exists c. split; [exact Hc|]. split; [|split; [|split; [exact Hev|exact E]]].
  - rewrite Hfs. apply fs_lookup_write_at, norm_tif.
  - intros q Hq. rewrite Hfs. apply fs_lookup_write_other, Hq.
Qed.

Lemma read_tiff_written path img md cms st st' c :
  write_image path img "tif" md cms st = (Ret tt, st') ->
  tiff_encode img md = Ret c ->
  fs_lookup (fs st') (path ++ ".tif") = Some (File c).
Proof.
  intros E Hc. destruct (write_image_tif_inv _ _ _ _ _ _ E) as (c' & Hc' & Hfs & _).
  rewrite Hc in Hc'. inversion Hc'; subst c'.
  rewrite Hfs. apply fs_lookup_write_at, norm_tif.
Qed.

(** X3. Round trip. When tifffile stores a shaped metadata block [data]
    for an archived frame, [load_tif_metadata] on the file just written
    reads the stored pixel array and decodes exactly [data]; when it stores
    no block, or the content is not a TIFF, the decode is the soft failure
    [(None, None)] with its warning. *)
Theorem archived_frame_decodes path img md cms st st1 c :
  write_image path img "tif" md cms st = (Ret tt, st1) ->
  tiff_encode img md = Ret c ->
  load_tif_metadata (path ++ ".tif") st1 =
    match c with
    | Tiff img' (Some (data :: _)) =>
        (let '(r, s) := extract_metadata data st1 in
         (match r with
          | Ret m => Ret (Some img', Some m)
          | Raise e => Raise e
          end, s))
    | _ => (Ret (None, None),
            mkState (fs st1)
                    (events st1 ++ [Warn (CouldNotLoad (path ++ ".tif"))])
                    (torch st1) (self_model st1) (recon_calls st1))
    end.
Proof.
  intros E Hc. pose proof (read_tiff_written _ _ _ _ _ _ _ E Hc) as Hl.
  unfold load_tif_metadata. cbv [bind get assert].
  unfold isfile, read_tiff. rewrite Hl. cbv [ret].
  destruct c as [|img' [[|data rest]|]]; try reflexivity.
  destruct (extract_metadata data st1) as [[m|e] s]; reflexivity.
Qed.

(** X4. With colormaps, a call of [write_image] that returns leaves one
    file per requested name (in lower case), and besides the file
    [path_rgb.suffix] for an image with three channels and
    [path_gray.suffix] for any other; nothing but the file system changes. *)
Theorem write_image_colormapped_files path img suffix md cms st st' :
  str_in suffix raster_suffixes = true ->
  write_image path img suffix md (Some cms) st = (Ret tt, st') ->
  (forall c, In c cms ->
     isfile (fs st') (path ++ "_" ++ Path.lower c ++ "." ++ suffix) = true) /\
  (last_dim img = Some 3%nat ->
     isfile (fs st') (path ++ "_rgb." ++ suffix) = true) /\
  (last_dim img <> Some 3%nat ->
     isfile (fs st') (path ++ "_gray." ++ suffix) = true) /\
  same_but_fs st st'.
Proof.
  intros Hs E.
  destruct (write_image_colormapped_inv _ _ _ _ _ _ _ Hs E) as (d & Hd & Hw).
  destruct (image_colormaps_inv _ _ _ Hd) as (Hrgb & Hgray & _).
  split; [|split; [|split]].
  - intros c Hin. pose proof (image_colormaps_has_key _ _ _ _ Hd Hin) as Hk.
    unfold has_key in Hk. destruct (assoc (Path.lower c) d) as [im|] eqn:Ha;
      [|discriminate Hk].
    exact (proj2 (write_colormapped_files _ _ _ _ _ _ _ _ Hw (assoc_In _ _ _ Ha))).
  - intros H3.
    exact (proj2 (write_colormapped_files _ _ _ _ _ _ _ _ Hw
                    (assoc_In _ _ _ (Hrgb H3)))).
  - intros H3.
    exact (proj2 (write_colormapped_files _ _ _ _ _ _ _ _ Hw
                    (assoc_In _ _ _ (Hgray H3)))).
  - exact (write_colormapped_same_but_fs _ _ _ _ _ _ Hw).
Qed.

(** X5. A requested colormap whose lower-case name is none of rgb, hsv,
    gray, lab, hls, luv keeps the entry [None] in the dictionary, and
    [write_image] cannot return: it raises, at the latest when cv2 is
    handed the empty image. *)
Theorem write_image_unknown_colormap_raises path img suffix md cms c st :
  str_in suffix raster_suffixes = true ->
  In c cms -> ~ In (Path.lower c) known_colormaps ->
  exists e, fst (write_image path img suffix md (Some cms) st) = Raise e.
Proof.
  intros Hs Hin Hk.
  destruct (write_image path img suffix md (Some cms) st) as [[[]|e] st'] eqn:E;
    [|exists e; reflexivity].
  exfalso.
  destruct (write_image_colormapped_inv _ _ _ _ _ _ _ Hs E) as (d & Hd & Hw).
  destruct (image_colormaps_inv _ _ _ Hd) as (_ & _ & Hnone).
  destruct (write_colormapped_files _ _ _ _ _ _ _ _ Hw
              (assoc_In _ _ _ (Hnone c Hin Hk))) as [Hne _].
  apply Hne. reflexivity.
Qed.

End WriteImageTheorems.

Section LoadFacts.
Context `{Externals}.

Lemma extract_metadata_inv data st md st' :
  extract_metadata data st = (Ret md, st') ->
  exists md0 zd md1 md2 md3 md4 s1 s2 s3,
    required_keys data
      [("seed", conv_int); ("latent_dim", conv_int); ("latent_scale", conv_float);
       ("x_dim", conv_int); ("y_dim", conv_int); ("c_dim", conv_int);
       ("device", conv_id)] ∅ = Ret md0 /\
    optional_keys data conv_int int_keys (<["z_dim" := zd]> md0) st = (Ret md1, s1) /\
    optional_keys data conv_float float_keys md1 s1 = (Ret md2, s2) /\
    optional_keys data conv_id str_keys md2 s2 = (Ret md3, s3) /\
    latents_key data md3 s3 = (Ret md4, st') /\
    normalize_legacy md4 = Ret md.
Proof.
  unfold extract_metadata. intros E.
  apply bind_ret_inv in E as (md0 & s0 & E0 & E). apply lift_ret_inv in E0 as [E0 ->].
  apply bind_ret_inv in E as (zd & s1 & E1 & E). apply lift_ret_inv in E1 as [E1 ->].
  apply bind_ret_inv in E as (md1 & s2 & E2 & E).
  apply bind_ret_inv in E as (md2 & s3 & E3 & E).
  apply bind_ret_inv in E as (md3 & s4 & E4 & E).
  apply bind_ret_inv in E as (md4 & s5 & E5 & E).
  apply lift_ret_inv in E as [E ->].
  exists md0, zd, md1, md2, md3, md4, s2, s3, s4. repeat split; assumption.
Qed.

Lemma required_keys_dom data keys md md' :
  required_keys data keys md = Ret md' ->
  dom md' = dom md ∪ list_to_set (map fst keys).
Proof.
  revert md. induction keys as [|[k conv] r IH]; intros md E; simpl in *.
  - inversion E. set_solver.
  - apply pbind_ret_inv in E as (v & _ & E).
    apply pbind_ret_inv in E as (c & _ & E).
    rewrite (IH _ E), dom_insert_L. set_solver.
Qed.

Lemma optional_keys_dom data conv keys md st md' st' :
  optional_keys data conv keys md st = (Ret md', st') ->
  dom md' = dom md ∪ list_to_set keys.
Proof.
  revert md st. induction keys as [|k r IH]; intros md st E; simpl in *.
  - inv_ret E. set_solver.
  - destruct (data !! k) as [v|]; inv_ret E;
      rewrite (IH _ _ E), dom_insert_L; set_solver.
Qed.

Lemma latents_key_dom data md st md' st' :
  latents_key data md st = (Ret md', st') -> dom md' = dom md ∪ {["latents"]}.
Proof.
  unfold latents_key. intros E.
  destruct (data !! "latents"); [|destruct (data !! "latent")];
    inv_ret E; rewrite dom_insert_L; set_solver.
Qed.

Lemma normalize_legacy_dom md md' :
  normalize_legacy md = Ret md' -> dom md' = dom md.
Proof.
  unfold normalize_legacy. intros E.
  apply pbind_ret_inv in E as (ied & Hied & E).
  apply pbind_ret_inv in E as (act & Hact & E).
  assert (Hi : "input_encoding_dim" ∈ dom md).
  { unfold subscript in Hied. apply elem_of_dom.
    destruct (md !! "input_encoding_dim"); [eauto | discriminate]. }
  set (md1 := match ied with
              | PNone => <["input_encoding_dim" := PInt 1]> md
              | _ => md
              end) in *.
  assert (H1 : dom md1 = dom md).
  { subst md1. destruct ied; try reflexivity. rewrite dom_insert_L. set_solver. }
  assert (Ha : "activations" ∈ dom md1).
  { unfold subscript in Hact. apply elem_of_dom.
    destruct (md1 !! "activations"); [eauto | discriminate]. }
  destruct act as [| | | |s| | |]; try (inversion E; subst; exact H1).
  destruct (String.eqb s "basic"); inversion E; subst; [|exact H1].
  rewrite dom_insert_L. set_solver.
Qed.

Lemma extract_metadata_dom data st md st' :
  extract_metadata data st = (Ret md, st') -> dom md = list_to_set schema.
Proof.
  intros E.
  destruct (extract_metadata_inv _ _ _ _ E)
    as (md0 & zd & md1 & md2 & md3 & md4 & s1 & s2 & s3 &
        E0 & E1 & E2 & E3 & E4 & E5).
  rewrite (normalize_legacy_dom _ _ E5), (latents_key_dom _ _ _ _ _ E4),
    (optional_keys_dom _ _ _ _ _ _ _ E3), (optional_keys_dom _ _ _ _ _ _ _ E2),
    (optional_keys_dom _ _ _ _ _ _ _ E1), dom_insert_L,
    (required_keys_dom _ _ _ _ E0), dom_empty_L.
  unfold schema, identity_keys, int_keys, float_keys, str_keys. simpl.
  set_solver.
Qed.

Lemma required_keys_at data keys md md' k conv :
  required_keys data keys md = Ret md' ->
  NoDup (map fst keys) -> In (k, conv) keys ->
  exists v c, data !! k = Some v /\ conv v = Ret c /\ md' !! k = Some c.
Proof.
  revert md. induction keys as [|[k0 conv0] r IH]; intros md E Hnd Hin; simpl in *.
  - contradiction.
  - apply NoDup_cons in Hnd as [Hk0 Hnd].
    apply pbind_ret_inv in E as (v & Hv & E).
    apply pbind_ret_inv in E as (c & Hc & E).
    destruct Hin as [Heq|Hin].
    + inversion Heq; subst k0 conv0. exists v, c.
      unfold subscript in Hv. destruct (data !! k) as [v'|]; [|discriminate Hv].
      inversion Hv; subst v'. split; [reflexivity|]. split; [exact Hc|].
      rewrite (required_keys_other _ _ _ _ k E).
      * apply lookup_insert_eq.
      * intros Hin'. apply Hk0. apply list_elem_of_In. exact Hin'.
    + exact (IH _ E Hnd Hin).
Qed.

End LoadFacts.

Section LoadTheorems.
Context `{Externals}.

Lemma world_emit e : preserves world (emit e).
Proof. intros st. reflexivity. Qed.

Lemma warns_ret {A} (a : A) : warns_only (ret a).
Proof. intros st. exists []. simpl. rewrite app_nil_r. split; reflexivity. Qed.

Lemma warns_raise {A} e : warns_only (@raise _ A e).
Proof. intros st. exists []. simpl. rewrite app_nil_r. split; reflexivity. Qed.

Lemma warns_lift {A} (r : PyResult A) : warns_only (lift r).
Proof. intros st. exists []. simpl. rewrite app_nil_r. split; reflexivity. Qed.

Lemma warns_get : warns_only get.
Proof. intros st. exists []. simpl. rewrite app_nil_r. split; reflexivity. Qed.

Lemma warns_assert b : warns_only (assert b).
Proof. destruct b; [apply warns_ret | apply warns_raise]. Qed.

Lemma warns_emit w : warns_only (emit (Warn w)).
Proof. intros st. exists [Warn w]. split; reflexivity. Qed.

Lemma warns_bind {A B} (c : M A) (k : A -> M B) :
  warns_only c -> (forall a, warns_only (k a)) -> warns_only (bind c k).
Proof.
  intros Hc Hk st. unfold bind. destruct (Hc st) as (ws & Hws & Hf).
  destruct (c st) as [[a|e] st1]; simpl in *.
  - destruct (Hk a st1) as (ws' & Hws' & Hf').
    exists (ws ++ ws')%list. rewrite Hws', Hws, app_assoc, forallb_app, Hf, Hf'.
    split; reflexivity.
  - exists ws. split; assumption.
Qed.

Lemma warns_optional_keys data conv keys md :
  warns_only (optional_keys data conv keys md).
Proof.
  revert md. induction keys as [|k r IH]; intros md; simpl.
  - apply warns_ret.
  - destruct (data !! k).
    + apply warns_bind; [apply warns_lift | intros c; apply IH].
    + apply warns_bind; [apply warns_emit | intros _; apply IH].
Qed.

Lemma warns_load_tif_metadata path : warns_only (load_tif_metadata path).
Proof.
  unfold load_tif_metadata, extract_metadata, latents_key.
  pose proof warns_optional_keys.
  repeat first
    [ apply warns_ret | apply warns_raise | apply warns_lift | apply warns_get
    | apply warns_assert | apply warns_emit | solve [auto]
    | apply warns_bind; [|intros ?]
    | match goal with
      | |- warns_only (match ?x with _ => _ end) => destruct x
      | |- warns_only (let '(_, _) := ?x in _) => destruct x
      end ].
Qed.

Lemma world_optional_keys data conv keys md :
  preserves world (optional_keys data conv keys md).
Proof.
  revert md. induction keys as [|k r IH]; intros md; simpl.
  - keeps.
  - destruct (data !! k).
    + apply preserves_bind; [keeps | intros c; apply IH].
    + apply preserves_bind; [apply world_emit | intros _; apply IH].
Qed.

Lemma world_load_tif_metadata path : preserves world (load_tif_metadata path).
Proof.
  unfold load_tif_metadata, extract_metadata, latents_key.
  pose proof world_optional_keys. pose proof world_emit.
  keeps.
Qed.

(** X6. Decoding is read-only: whatever its outcome, [load_tif_metadata]
    leaves the file system, torch's state, the bound model and the count of
    reconstructions as they were, and adds nothing but warnings to the
    log. *)
Theorem load_tif_metadata_only_warns path st :
  world (snd (load_tif_metadata path st)) = world st /\
  exists ws, events (snd (load_tif_metadata path st)) = (events st ++ ws)%list /\
             forallb is_warning ws = true.
Proof. split; [apply world_load_tif_metadata | apply warns_load_tif_metadata]. Qed.

Lemma extract_metadata_identity data st md st' k :
  extract_metadata data st = (Ret md, st') -> In k identity_keys ->
  exists conv v c,
    In (k, conv) [("seed", conv_int); ("latent_dim", conv_int);
                  ("latent_scale", conv_float); ("x_dim", conv_int);
                  ("y_dim", conv_int); ("c_dim", conv_int); ("device", conv_id)] /\
    data !! k = Some v /\ conv v = Ret c /\ md !! k = Some c.
Proof.
  intros E Hk.
  destruct (extract_metadata_inv _ _ _ _ E)
    as (md0 & zd & md1 & md2 & md3 & md4 & s1 & s2 & s3 &
        E0 & E1 & E2 & E3 & E4 & E5).
  assert (Hconv : exists conv,
             In (k, conv) [("seed", conv_int); ("latent_dim", conv_int);
                           ("latent_scale", conv_float); ("x_dim", conv_int);
                           ("y_dim", conv_int); ("c_dim", conv_int);
                           ("device", conv_id)]).
  { unfold identity_keys in Hk. simpl in Hk.
    destruct Hk as [<-|[<-|[<-|[<-|[<-|[<-|[<-|[]]]]]]]];
      eexists; simpl; eauto 10. }
  destruct Hconv as (conv & Hin).
  assert (Hnd : NoDup (map fst
             [("seed", conv_int); ("latent_dim", conv_int);
              ("latent_scale", conv_float); ("x_dim", conv_int);
              ("y_dim", conv_int); ("c_dim", conv_int); ("device", conv_id)])).
  { apply (bool_decide_unpack _). vm_compute. reflexivity. }
  destruct (required_keys_at _ _ _ _ _ _ E0 Hnd Hin) as (v & c & Hv & Hc & Hm).
  exists conv, v, c. repeat (split; [assumption|]).
  assert (Hne : forall k', In k' (int_keys ++ float_keys ++ str_keys ++
                                  ["latents"; "z_dim"])%list -> k <> k').
  { intros k' Hk' ->. unfold identity_keys in Hk. simpl in Hk, Hk'.
    destruct Hk as [<-|[<-|[<-|[<-|[<-|[<-|[<-|[]]]]]]]];
      repeat (destruct Hk' as [Hk'|Hk']; [discriminate Hk'|]); exact Hk'. }
  assert (Hi : ~ In k int_keys)
    by (intros Hx; apply (Hne k); [rewrite !in_app_iff; tauto | reflexivity]).
  assert (Hf : ~ In k float_keys)
    by (intros Hx; apply (Hne k); [rewrite !in_app_iff; tauto | reflexivity]).
  assert (Hs : ~ In k str_keys)
    by (intros Hx; apply (Hne k); [rewrite !in_app_iff; tauto | reflexivity]).
  assert (Hl : k <> "latents")
    by (apply Hne; rewrite !in_app_iff; right; right; right; left; reflexivity).
  assert (Hz : "z_dim" <> k)
    by (intros Hx; apply (Hne "z_dim");
        [rewrite !in_app_iff; right; right; right; right; left; reflexivity
        |symmetry; exact Hx]).
  assert (Hied : k <> "input_encoding_dim")
    by (apply Hne; rewrite !in_app_iff; left;
        right; right; left; reflexivity).
  assert (Hact : k <> "activations")
    by (apply Hne; rewrite !in_app_iff; right; right; left; left; reflexivity).
  clear Hne Hk Hin Hnd.
  rewrite (normalize_legacy_other _ _ k E5 Hied Hact).
  rewrite (latents_key_other _ _ _ _ _ k E4 Hl).
  rewrite (optional_keys_other _ _ _ _ _ _ _ k E3 Hs).
  rewrite (optional_keys_other _ _ _ _ _ _ _ k E2 Hf).
  rewrite (optional_keys_other _ _ _ _ _ _ _ k E1 Hi).
  rewrite lookup_insert_ne by exact Hz.
  exact Hm.
Qed.

Lemma optional_keys_events data conv keys md st md' st' :
  optional_keys data conv keys md st = (Ret md', st') ->
  events st' = (events st ++ map (fun k => Warn (KeyNotFound k)) (absent data keys))%list.
Proof.
  revert md st. induction keys as [|k r IH]; intros md st E; simpl in *.
  - inv_ret E. rewrite app_nil_r. reflexivity.
  - destruct (data !! k) as [v|]; inv_ret E.
    + exact (IH _ _ E).
    + rewrite (IH _ _ E). simpl. rewrite <- app_assoc. reflexivity.
Qed.

Lemma latents_key_events data md st md' st' :
  latents_key data md st = (Ret md', st') ->
  events st' = (events st ++ latents_warning data)%list.
Proof.
  unfold latents_key, latents_warning. intros E.
  destruct (data !! "latents"); [|destruct (data !! "latent")]; inv_ret E;
    simpl; rewrite ?app_nil_r; reflexivity.
Qed.

Lemma absent_app data k1 k2 :
  absent data (k1 ++ k2) = (absent data k1 ++ absent data k2)%list.
Proof. apply List.filter_app. Qed.

Lemma absent_In data keys k :
  In k (absent data keys) <-> In k keys /\ data !! k = None.
Proof.
  unfold absent. rewrite List.filter_In.
  destruct (data !! k); split; intros [? ?]; split; congruence.
Qed.

Lemma load_tif_metadata_dom path st oi md st' :
  load_tif_metadata path st = (Ret (oi, Some md), st') ->
  dom md = list_to_set schema.
Proof.
  intros E. destruct (load_tif_metadata_pair _ _ _ _ _ E) as (img & ->).
  destruct (load_tif_metadata_inv _ _ _ _ _ E) as (data & _ & Ex).
  exact (extract_metadata_dom _ _ _ _ Ex).
Qed.

Lemma load_tif_metadata_no_latent path st oi md st' :
  load_tif_metadata path st = (Ret (oi, Some md), st') -> md !! "latent" = None.
Proof.
  intros E. apply not_elem_of_dom.
  rewrite (load_tif_metadata_dom _ _ _ _ _ E), elem_of_list_to_set.
  apply (bool_decide_unpack _). vm_compute. reflexivity.
Qed.

(** X7. A decoded metadata dictionary has exactly the twenty-two keys of the
    schema, whatever the block held; the legacy key [latent] is never one of
    them. *)
Theorem load_tif_metadata_schema path st oi md st' :
  load_tif_metadata path st = (Ret (oi, Some md), st') ->
  dom md = list_to_set schema /\ md !! "latent" = None.
Proof.
  intros E. split.
  - exact (load_tif_metadata_dom _ _ _ _ _ E).
  - exact (load_tif_metadata_no_latent _ _ _ _ _ E).
Qed.

(** X8. Whenever [load_tif_metadata] returns a decoded pair, the block held
    all seven identity fields, and each is returned as converted: the six
    numeric ones through [int] or [float], the device as stored. *)
Theorem load_tif_metadata_identity_fields path st oi md st' :
  load_tif_metadata path st = (Ret (oi, Some md), st') ->
  exists img data,
    oi = Some img /\ read_tiff (fs st) path = Ret (img, data) /\
    (forall k, In k identity_int_keys ->
       exists v z, data !! k = Some v /\ py_int v = Ret z /\
                   md !! k = Some (PInt z)) /\
    (exists v f, data !! "latent_scale" = Some v /\ py_float v = Ret f /\
                 md !! "latent_scale" = Some (PFloat f)) /\
    (exists v, data !! "device" = Some v /\ md !! "device" = Some v).
Proof.
  intros E. destruct (load_tif_metadata_pair _ _ _ _ _ E) as (img & ->).
  destruct (load_tif_metadata_inv _ _ _ _ _ E) as (data & Hr & Ex).
  exists img, data. split; [reflexivity|]. split; [exact Hr|].
  assert (Hall := fun k => extract_metadata_identity _ _ _ _ k Ex).
  split; [|split].
  - intros k Hk.
    destruct (Hall k) as (conv & v & c & Hin & Hv & Hc & Hm).
    { unfold identity_keys, identity_int_keys in *. simpl in *. tauto. }
    assert (conv = conv_int) as ->.
    { unfold identity_int_keys in Hk. simpl in Hk, Hin.
      destruct Hk as [<-|[<-|[<-|[<-|[<-|[]]]]]];
        repeat (destruct Hin as [Hin|Hin];
                [inversion Hin; try reflexivity|]); try contradiction. }
    unfold conv_int in Hc. apply pbind_ret_inv in Hc as (z & Hz & Hc).
    inversion Hc; subst c. exists v, z. auto.
  - destruct (Hall "latent_scale") as (conv & v & c & Hin & Hv & Hc & Hm).
    { unfold identity_keys. simpl. tauto. }
    assert (conv = conv_float) as ->.
    { simpl in Hin.
      repeat (destruct Hin as [Hin|Hin];
              [inversion Hin; try reflexivity|]); try contradiction. }
    unfold conv_float in Hc. apply pbind_ret_inv in Hc as (f & Hf & Hc).
    inversion Hc; subst c. exists v, f. auto.
  - destruct (Hall "device") as (conv & v & c & Hin & Hv & Hc & Hm).
    { unfold identity_keys. simpl. tauto. }
    assert (conv = conv_id) as ->.
    { simpl in Hin.
      repeat (destruct Hin as [Hin|Hin];
              [inversion Hin; try reflexivity|]); try contradiction. }
    unfold conv_id in Hc. inversion Hc; subst c. exists v. auto.
Qed.

Lemma required_keys_missing data keys md k :
  In k (map fst keys) -> data !! k = None ->
  exists e, required_keys data keys md = Raise e.
Proof.
  revert md. induction keys as [|[k0 conv0] r IH]; intros md Hin Hk; simpl in *.
  - contradiction.
  - unfold subscript at 1. destruct (data !! k0) as [v|] eqn:Dv.
    + simpl. destruct (conv0 v) as [c|e]; simpl.
      * destruct Hin as [->|Hin]; [congruence|]. exact (IH _ Hin Hk).
      * eauto.
    + simpl. eauto.
Qed.

(** X9. A readable archival file whose block lacks one of the seven
    identity fields is not a soft failure: the exception of the missing key
    (or of an earlier field's conversion) escapes [load_tif_metadata], before
    anything is warned. *)
Theorem load_tif_metadata_missing_identity_raises path st img data k :
  read_tiff (fs st) path = Ret (img, data) ->
  In k identity_keys -> data !! k = None ->
  exists e, load_tif_metadata path st = (Raise e, st).
Proof.
  intros Hr Hk Hd.
  destruct (required_keys_missing data
              [("seed", conv_int); ("latent_dim", conv_int);
               ("latent_scale", conv_float); ("x_dim", conv_int);
               ("y_dim", conv_int); ("c_dim", conv_int); ("device", conv_id)]
              ∅ k) as (e & He); [exact Hk | exact Hd |].
  exists e. unfold load_tif_metadata. cbv [bind get assert].
  assert (Hf : isfile (fs st) path = true).
  { unfold read_tiff in Hr. unfold isfile.
    destruct (fs_lookup (fs st) path) as [[|c]|]; try discriminate Hr.
    reflexivity. }
  rewrite Hf. cbv [ret]. rewrite Hr.
  unfold extract_metadata. cbv [bind lift]. rewrite He. reflexivity.
Qed.

(** X10. The log of a successful decoding is exact: one warning for each
    absent optional key, in schema order, then the one of the latent loop;
    an absent optional key decodes to None (the input-encoding width to 1),
    and a string key that is present is returned verbatim (the activation
    family apart). *)
Theorem load_tif_metadata_optional_fields path st oi md st' :
  load_tif_metadata path st = (Ret (oi, Some md), st') ->
  exists img data,
    oi = Some img /\ read_tiff (fs st) path = Ret (img, data) /\
    events st' =
      (events st ++
       map (fun k => Warn (KeyNotFound k))
           (absent data (int_keys ++ float_keys ++ str_keys)) ++
       latents_warning data)%list /\
    (forall k, In k (absent data (int_keys ++ float_keys ++ str_keys)) ->
       md !! k = Some (if String.eqb k "input_encoding_dim" then PInt 1 else PNone)) /\
    (forall k v, In k str_keys -> k <> "activations" -> data !! k = Some v ->
       md !! k = Some v).
Proof.
  intros E. destruct (load_tif_metadata_pair _ _ _ _ _ E) as (img & ->).
  destruct (load_tif_metadata_inv _ _ _ _ _ E) as (data & Hr & Ex).
  exists img, data. split; [reflexivity|]. split; [exact Hr|].
  destruct (extract_metadata_inv _ _ _ _ Ex)
    as (md0 & zd & md1 & md2 & md3 & md4 & s1 & s2 & s3 &
        E0 & E1 & E2 & E3 & E4 & E5).
  split; [|split].
  - rewrite (latents_key_events _ _ _ _ _ E4),
      (optional_keys_events _ _ _ _ _ _ _ E3),
      (optional_keys_events _ _ _ _ _ _ _ E2),
      (optional_keys_events _ _ _ _ _ _ _ E1).
    rewrite !absent_app, !map_app, <- !app_assoc. reflexivity.
  - intros k Hk. apply absent_In in Hk as [Hk Hd].
    assert (Hmd4 : md4 !! k = Some PNone).
    { assert (Hl : k <> "latents").
      { intros ->. unfold int_keys, float_keys, str_keys in Hk. simpl in Hk.
        repeat (destruct Hk as [Hk|Hk]; [discriminate Hk|]). exact Hk. }
      rewrite (latents_key_other _ _ _ _ _ k E4 Hl).
      destruct (in_dec string_dec k str_keys) as [Hs|Hs].
      { pose proof (optional_keys_at _ _ _ _ _ _ _ k E3 Hs) as Hat.
        rewrite Hd in Hat. exact Hat. }
      rewrite (optional_keys_other _ _ _ _ _ _ _ k E3 Hs).
      destruct (in_dec string_dec k float_keys) as [Hf|Hf].
      { pose proof (optional_keys_at _ _ _ _ _ _ _ k E2 Hf) as Hat.
        rewrite Hd in Hat. exact Hat. }
      rewrite (optional_keys_other _ _ _ _ _ _ _ k E2 Hf).
      assert (Hi : In k int_keys).
      { apply in_app_or in Hk as [Hk|Hk]; [exact Hk|].
        apply in_app_or in Hk as [Hk|Hk]; contradiction. }
      pose proof (optional_keys_at _ _ _ _ _ _ _ k E1 Hi) as Hat.
      rewrite Hd in Hat. exact Hat. }
    destruct (String.eqb_spec k "input_encoding_dim") as [->|Hne].
    + destruct (normalize_legacy_input_encoding_dim _ _ E5) as (v & Hv & Hv').
      rewrite Hmd4 in Hv. inversion Hv; subst v. exact Hv'.
    + destruct (string_dec k "activations") as [->|Hna].
      * destruct (normalize_legacy_activations _ _ E5) as (v & Hv & Hv').
        rewrite Hmd4 in Hv. inversion Hv; subst v. exact Hv'.
      * rewrite (normalize_legacy_other _ _ k E5 Hne Hna). exact Hmd4.
  - intros k v Hk Hna Hd.
    assert (Hne : k <> "input_encoding_dim").
    { intros ->. unfold str_keys in Hk. simpl in Hk.
      repeat (destruct Hk as [Hk|Hk]; [discriminate Hk|]). exact Hk. }
    rewrite (normalize_legacy_other _ _ k E5 Hne Hna).
    assert (Hl : k <> "latents").
    { intros ->. unfold str_keys in Hk. simpl in Hk.
      repeat (destruct Hk as [Hk|Hk]; [discriminate Hk|]). exact Hk. }
    rewrite (latents_key_other _ _ _ _ _ k E4 Hl).
    pose proof (optional_keys_at _ _ _ _ _ _ _ k E3 Hk) as Hat.
    rewrite Hd in Hat. destruct Hat as (c & Hc & Hm).
    unfold conv_id in Hc. inversion Hc; subst c. exact Hm.
Qed.

End LoadTheorems.

Section RunFramesMore.
Context `{Externals}.

Lemma fs_render latents zs ps splits i : preserves fs (render latents zs ps splits i).
Proof. unfold render. keeps. Qed.

(** X11. Without [autosave], [run_frames] never touches the file system,
    whatever the model does and whether or not the call returns. *)
Theorem run_frames_autosave_off_keeps_files self latents num_samples zs ps splits st :
  fs (snd (run_frames self latents num_samples zs ps splits false st)) = fs st.
Proof.
  revert st. change (preserves fs (run_frames self latents num_samples zs ps splits false)).
  unfold run_frames.
  apply preserves_bind; [keeps | intros st0].
  apply preserves_bind; [keeps | intros _].
  apply preserves_bind; [keeps | intros randID].
  apply preserves_bind; [keeps | intros _].
  apply preserves_for_each. intros i [frames metas].
  unfold run_frames_body. pose proof fs_render. keeps.
Qed.

Lemma for_each_ret_each {A S} (body : A -> S -> M S) l :
  forall s st s' st', for_each body l s st = (Ret s', st') ->
  forall a, In a l -> exists s0 st0 s1 st1, body a s0 st0 = (Ret s1, st1).
Proof.
  induction l as [|a0 r IH]; intros s st s' st' E a Ha; simpl in *.
  - contradiction.
  - apply bind_ret_inv in E as (s1 & st1 & E1 & E).
    destruct Ha as [->|Ha].
    + exists s, st, s1, st1. exact E1.
    + exact (IH _ _ _ _ E a Ha).
Qed.

Lemma schedule_at_ret sched i d v :
  schedule_at sched i d = Ret v -> forall l, sched = Some l -> i < length l.
Proof.
  unfold schedule_at. intros E l ->.
  destruct (nth_error l i) eqn:N; [|discriminate E].
  apply nth_error_Some. congruence.
Qed.

Lemma render_ret_schedules latents zs ps splits i st r st' :
  render latents zs ps splits i st = (Ret r, st') ->
  (forall l, zs = Some l -> i < length l) /\ (forall l, ps = Some l -> i < length l).
Proof.
  unfold render. intros E.
  apply bind_ret_inv in E as (zoom & s1 & Ez & E).
  apply lift_ret_inv in Ez as [Ez ->].
  apply bind_ret_inv in E as (pan & s2 & Ep & E).
  apply lift_ret_inv in Ep as [Ep ->].
  split; eapply schedule_at_ret; eassumption.
Qed.

(** X12. A call of [run_frames] that returns had a zoom value and a pan
    value for every iteration: a schedule that is given has at least
    [num_samples] entries. With a shorter one the call cannot return; the
    missing entry is looked up before the frame is generated, so a
    rejected frame needs its entry too. *)
Theorem run_frames_schedules_cover self latents num_samples zs ps splits autosave
    st r st' :
  run_frames self latents num_samples zs ps splits autosave st = (Ret r, st') ->
  (forall l, zs = Some l -> num_samples <= length l) /\
  (forall l, ps = Some l -> num_samples <= length l).
Proof.
  intros E. unfold run_frames in E.
  apply bind_ret_inv in E as (st0 & st0' & _ & E).
  apply bind_ret_inv in E as (u & st1 & _ & E).
  apply bind_ret_inv in E as (randID & st2 & _ & E).
  apply bind_ret_inv in E as (u' & st3 & _ & E).
  destruct num_samples as [|n]; [split; intros; lia|].
  destruct (for_each_ret_each _ _ _ _ _ _ E n) as ([fr ms] & sa & s1 & sb & Eb).
  { apply in_seq. lia. }
  unfold run_frames_body in Eb.
  apply bind_ret_inv in Eb as (rr & sr & Er & _).
  destruct (render_ret_schedules _ _ _ _ _ _ _ _ Er) as [Hz Hp].
  split; intros l Hl; [specialize (Hz l Hl) | specialize (Hp l Hl)]; lia.
Qed.

Lemma reshape_batch_ret m vals batch :
  reshape_batch m vals = Ret batch ->
  length vals = batch * (x_dim m * y_dim m * c_dim m).
Proof.
  unfold reshape_batch. intros E.
  destruct (x_dim m * y_dim m * c_dim m =? 0)%nat eqn:C; [discriminate E|].
  apply Nat.eqb_neq in C.
  destruct (length vals mod (x_dim m * y_dim m * c_dim m) =? 0)%nat eqn:D;
    [|discriminate E].
  apply Nat.eqb_eq in D. inversion E; subst batch.
  pose proof (Nat.div_mod_eq (length vals) (x_dim m * y_dim m * c_dim m)). lia.
Qed.

Lemma render_ret_well_formed latents zs ps splits i st f ml st' :
  render latents zs ps splits i st = (Ret (f, ml), st') ->
  well_formed f /\
  exists m, self_model st' = Some m /\
    (frame_shape f = [x_dim m; y_dim m; c_dim m] \/
     exists batch, batch <> 1 /\ frame_shape f = [batch; x_dim m; y_dim m; c_dim m]).
Proof.
  unfold render. intros E.
  apply bind_ret_inv in E as (zoom & s1 & Ez & E).
  apply lift_ret_inv in Ez as [Ez ->].
  apply bind_ret_inv in E as (pan & s2 & Ep & E).
  apply lift_ret_inv in Ep as [Ep ->].
  apply bind_ret_inv in E as (s3 & s3' & Eg & E).
  cbv [get] in Eg. inversion Eg; subst s3 s3'.
  destruct (self_model st) as [m0|]; [|discriminate E].
  apply bind_ret_inv in E as ([m [[lg inp] ml']] & s4 & Ec & E).
  apply bind_ret_inv in E as (u & s5 & Es & E).
  cbv [set_model] in Es. inversion Es; subst u s5.
  apply bind_ret_inv in E as (vals & s6 & Ev & E).
  assert (Hm6 : self_model s6 = Some m).
  { unfold call_torch in Ev. simpl in Ev.
    destruct (generate m lg inp splits (torch s4)) as [[v|e] t]; inversion Ev; subst.
    reflexivity. }
  apply bind_ret_inv in E as (batch & s7 & Eb & E).
  apply lift_ret_inv in Eb as [Eb ->].
  cbv [ret] in E. inversion E; subst f ml st'. clear E.
  pose proof (reshape_batch_ret _ _ _ Eb) as Hlen.
  split; [split|].
  - simpl. rewrite length_map, Hlen. unfold size_of.
    destruct (batch =? 1)%nat eqn:B; simpl.
    + apply Nat.eqb_eq in B. subst batch. lia.
    + lia.
  - simpl. apply List.Forall_forall. intros p Hp.
    apply in_map_iff in Hp as (x & <- & _).
    unfold denormalize.
    destruct (final_activation m) as [| | | |s| | |]; try apply to_uint8_range.
    destruct (String.eqb s "sigmoid"); [apply to_uint8_range|].
    destruct (String.eqb s "tanh"); apply to_uint8_range.
  - exists m. split; [exact Hm6|]. simpl.
    destruct (batch =? 1)%nat eqn:B.
    + left. reflexivity.
    + right. exists batch. apply Nat.eqb_neq in B. split; [exact B | reflexivity].
Qed.

Lemma call_torch_ret_inv {A} (f : torch_state -> PyResult A * torch_state) st a st' :
  call_torch f st = (Ret a, st') ->
  exists t, f (torch st) = (Ret a, t) /\
            st' = mkState (fs st) (events st) t (self_model st) (recon_calls st).
Proof.
  unfold call_torch. destruct (f (torch st)) as [r t]. intros E.
  inversion E; subst. exists t. split; reflexivity.
Qed.

Lemma self_model_emit e : preserves self_model (emit e).
Proof. intros st. reflexivity. Qed.

Lemma self_model_set_fs f : preserves self_model (set_fs f).
Proof. intros st. reflexivity. Qed.

Lemma self_model_cv2_imwrite path img : preserves self_model (cv2_imwrite path img).
Proof. unfold cv2_imwrite. pose proof self_model_set_fs. keeps. Qed.

Lemma self_model_write_colormapped path suffix imgs :
  preserves self_model (write_colormapped path suffix imgs).
Proof.
  induction imgs as [|[cmap img] r IH]; simpl.
  - keeps.
  - apply preserves_bind; [apply self_model_cv2_imwrite | intros _].
    apply preserves_bind; [unfold assert_isfile; keeps | intros _; exact IH].
Qed.

Lemma self_model_write_image path img suffix metadata cms :
  preserves self_model (write_image path img suffix metadata cms).
Proof.
  unfold write_image, tifffile_imwrite, assert_isfile.
  pose proof self_model_cv2_imwrite. pose proof self_model_write_colormapped.
  pose proof self_model_set_fs. pose proof self_model_emit.
  keeps.
Qed.

Lemma render_ret_generated latents zs ps splits i st f ml st' m0 m :
  render latents zs ps splits i st = (Ret (f, ml), st') ->
  self_model st = Some m -> model_after latents m0 m ->
  generated_from latents zs ps splits m0 i f /\
  exists m', self_model st' = Some m' /\ model_after latents m0 m'.
Proof.
  unfold render. intros E Hm Ha.
  apply bind_ret_inv in E as (zoom & s1 & Ez & E).
  apply lift_ret_inv in Ez as [Ez ->].
  apply bind_ret_inv in E as (pan & s2 & Ep & E).
  apply lift_ret_inv in Ep as [Ep ->].
  apply bind_ret_inv in E as (s3 & s3' & Eg & E).
  cbv [get] in Eg. inversion Eg; subst s3 s3'.
  rewrite Hm in E.
  apply bind_ret_inv in E as ([m' [[lg inp] ml']] & s4 & Ec & E).
  apply call_torch_ret_inv in Ec as (t1 & Ec & ->).
  apply bind_ret_inv in E as (u & s5 & Es & E).
  cbv [set_model] in Es. inversion Es; subst u s5. clear Es.
  apply bind_ret_inv in E as (vals & s6 & Ev & E).
  apply call_torch_ret_inv in Ev as (t2 & Ev & ->).
  cbn [torch fs events self_model recon_calls] in *.
  apply bind_ret_inv in E as (batch & s7 & Eb & E).
  apply lift_ret_inv in Eb as [Eb ->].
  cbv [ret] in E. inversion E; subst f ml st'. clear E.
  assert (Ha' : model_after latents m0 m')
    by (eapply model_after_step; eassumption).
  split.
  - exists zoom, pan, m, (torch st), m', lg, inp, ml', t1, vals, t2.
    repeat (split; [first [assumption | reflexivity]|]).
    cbn [frame_shape].
    destruct (batch =? 1)%nat eqn:B.
    + left. reflexivity.
    + right. exists batch. apply Nat.eqb_neq in B. split; [exact B | reflexivity].
  - exists m'. split; [reflexivity | exact Ha'].
Qed.

Lemma run_frames_body_model self latents zs ps splits autosave randID i
    frames metas st frames' metas' st' m0 m :
  run_frames_body self latents zs ps splits autosave randID i (frames, metas) st
    = (Ret (frames', metas'), st') ->
  self_model st = Some m -> model_after latents m0 m ->
  (exists m', self_model st' = Some m' /\ model_after latents m0 m') /\
  (frames' = frames \/
   exists f, frames' = (frames ++ [f])%list /\ well_formed f /\
             generated_from latents zs ps splits m0 i f).
Proof.
  unfold run_frames_body. intros E Hm Ha.
  apply bind_ret_inv in E as ([f ml] & st_r & Er & E).
  destruct (render_ret_generated _ _ _ _ _ _ _ _ _ _ _ Er Hm Ha)
    as (Hg & m' & Hm' & Ha').
  pose proof (proj1 (render_ret_well_formed _ _ _ _ _ _ _ _ _ Er)) as Hw.
  assert (Hkeep : self_model st' = self_model st_r).
  { revert E. apply preserves_ret_inv.
    pose proof self_model_write_image. pose proof self_model_emit. keeps. }
  split; [exists m'; split; [congruence | exact Ha']|].
  apply bind_ret_inv in E as (blank & st_b & _ & E).
  destruct blank.
  - left.
    apply bind_ret_inv in E as (u & st_e & _ & E).
    cbv [ret] in E. inversion E. reflexivity.
  - right.
    apply bind_ret_inv in E as (st_g & st_g' & _ & E).
    apply bind_ret_inv in E as (md & st_m & _ & E).
    apply bind_ret_inv in E as (u & st_w & _ & E).
    cbv [ret] in E. inversion E.
    exists f. split; [reflexivity|]. split; assumption.
Qed.

Lemma run_frames_loop_models self latents zs ps splits autosave randID m0 bound l :
  forall frames metas st frames' metas' st' m,
  for_each (run_frames_body self latents zs ps splits autosave randID)
           l (frames, metas) st = (Ret (frames', metas'), st') ->
  Forall (fun i => i < bound) l ->
  self_model st = Some m -> model_after latents m0 m ->
  Forall (fun f => well_formed f /\
                   exists i, i < bound /\
                             generated_from latents zs ps splits m0 i f) frames ->
  Forall (fun f => well_formed f /\
                   exists i, i < bound /\
                             generated_from latents zs ps splits m0 i f) frames'.
Proof.
  induction l as [|i l IH]; intros frames metas st frames' metas' st' m E Hl Hm Ha Hf;
    simpl in E.
  - cbv [ret] in E. inversion E; subst. exact Hf.
  - apply bind_ret_inv in E as ([frames1 metas1] & st1 & Eb & E).
    inversion Hl as [|? ? Hi Hl']; subst.
    destruct (run_frames_body_model _ _ _ _ _ _ _ _ _ _ _ _ _ _ _ _ Eb Hm Ha)
      as ((m' & Hm' & Ha') & Hfr).
    apply (IH _ _ _ _ _ _ _ E Hl' Hm' Ha').
    destruct Hfr as [-> | (f & -> & Hw & Hg)]; [exact Hf|].
    apply Forall_app. split; [exact Hf|].
    constructor; [|constructor].
    split; [exact Hw|]. exists i. split; [exact Hi | exact Hg].
Qed.

(** X13. Every frame that [run_frames] returns was generated by the
    runner's own model: the model bound at the start of the call, as
    [init_latent_inputs] left it in some iteration [i < num_samples], took
    the zoom and pan of that iteration and generated the values; the
    pixels of the frame are these values taken to uint8 by that model's
    activation, there are as many of them as the shape says, and the shape
    is the model's output shape (x, y, c), with the batch in front when it
    is not 1. *)
Theorem run_frames_frames_well_formed self latents num_samples zs ps splits autosave
    st frames metas st' :
  run_frames self latents num_samples zs ps splits autosave st
    = (Ret (frames, metas), st') ->
  exists m0,
    self_model st = Some m0 /\
    Forall (fun f =>
              well_formed f /\
              exists i, i < num_samples /\
                        generated_from latents zs ps splits m0 i f)
           frames.
Proof.
  intros E. unfold run_frames in E.
  apply bind_ret_inv in E as (st0 & st0' & Eg & E).
  cbv [get] in Eg. inversion Eg; subst st0 st0'.
  apply bind_ret_inv in E as (u & st1 & Ea & E).
  apply assert_ret_inv in Ea as [Hb ->].
  destruct (self_model st) as [m0|] eqn:Hm; [|discriminate Hb].
  apply bind_ret_inv in E as (randID & st2 & Er & E).
  apply call_torch_ret_inv in Er as (t & _ & ->).
  apply bind_ret_inv in E as (u' & st3 & Ee & E).
  cbv [emit] in Ee. inversion Ee; subst u' st3. clear Ee.
  exists m0. split; [reflexivity|].
  refine (run_frames_loop_models _ _ _ _ _ _ _ m0 num_samples _ _ _ _ _ _ _ m0
            E _ Hm (model_after_refl _ _) (List.Forall_nil _)).
  apply List.Forall_forall. intros i Hi. apply in_seq in Hi. lia.
Qed.

End RunFramesMore.

Section ReinitMore.
Context `{Externals}.

Lemma subscripts_ret md keys vs :
  subscripts (Some md) keys = Ret vs ->
  Forall2 (fun k v => md !! k = Some v) keys vs.
Proof.
  revert vs. induction keys as [|k r IH]; intros vs E; simpl in E.
  - inversion E. constructor.
  - apply pbind_ret_inv in E as (v & Hv & E).
    apply pbind_ret_inv in E as (vs' & Hvs & E).
    inversion E; subst vs. constructor; [|exact (IH _ Hvs)].
    unfold subscript in Hv. destruct (md !! k); [congruence | discriminate Hv].
Qed.

(** X14. A call of [reinit_model_from_metadata] with a metadata dictionary of
    the caller's returns only for an output shape of three entries and a
    dictionary that has the three constructor fields, the eleven map
    fields and the key [latent], whose value it returns; it has then
    constructed exactly one model, bound it to the runner, and touched
    neither the files nor the log. *)
Theorem reinit_model_from_metadata_explicit self shape path md st v st' :
  reinit_model_from_metadata self shape path (Some md) st = (Ret v, st') ->
  length shape = 3 /\
  md !! "latent" = Some v /\
  Forall (fun k => is_Some (md !! k))
         ("latent_dim" :: "latent_scale" :: "seed" :: map_fn_keys) /\
  recon_calls st' = S (recon_calls st) /\
  is_Some (self_model st') /\
  fs st' = fs st /\ events st' = events st.
Proof.
  unfold reinit_model_from_metadata. intros E.
  apply bind_ret_inv in E as (metadata & s1 & El & E).
  cbv [ret] in El. inversion El; subst metadata s1; clear El.
  apply bind_ret_inv in E as (u & s2 & Ea & E).
  apply assert_ret_inv in Ea as [Ha ->]. apply Nat.eqb_eq in Ha.
  apply bind_ret_inv in E as (ld & s3 & E1 & E).
  apply lift_ret_inv in E1 as [E1 ->].
  apply bind_ret_inv in E as (ls & s4 & E2 & E).
  apply lift_ret_inv in E2 as [E2 ->].
  apply bind_ret_inv in E as (sd & s5 & E3 & E).
  apply lift_ret_inv in E3 as [E3 ->].
  apply bind_ret_inv in E as (u1 & s6 & Ec & E).
  cbv [count_reconstruction] in Ec. inversion Ec; subst u1 s6; clear Ec.
  apply bind_ret_inv in E as (m & s7 & Em & E).
  apply call_torch_ret_inv in Em as (t1 & _ & ->).
  apply bind_ret_inv in E as (args & s8 & Es & E).
  apply lift_ret_inv in Es as [Es ->].
  apply bind_ret_inv in E as (m' & s9 & Em' & E).
  apply call_torch_ret_inv in Em' as (t2 & _ & ->).
  apply bind_ret_inv in E as (u2 & s10 & Eset & E).
  cbv [set_model] in Eset. inversion Eset; subst u2 s10; clear Eset.
  apply lift_ret_inv in E as [E ->]. simpl.
  simpl in E, E1, E2, E3. unfold subscript in E, E1, E2, E3.
  split; [exact Ha|]. split.
  { destruct (md !! "latent"); [congruence | discriminate E]. }
  split.
  { constructor; [destruct (md !! "latent_dim"); [eauto | discriminate E1]|].
    constructor; [destruct (md !! "latent_scale"); [eauto | discriminate E2]|].
    constructor; [destruct (md !! "seed"); [eauto | discriminate E3]|].
    apply subscripts_ret in Es. fold map_fn_keys in Es.
    clear - Es. induction Es; constructor; eauto. }
  repeat split; eauto.
Qed.

Lemma subscripts_total md keys :
  Forall (fun k => is_Some (md !! k)) keys ->
  exists args, subscripts (Some md) keys = Ret args.
Proof.
  induction 1 as [|k r [v Hv] _ [args IH]]; simpl.
  - exists []. reflexivity.
  - unfold subscript. rewrite Hv. simpl. rewrite IH. simpl.
    exists (v :: args). reflexivity.
Qed.

Lemma schema_is_Some (md : gmap string pyval) k :
  dom md = list_to_set schema -> In k schema -> is_Some (md !! k).
Proof.
  intros Hd Hk. apply elem_of_dom. rewrite Hd.
  apply elem_of_list_to_set, list_elem_of_In, Hk.
Qed.

(** X15. From a file, [reinit_model_from_metadata] fails after the fact:
    when the file decodes and the shape has three entries, the constructor
    fields and the eleven map fields are all there, and if both constructor
    calls succeed the runner's model has been replaced by the new one when
    the call ends with KeyError('latent'), the decoder's key being
    [latents]. *)
Theorem reinit_model_from_file_replaces_then_fails self shape path st oi md st1 :
  load_tif_metadata path st = (Ret (oi, Some md), st1) ->
  length shape = 3 ->
  exists ld ls sd args,
    md !! "latent_dim" = Some ld /\ md !! "latent_scale" = Some ls /\
    md !! "seed" = Some sd /\
    subscripts (Some md) map_fn_keys = Ret args /\
    forall m t1 m' t2,
      INRF2D shape (output_dir self) ld ls sd (torch st1) = (Ret m, t1) ->
      init_map_fn m args t1 = (Ret m', t2) ->
      reinit_model_from_metadata self shape path None st =
        (Raise (KeyError "latent"),
         mkState (fs st) (events st1) t2 (Some m') (S (recon_calls st))).
Proof.
  intros El Hs.
  pose proof (load_tif_metadata_no_latent _ _ _ _ _ El) as Hlat.
  pose proof (load_tif_metadata_dom _ _ _ _ _ El) as Hdom.
  pose proof (world_load_tif_metadata path st) as Hw.
  rewrite El in Hw. simpl in Hw. unfold world in Hw.
  inversion Hw as [[Hfs Ht Hsm Hrc]].
  destruct (schema_is_Some md "latent_dim" Hdom) as [ld Hld];
    [unfold schema, identity_keys; simpl; tauto|].
  destruct (schema_is_Some md "latent_scale" Hdom) as [ls Hls];
    [unfold schema, identity_keys; simpl; tauto|].
  destruct (schema_is_Some md "seed" Hdom) as [sd Hsd];
    [unfold schema, identity_keys; simpl; tauto|].
  destruct (subscripts_total md map_fn_keys) as [args Hargs].
  { apply List.Forall_forall. intros k Hk. apply (schema_is_Some md k Hdom).
    revert k Hk. apply List.Forall_forall.
    repeat (constructor; [unfold schema, identity_keys, int_keys, float_keys, str_keys;
                          simpl; tauto|]).
    constructor. }
  exists ld, ls, sd, args. repeat (split; [assumption|]).
  intros m t1 m' t2 Hm Hm'.
  unfold reinit_model_from_metadata. fold map_fn_keys.
  rewrite (bind_ret_intro _ _ st (Some md) st1)
    by (cbv [bind ret]; rewrite El; reflexivity).
  rewrite Hs.
  rewrite (bind_ret_intro _ _ st1 tt st1) by reflexivity.
  rewrite (bind_ret_intro _ _ st1 ld st1)
    by (cbv [lift]; simpl; unfold subscript; rewrite Hld; reflexivity).
  rewrite (bind_ret_intro _ _ st1 ls st1)
    by (cbv [lift]; simpl; unfold subscript; rewrite Hls; reflexivity).
  rewrite (bind_ret_intro _ _ st1 sd st1)
    by (cbv [lift]; simpl; unfold subscript; rewrite Hsd; reflexivity).
  rewrite (bind_ret_intro _ _ st1 tt
             (mkState (fs st1) (events st1) (torch st1) (self_model st1)
                      (S (recon_calls st1)))) by reflexivity.
  rewrite (bind_ret_intro _ _ _ m
             (mkState (fs st1) (events st1) t1 (self_model st1)
                      (S (recon_calls st1))))
    by (cbv [call_torch]; simpl; rewrite Hm; reflexivity).
  rewrite (bind_ret_intro _ _ _ args
             (mkState (fs st1) (events st1) t1 (self_model st1)
                      (S (recon_calls st1))))
    by (cbv [lift]; rewrite Hargs; reflexivity).
  rewrite (bind_ret_intro _ _ _ m'
             (mkState (fs st1) (events st1) t2 (self_model st1)
                      (S (recon_calls st1))))
    by (cbv [call_torch]; simpl; rewrite Hm'; reflexivity).
  rewrite (bind_ret_intro _ _ _ tt
             (mkState (fs st1) (events st1) t2 (Some m')
                      (S (recon_calls st1)))) by reflexivity.
  cbv [lift]. simpl. unfold subscript. rewrite Hlat, Hfs, Hrc. reflexivity.
Qed.

End ReinitMore.

Section RegenMore.
Context `{Externals}.
Variable reinit : Runner -> list Z -> string -> option (gmap string pyval) -> M pyval.

Lemma regen_loop_all_skipped self shape n splits zs ps sv paths : forall fr st,
  (forall p, In p paths ->
     exists_ (fs st) (reproduce_marker (output_dir self) p) = true) ->
  for_each (regen_body reinit self shape n splits zs ps sv) paths fr st =
    (Ret fr,
     mkState (fs st)
             (events st ++
              map (fun p => LogFoundExisting (reproduce_save_fn (output_dir self) p))
                  paths)
             (torch st) (self_model st) (recon_calls st)).
Proof.
  induction paths as [|p r IH]; intros fr st Hall; simpl.
  - rewrite app_nil_r. destruct st; reflexivity.
  - cbv [bind].
    rewrite regen_body_skips_existing by (apply Hall; left; reflexivity).
    rewrite IH by (simpl; intros q Hq; apply Hall; right; exact Hq).
    simpl. rewrite <- app_assoc. reflexivity.
Qed.

Lemma exists_not_isdir_isfile f p :
  exists_ f p = true -> isdir f p = false -> isfile f p = true.
Proof.
  unfold exists_, isdir, isfile. destruct (fs_lookup f p) as [[|c]|]; congruence.
Qed.

(** X16. When the marker of every input file exists, [regen_frames] decodes
    nothing, rebuilds nothing and writes nothing: it logs one line for each
    file, in order, and then ends with UnboundLocalError, since no
    iteration has assigned the local [frames] it returns. *)
Theorem regen_frames_all_reproduced self path shape n splits zs ps sv st :
  exists_ (fs st) path = true ->
  (forall p, In p (image_paths (fs st) path) ->
     exists_ (fs st) (reproduce_marker (output_dir self) p) = true) ->
  regen_frames_with reinit self path shape n splits zs ps sv st =
    (Raise (UnboundLocalError "frames"),
     mkState (fs st)
             (events st ++
              map (fun p => LogFoundExisting (reproduce_save_fn (output_dir self) p))
                  (image_paths (fs st) path))
             (torch st) (self_model st) (recon_calls st)).
Proof.
  intros Hex Hall. unfold regen_frames_with, image_paths in *.
  cbv [bind get]. rewrite Hex. cbv [assert ret].
  destruct (isdir (fs st) path) eqn:Hd.
  - rewrite regen_loop_all_skipped by exact Hall. reflexivity.
  - rewrite (exists_not_isdir_isfile _ _ Hex Hd).
    rewrite regen_loop_all_skipped by exact Hall. reflexivity.
Qed.

Lemma regen_body_video self shape n splits zs ps path fr st fr' st' :
  fr = Unbound \/ fr = Bound (Some []) ->
  regen_body reinit self shape n splits zs ps true path fr st = (Ret fr', st') ->
  fr' = Unbound \/ fr' = Bound (Some []).
Proof.
  unfold regen_body. intros Hfr E.
  apply bind_ret_inv in E as (s0 & s1 & Eg & E).
  destruct (exists_ (fs s0) _).
  - apply bind_ret_inv in E as (u & s2 & _ & E).
    cbv [ret] in E. inversion E; subst. exact Hfr.
  - apply bind_ret_inv in E as (u & s2 & _ & E).
    apply bind_ret_inv in E as (latent & s3 & _ & E).
    apply bind_ret_inv in E as ([frames metadata] & s4 & _ & E).
    destruct (length frames =? 0)%nat eqn:Hlen.
    + apply bind_ret_inv in E as (u' & s5 & _ & E).
      cbv [ret] in E. inversion E; subst.
      apply Nat.eqb_eq in Hlen. destruct frames; [|discriminate Hlen].
      right. reflexivity.
    + apply bind_ret_inv in E as (shape0 & s5 & _ & E).
      apply bind_ret_inv in E as (u1 & s6 & _ & E).
      apply bind_ret_inv in E as (u2 & s7 & _ & E).
      apply bind_ret_inv in E as (u3 & s8 & Ev & E).
      discriminate Ev.
Qed.

(** X17. With [save_video=True] no reproduction is ever completed: the call
    of [write_video] passes a keyword the function does not have, so an
    input whose frames were written ends the call with TypeError. A call
    that returns has written nothing and returns an empty list, never
    None. *)
Theorem regen_frames_save_video_never_completes self path shape n splits zs ps
    st v st' :
  regen_frames_with reinit self path shape n splits zs ps true st = (Ret v, st') ->
  v = Some [].
Proof.
  intros E. unfold regen_frames_with in E.
  apply bind_ret_inv in E as (s0 & s1 & Eg & E).
  apply bind_ret_inv in E as (u & s2 & _ & E).
  destruct (if isdir (fs s0) path then Bound (glob_tif (fs s0) path)
            else if isfile (fs s0) path then Bound [path] else Unbound)
    as [|paths]; [discriminate E|].
  apply bind_ret_inv in E as (fr & s3 & El & E).
  assert (Hfr : fr = Unbound \/ fr = Bound (Some [])).
  { eapply for_each_invariant
      with (P := fun fr : local (option (list Frame)) =>
                   fr = Unbound \/ fr = Bound (Some []))
           (s := Unbound);
      [|left; reflexivity|exact El].
    intros a s st0 s' st0'. apply regen_body_video. }
  destruct Hfr as [->| ->]; [discriminate E|].
  cbv [ret] in E. inversion E. reflexivity.
Qed.

End RegenMore.

Section RegenActual.
Context `{Externals}.

(** X18. As written, [regen_frames] never completes and never writes: every
    call ends with an exception and leaves the file system as it was. A
    path that does not exist fails the opening assertion with nothing
    logged. *)
Theorem regen_frames_never_completes self path shape n splits zs ps sv st :
  (exists e, fst (regen_frames self path shape n splits zs ps sv st) = Raise e) /\
  fs (snd (regen_frames self path shape n splits zs ps sv st)) = fs st /\
  (exists_ (fs st) path = false ->
   regen_frames self path shape n splits zs ps sv st = (Raise AssertionError, st)).
Proof.
  destruct (regen_frames_raises self path shape n splits zs ps sv st) as (e & He & Hfs).
  split; [exists e; exact He|]. split; [exact Hfs|].
  intros Hex. unfold regen_frames, regen_frames_with.
  cbv [bind get]. rewrite Hex. reflexivity.
Qed.

End RegenActual.

Section PathFacts.
Context `{Carriers}.

Lemma string_app_nil_r (s : string) : s ++ "" = s.
Proof.
  induction s as [|c r IH]; [reflexivity|].
  change (String c (r ++ "") = String c r). f_equal. exact IH.
Qed.

Lemma string_length_app (a b : string) :
  String.length (a ++ b) = String.length a + String.length b.
Proof.
  induction a as [|c r IH]; [reflexivity|].
  change (S (String.length (r ++ b)) = S (String.length r + String.length b)).
  f_equal. exact IH.
Qed.

Lemma substring_all (s : string) : substring 0 (String.length s) s = s.
Proof. induction s as [|c r IH]; simpl; [reflexivity | f_equal; exact IH]. Qed.

Lemma substring_app_l (a b : string) : substring 0 (String.length a) (a ++ b) = a.
Proof.
  induction a as [|c r IH].
  - simpl. destruct b; reflexivity.
  - change (String c (substring 0 (String.length r) (r ++ b)) = String c r).
    f_equal. exact IH.
Qed.

Lemma substring_app_r (a b : string) (n : nat) :
  substring (String.length a) n (a ++ b) = substring 0 n b.
Proof.
  induction a as [|c r IH]; [reflexivity|].
  change (substring (String.length r) n (r ++ b) = substring 0 n b). exact IH.
Qed.

Lemma substring_split (n : nat) (s : string) :
  n <= String.length s ->
  s = substring 0 n s ++ substring n (String.length s - n) s.
Proof.
  revert n. induction s as [|c r IH]; intros n Hn.
  - simpl in Hn. assert (n = 0) as -> by lia. reflexivity.
  - destruct n as [|n].
    + change (String c r = String c (substring 0 (String.length r) r)).
      f_equal. symmetry. apply substring_all.
    + simpl in Hn.
      change (String c r =
              String c (substring 0 n r ++ substring n (String.length r - n) r)).
      f_equal. apply IH. lia.
Qed.

Lemma substring_longer (n m : nat) (s : string) :
  String.length s <= n + m -> substring n m s = substring n (String.length s - n) s.
Proof.
  revert n m. induction s as [|c r IH]; intros n m Hl.
  - destruct n, m; reflexivity.
  - destruct n as [|n].
    + destruct m as [|m]; [simpl in Hl; lia|].
      simpl. f_equal.
      rewrite (IH 0 m) by (simpl in *; lia).
      rewrite Nat.sub_0_r. reflexivity.
    + simpl. apply IH. simpl in Hl. lia.
Qed.

Lemma prefix_split (p s : string) :
  String.prefix p s = true ->
  s = p ++ substring (String.length p) (String.length s) s.
Proof.
  intros Hp. 
  assert (Hlen : String.length p <= String.length s).
  { revert s Hp. induction p as [|c r IH]; intros s Hp; simpl; [lia|].
    destruct s as [|c' s]; [discriminate Hp|]. simpl in Hp.
    destruct (ascii_dec c c'); [|discriminate Hp].
    simpl. specialize (IH s Hp). lia. }
  apply prefix_correct in Hp.
  rewrite (substring_longer (String.length p) (String.length s) s) by lia.
  etransitivity; [apply (substring_split (String.length p)); exact Hlen|].
  rewrite Hp. reflexivity.
Qed.

Lemma endswith_split (s suf : string) :
  Path.endswith s suf = true ->
  s = substring 0 (String.length s - String.length suf) s ++ suf.
Proof.
  unfold Path.endswith. intros E.
  apply andb_true_iff in E as [Hl E].
  apply Nat.leb_le in Hl. apply String.eqb_eq in E.
  etransitivity;
    [apply (substring_split (String.length s - String.length suf)); lia|].
  f_equal.
  replace (String.length s - (String.length s - String.length suf))
    with (String.length suf) by lia.
  exact E.
Qed.

Lemma endswith_app (a suf : string) : Path.endswith (a ++ suf) suf = true.
Proof.
  unfold Path.endswith. rewrite string_length_app.
  apply andb_true_iff. split; [apply Nat.leb_le; lia|].
  replace (String.length a + String.length suf - String.length suf)
    with (String.length a) by lia.
  rewrite substring_app_r, substring_all. apply String.eqb_refl.
Qed.

Lemma drop_last_app (a suf : string) :
  Path.drop_last (String.length suf) (a ++ suf) = a.
Proof.
  unfold Path.drop_last. rewrite string_length_app.
  replace (String.length a + String.length suf - String.length suf)
    with (String.length a) by lia.
  apply substring_app_l.
Qed.

Lemma basename_aux_no_slash (s cur : string) :
  has_slash s = false -> Path.basename_aux s cur = cur.
Proof.
  unfold has_slash. revert cur.
  induction s as [|c r IH]; intros cur Hs;
    cbn [list_ascii_of_string existsb Path.basename_aux] in *.
  - reflexivity.
  - apply orb_false_iff in Hs as [Hc Hr].
    rewrite Ascii.eqb_sym in Hc. rewrite Hc. apply IH. exact Hr.
Qed.

Lemma basename_aux_slash (a r cur : string) :
  Path.basename_aux (a ++ String "/" r) cur = Path.basename_aux r r.
Proof.
  revert cur. induction a as [|c a IH]; intros cur.
  - reflexivity.
  - change (Path.basename_aux (String c (a ++ String "/" r)) cur =
            Path.basename_aux r r).
    cbn [Path.basename_aux]. destruct (Ascii.eqb c "/"); apply IH.
Qed.

Lemma basename_after_slash (a name : string) :
  has_slash name = false -> Path.basename (a ++ "/" ++ name) = name.
Proof.
  intros Hn. unfold Path.basename.
  change (a ++ "/" ++ name) with (a ++ String "/" name).
  rewrite basename_aux_slash. apply basename_aux_no_slash. exact Hn.
Qed.

Lemma basename_no_slash (name : string) :
  has_slash name = false -> Path.basename name = name.
Proof. apply basename_aux_no_slash. Qed.

Lemma no_slash_not_absolute (name : string) :
  has_slash name = false -> Path.startswith "/" name = false.
Proof.
  unfold has_slash, Path.startswith. destruct name as [|c r]; [reflexivity|].
  cbn [list_ascii_of_string existsb String.prefix]. intros Hs.
  apply orb_false_iff in Hs as [Hc _].
  destruct (ascii_dec "/" c) as [<-|]; [|reflexivity].
  rewrite Ascii.eqb_refl in Hc. discriminate Hc.
Qed.

Lemma string_app_assoc (a b c : string) : (a ++ b) ++ c = a ++ (b ++ c).
Proof.
  induction a as [|x a IH]; [reflexivity|].
  change (String x ((a ++ b) ++ c) = String x (a ++ (b ++ c))). f_equal. exact IH.
Qed.

(** The last component of a joined path is the joined name. *)
Lemma basename_join (d name : string) :
  has_slash name = false -> Path.basename (Path.join d name) = name.
Proof.
  intros Hn. unfold Path.join. rewrite (no_slash_not_absolute _ Hn).
  destruct (String.eqb_spec d "") as [->|Hd]; simpl.
  - apply basename_no_slash. exact Hn.
  - destruct (Path.endswith d "/") eqn:E.
    + rewrite (endswith_split _ _ E), string_app_assoc.
      apply basename_after_slash. exact Hn.
    + apply basename_after_slash. exact Hn.
Qed.

Lemma has_slash_app (a b : string) :
  has_slash (a ++ b) = has_slash a || has_slash b.
Proof.
  unfold has_slash. induction a as [|c a IH]; [reflexivity|].
  change (Ascii.eqb "/" c || existsb (Ascii.eqb "/") (list_ascii_of_string (a ++ b)) =
          Ascii.eqb "/" c || existsb (Ascii.eqb "/") (list_ascii_of_string a) ||
          existsb (Ascii.eqb "/") (list_ascii_of_string b)).
  rewrite IH. apply orb_assoc.
Qed.

(** X20. The output name of an archival file: for a file [<stem>.tif] in any
    directory the derived name is [<output_dir>/<stem>_reproduce], whatever
    the stem ends in; the test for an earlier [_reproduce] never fires on a
    name with the extension. So the reproduction of a reproduction
    [<stem>_reproduce_0.tif] is named [<stem>_reproduce_0_reproduce]. *)
Theorem reproduce_save_fn_of_tif output_dir d stem :
  has_slash stem = false ->
  reproduce_save_fn output_dir (Path.join d (stem ++ ".tif")) =
    Path.join output_dir (stem ++ "_reproduce").
Proof.
  intros Hs.
  assert (Hn : has_slash (stem ++ ".tif") = false).
  { rewrite has_slash_app, Hs. reflexivity. }
  rewrite tif_name_never_stripped
    by (rewrite (basename_join _ _ Hn); apply endswith_app).
  rewrite (basename_join _ _ Hn).
  change 4 with (String.length ".tif"). rewrite drop_last_app. reflexivity.
Qed.

Lemma glob_tif_In (f : list (string * node)) (path p : string) :
  In p (glob_tif f path) ->
  exists name,
    p = Path.join path "" ++ name /\ has_slash name = false /\
    Path.endswith name ".tif" = true /\ assoc p f <> None.
Proof.
  unfold glob_tif. intros Hin.
  apply in_map_iff in Hin as ([q nd] & Hq & Hin). simpl in Hq. subst q.
  apply list_elem_of_In, list_elem_of_filter in Hin as [Hp Hin].
  apply Is_true_true in Hp.
  apply andb_true_iff in Hp as [Hp He].
  apply andb_true_iff in Hp as [Hp Hd].
  apply andb_true_iff in Hp as [Hp Hs].
  exists (substring (String.length (Path.join path "")) (String.length p) p).
  split; [apply prefix_split; exact Hp|].
  split; [apply negb_true_iff; exact Hs|].
  split; [exact He|].
  apply list_elem_of_In in Hin. clear - Hin.
  induction f as [|[k v] r IH]; [contradiction|].
  simpl. destruct (String.eqb_spec p k) as [->|Hne]; [discriminate|].
  destruct Hin as [Heq|Hin]; [inversion Heq; congruence | exact (IH Hin)].
Qed.

Lemma join_empty_cases (path : string) :
  Path.join path "" = "" \/ exists a, Path.join path "" = a ++ "/".
Proof.
  unfold Path.join. simpl.
  destruct (String.eqb_spec path "") as [->|Hd]; simpl; [left; reflexivity|].
  right. destruct (Path.endswith path "/") eqn:E.
  - rewrite string_app_nil_r. eexists. apply (endswith_split _ _ E).
  - exists path. reflexivity.
Qed.

(** X19. Every file that [regen_frames] takes from a directory is an entry
    of the file system directly under it whose name ends in [.tif], and its
    output name is the name without the extension followed by
    [_reproduce]: for the files of a directory the strip of an earlier
    [_reproduce] never runs. *)
Theorem regen_dir_names_never_stripped output_dir (f : list (string * node)) path p :
  In p (glob_tif f path) ->
  exists stem,
    has_slash stem = false /\
    p = Path.join path "" ++ stem ++ ".tif" /\
    Path.basename p = stem ++ ".tif" /\
    reproduce_save_fn output_dir p = Path.join output_dir (stem ++ "_reproduce").
Proof.
  intros Hin. destruct (glob_tif_In _ _ _ Hin) as (name & Hp & Hs & He & _).
  pose proof (endswith_split _ _ He) as Hname.
  set (stem := substring 0 (String.length name - String.length ".tif") name) in *.
  assert (Hstem : has_slash stem = false).
  { rewrite Hname, has_slash_app in Hs. apply orb_false_iff in Hs. tauto. }
  assert (Hb : Path.basename p = stem ++ ".tif").
  { rewrite Hp, <- Hname.
    destruct (join_empty_cases path) as [->|(a & ->)].
    - apply basename_no_slash. exact Hs.
    - rewrite string_app_assoc. apply basename_after_slash. exact Hs. }
  exists stem. split; [exact Hstem|]. split; [rewrite <- Hname; exact Hp|].
  split; [exact Hb|].
  rewrite tif_name_never_stripped by (rewrite Hb; apply endswith_app).
  rewrite Hb. change 4 with (String.length ".tif"). rewrite drop_last_app.
  reflexivity.
Qed.

End PathFacts.

Module InterpMore.
Import Interp InterpFacts.
Open Scope R_scope.

Lemma rev_map_seq {B} (g : nat -> B) m :
  rev (map g (seq 0 m)) = map (fun i => g (m - 1 - i)%nat) (seq 0 m).
Proof.
  induction m as [|m IH]; [reflexivity|].
  rewrite seq_S at 1. rewrite map_app, rev_app_distr. cbn [map rev app seq].
  rewrite IH. f_equal.
  - f_equal. lia.
  - rewrite <- seq_shift, map_map. apply map_ext. intros i. f_equal. lia.
Qed.

Lemma zip_with_swap (f : R -> R -> R) (a b : list R) :
  zip_with f a b = zip_with (fun x y => f y x) b a.
Proof.
  revert b. induction a as [|x a IH]; intros [|y b]; simpl; try reflexivity.
  rewrite IH. reflexivity.
Qed.

Lemma lerp_point_reverse v1 v2 n i :
  (i <= n + 1)%nat -> lerp_point v2 v1 n i = lerp_point v1 v2 n (n + 1 - i).
Proof.
  intros Hi. unfold lerp_point. rewrite zip_with_swap.
  apply zip_with_pointwise. intros x y.
  rewrite (minus_INR (n + 1) i) by lia.
  pose proof (INR_succ_neq_0 n). field. assumption.
Qed.

(** X21. Linear interpolation is symmetric: for two finite states of one
    shape, the samples of [lerp(z2, z1, n)] are those of [lerp(z1, z2, n)]
    in reverse order. *)
Theorem lerp_reversed v1 v2 s1 s2 n :
  length v1 = length v2 ->
  exists fwd bwd,
    lerp (mkLatent (fin v1) s1) (mkLatent (fin v2) s2) n = Ret fwd /\
    lerp (mkLatent (fin v2) s2) (mkLatent (fin v1) s1) n = Ret bwd /\
    map sample bwd = rev (map sample fwd).
Proof.
  intros Hl. do 2 eexists.
  split; [apply lerp_closed_form, Hl|].
  split; [apply lerp_closed_form; symmetry; exact Hl|].
  rewrite !map_map. cbn [sample].
  rewrite rev_map_seq. apply map_ext_in. intros i Hi.
  apply in_seq in Hi. f_equal.
  rewrite lerp_point_reverse by lia. f_equal. lia.
Qed.

Lemma lin_1_0 (u v : list R) : length u = length v -> lin 1 0 u v = u.
Proof.
  intros Hl. unfold lin. rewrite (zip_with_pointwise _ (fun x _ => x)).
  - apply zip_with_fst_same, Hl.
  - intros x y. lra.
Qed.

Lemma lin_0_1 (u v : list R) : length u = length v -> lin 0 1 u v = v.
Proof.
  intros Hl. unfold lin. rewrite (zip_with_pointwise _ (fun _ y => y)).
  - apply zip_with_snd_same, Hl.
  - intros x y. lra.
Qed.

(** X22. Away from the degenerate angles, the trajectory of [slerp] starts
    at the normalized first endpoint, not at [z1] itself, and it passes
    through the normalized second endpoint exactly at a sampling angle
    that equals [theta]. *)
Theorem slerp_passes_through_unit_endpoints z1 z2 theta n :
  length (sample z1) = length (sample z2) ->
  slerp_theta z1 z2 = Ret (Some theta) ->
  theta <> 0 -> theta <> PI ->
  exists states,
    slerp z1 z2 n = Ret states /\
    ((0 < n)%nat ->
     nth_error states 0 =
       Some (mkLatent (normalized (sample z1)) (sample_shape z1))) /\
    (forall k, (k < n)%nat -> angle_at n k = theta ->
       nth_error states k =
         Some (mkLatent (normalized (sample z2)) (sample_shape z1))).
Proof.
  intros Hl Ht H0 Hpi.
  destruct (slerp_closed_form z1 z2 theta Hl Ht H0 Hpi n)
    as (u1 & u2 & Hu1 & Hu2 & Hlu & _ & Hs).
  pose proof (slerp_sin_theta z1 z2 theta Hl Ht H0 Hpi) as Hsin.
  eexists. split; [exact Hs|]. split.
  - intros Hn. rewrite nth_error_map_seq by exact Hn.
    rewrite Hu1. do 3 f_equal. unfold slerp_at, angle_at.
    replace (sin (theta - 2 * PI * INR 0 / INR n) / sin theta) with 1.
    + replace (sin (2 * PI * INR 0 / INR n) / sin theta) with 0.
      * apply lin_1_0, Hlu.
      * simpl. replace (2 * PI * 0 / INR n) with 0 by (unfold Rdiv; ring).
        rewrite sin_0. unfold Rdiv. ring.
    + simpl. replace (theta - 2 * PI * 0 / INR n) with theta by (unfold Rdiv; ring).
      field. exact Hsin.
  - intros k Hk Ha. rewrite nth_error_map_seq by exact Hk.
    rewrite Hu2, Ha. do 3 f_equal. unfold slerp_at.
    replace (theta - theta) with 0 by ring. rewrite sin_0.
    replace (0 / sin theta) with 0 by (unfold Rdiv; ring).
    replace (sin theta / sin theta) with 1 by (field; exact Hsin).
    apply lin_0_1, Hlu.
Qed.

Lemma xmul_none_r x : xmul x None = None.
Proof. destruct x; reflexivity. Qed.

Lemma norm2_zero (v : list xR) :
  Forall (fun x => x = Some 0) v -> norm2 v = Some 0.
Proof.
  intros Hv. unfold norm2.
  assert (E : xsum (map (fun x => xmul x x) v) = Some 0).
  { induction Hv as [|x v -> _ IH]; [reflexivity|].
    cbn [map xsum fold_right]. change (fold_right xadd (Some 0) ?l) with (xsum l).
    rewrite IH. cbn. f_equal. lra. }
  rewrite E. cbn. f_equal. apply sqrt_0.
Qed.

Lemma normalized_zero (v : list xR) :
  Forall (fun x => x = Some 0) v -> normalized v = repeat None (length v).
Proof.
  intros Hv. unfold normalized. rewrite (norm2_zero v Hv).
  clear Hv. induction v as [|x v IH]; [reflexivity|].
  cbn [map length repeat]. rewrite xdiv_zero, IH. reflexivity.
Qed.

Lemma xsum_zip_none_l (w : list xR) n :
  (0 < n)%nat -> length w = n ->
  xsum (zip_with xmul (repeat None n) w) = None.
Proof.
  intros Hn Hl. destruct n as [|n]; [lia|]. destruct w as [|y w]; [discriminate Hl|].
  reflexivity.
Qed.

Lemma xsum_zip_none_r (w : list xR) n :
  (0 < n)%nat -> length w = n ->
  xsum (zip_with xmul w (repeat None n)) = None.
Proof.
  intros Hn Hl. destruct n as [|n]; [lia|]. destruct w as [|y w]; [discriminate Hl|].
  cbn [repeat zip_with]. rewrite xmul_none_r. reflexivity.
Qed.

Lemma slerp_theta_zero_endpoint (z1 z2 : LatentState (list xR)) :
  length (sample z1) = length (sample z2) ->
  sample z1 <> [] ->
  Forall (fun x => x = Some 0) (sample z1) \/
  Forall (fun x => x = Some 0) (sample z2) ->
  slerp_theta z1 z2 = Ret None.
Proof.
  intros Hl Hne Hz. unfold slerp_theta, tbin.
  rewrite !length_normalized, Hl, Nat.eqb_refl. cbn [pbind].
  assert (Hpos : (0 < length (sample z2))%nat).
  { rewrite <- Hl. destruct (sample z1); [contradiction Hne; reflexivity | simpl; lia]. }
  destruct Hz as [Hz|Hz]; rewrite (normalized_zero _ Hz).
  - rewrite Hl, xsum_zip_none_l; [reflexivity | exact Hpos | apply length_normalized].
  - rewrite xsum_zip_none_r;
      [reflexivity | exact Hpos | rewrite length_normalized; exact Hl].
Qed.

Lemma tscale_none (l : list xR) : tscale None l = repeat None (length l).
Proof.
  unfold tscale. induction l as [|x l IH]; simpl; [reflexivity|].
  rewrite IH. reflexivity.
Qed.

Lemma zip_with_repeat_none (n : nat) :
  zip_with xadd (repeat None n) (repeat None n) = repeat None n.
Proof. induction n as [|n IH]; simpl; [reflexivity | rewrite IH; reflexivity]. Qed.

(** X23. A latent state all of whose entries are zero has norm zero and
    no direction: with such an endpoint, first or second, the angle of
    [slerp] is not a number, the call still returns [n] states, and every
    entry of every sample is nan. *)
Theorem slerp_zero_endpoint_all_nan (z1 z2 : LatentState (list xR)) n :
  length (sample z1) = length (sample z2) ->
  sample z1 <> [] ->
  Forall (fun x => x = Some 0) (sample z1) \/
  Forall (fun x => x = Some 0) (sample z2) ->
  slerp_theta z1 z2 = Ret None /\
  exists states,
    slerp z1 z2 n = Ret states /\ length states = n /\
    Forall (fun s => sample s = repeat None (length (sample z1))) states.
Proof.
  intros Hl Hne Hz.
  pose proof (slerp_theta_zero_endpoint z1 z2 Hl Hne Hz) as Ht.
  split; [exact Ht|].
  exists (map (fun _ => mkLatent (repeat None (length (sample z1))) (sample_shape z1))
              (slerp_angles n)).
  split; [|split].
  - unfold slerp. rewrite Ht. cbn [pbind]. apply collect_map. intros angle _.
    unfold slerp_alpha, slerp_beta. cbn [xdiv xlift].
    rewrite !tscale_none, !length_normalized, <- Hl.
    unfold tbin. rewrite Nat.eqb_refl. cbn [pbind].
    rewrite zip_with_repeat_none. reflexivity.
  - rewrite length_map, slerp_angles_eq, length_map, length_seq. reflexivity.
  - apply Forall_map. apply List.Forall_forall. intros a _. reflexivity.
Qed.

Lemma tbin_mismatch f (a b : list xR) :
  length a <> length b -> length a <> 1%nat -> length b <> 1%nat ->
  tbin f a b = Raise RuntimeError.
Proof.
  intros Hab Ha Hb. unfold tbin.
  destruct (Nat.eqb_spec (length a) (length b)) as [E|_]; [contradiction|].
  destruct a as [|x [|x' a]]; [| contradiction Ha; reflexivity |];
    destruct b as [|y [|y' b]]; try reflexivity; contradiction Hb; reflexivity.
Qed.

(** X24. Endpoints whose samples cannot be broadcast against each other
    (different numbers of entries, neither of them one) make both [lerp]
    and [slerp] fail with torch's RuntimeError before any state is
    built. *)
Theorem interpolation_shape_mismatch_raises z1 z2 n :
  length (sample z1) <> length (sample z2) ->
  length (sample z1) <> 1%nat -> length (sample z2) <> 1%nat ->
  lerp z1 z2 n = Raise RuntimeError /\ slerp z1 z2 n = Raise RuntimeError.
Proof.
  intros Hl H1 H2. split.
  - unfold lerp. rewrite tbin_mismatch by auto. reflexivity.
  - unfold slerp, slerp_theta.
    rewrite tbin_mismatch by (rewrite !length_normalized; auto). reflexivity.
Qed.

End InterpMore.

Section Outcomes.
Context `{Externals}.

Lemma returned_inv {A} (r : PyResult A * State) :
  returned r = true -> exists a st', r = (Ret a, st').
Proof.
  destruct r as [[a|e] st']; unfold returned; simpl; intros E;
    [|discriminate E].
  exists a, st'. reflexivity.
Qed.

Lemma decoded_inv r :
  decoded r = true -> exists img md st', r = (Ret (Some img, Some md), st').
Proof.
  destruct r as [[[[img|] [md|]]|e] st']; unfold decoded; simpl; intros E;
    try discriminate E.
  exists img, md, st'. reflexivity.
Qed.

End Outcomes.

(** Closes an equation between closed terms by evaluating both sides. *)
Ltac by_vm :=
  lazymatch goal with
  | |- @eq ?T ?a ?b => exact (@eq_refl T b <: a = b)
  end.

Module ScenarioMore.
Import Ref Scenario Scenario2.
Open Scope Z_scope.

Lemma write_image_raster_effect_witness :
  write_image "out/a" img "gif" None None archive = (Raise AssertionError, archive) /\
  exists st', write_image "out/a" img "png" None None archive = (Ret tt, st') /\
              isfile (fs st') "out/a.png" = true.
Proof.
  split.
  - apply (proj1 (write_image_raster_effect "out/a" img "gif" None archive)).
    reflexivity.
  - destruct (returned_inv (write_image "out/a" img "png" None None archive))
      as ([] & st' & E); [by_vm|].
    exists st'. split; [exact E|].
    destruct (proj2 (write_image_raster_effect "out/a" img "png" None archive)
                eq_refl) as [_ Hw].
    exact (proj1 (Hw st' E)).
Defined.

Lemma write_image_tif_effect_witness :
  exists st',
    write_image "out/a" img "tif" (Some identity_data) None archive = (Ret tt, st') /\
    fs_lookup (fs st') "out/a.tif" = Some (File (Tiff img (Some [identity_data]))) /\
    events st' = [].
Proof.
  destruct (returned_inv
              (write_image "out/a" img "tif" (Some identity_data) None archive))
    as ([] & st' & E); [by_vm|].
  exists st'. split; [exact E|].
  destruct (write_image_tif_effect _ _ _ _ _ _ E) as (c & Hc & Hl & _ & Hev & _).
  inversion Hc; subst c. split; [exact Hl | exact Hev].
Defined.

Lemma archived_frame_decodes_witness :
  exists st1 md st2,
    write_image "out/a" img "tif" (Some identity_data) None archive = (Ret tt, st1) /\
    load_tif_metadata "out/a.tif" st1 = (Ret (Some img, Some md), st2).
Proof.
  destruct (returned_inv
              (write_image "out/a" img "tif" (Some identity_data) None archive))
    as ([] & st1 & E); [by_vm|].
  pose proof (archived_frame_decodes "out/a" img (Some identity_data) None archive
                st1 (Tiff img (Some [identity_data])) E eq_refl) as Hd.
  change ("out/a" ++ ".tif") with "out/a.tif" in Hd.
  cbv iota in Hd.
  destruct (returned_inv (extract_metadata identity_data st1))
    as (md & st2 & Ex); [by_vm|].
  rewrite Ex in Hd.
  exists st1, md, st2. split; [exact E | exact Hd].
Defined.

Lemma write_image_colormapped_files_witness :
  exists st',
    write_image "out/a" img "png" None (Some ["HSV"]) archive = (Ret tt, st') /\
    isfile (fs st') "out/a_hsv.png" = true /\
    isfile (fs st') "out/a_rgb.png" = true.
Proof.
  destruct (returned_inv
              (write_image "out/a" img "png" None (Some ["HSV"]) archive))
    as ([] & st' & E); [by_vm|].
  exists st'. split; [exact E|].
  destruct (write_image_colormapped_files "out/a" img "png" None ["HSV"] archive st'
              eq_refl E)
    as (Hc & Hrgb & _ & _).
  split.
  - exact (Hc "HSV" (or_introl eq_refl)).
  - exact (Hrgb eq_refl).
Defined.

Lemma write_image_unknown_colormap_raises_witness :
  exists e,
    fst (write_image "out/a" img "png" None (Some ["viridis"]) archive) = Raise e.
Proof.
  apply (write_image_unknown_colormap_raises "out/a" img "png" None ["viridis"]
           "viridis" archive eq_refl (or_introl eq_refl)).
  vm_compute. intuition discriminate.
Defined.

Lemma legacy_block :
  read_tiff (fs archive) "legacy/old.tif" = Ret (img, legacy_data).
Proof. reflexivity. Qed.

Lemma load_tif_metadata_schema_witness :
  exists oi md st',
    load_tif_metadata "legacy/old.tif" archive = (Ret (oi, Some md), st') /\
    dom md = list_to_set schema /\ md !! "latent" = None.
Proof.
  destruct (decoded_inv (load_tif_metadata "legacy/old.tif" archive))
    as (im & md & st' & E); [by_vm|].
  exists (Some im), md, st'. split; [exact E|].
  exact (load_tif_metadata_schema _ _ _ _ _ E).
Defined.

Lemma load_tif_metadata_identity_fields_witness :
  exists oi md st',
    load_tif_metadata "legacy/old.tif" archive = (Ret (oi, Some md), st') /\
    md !! "device" = Some (PStr "cpu").
Proof.
  destruct (decoded_inv (load_tif_metadata "legacy/old.tif" archive))
    as (im & md & st' & E); [by_vm|].
  exists (Some im), md, st'. split; [exact E|].
  destruct (load_tif_metadata_identity_fields _ _ _ _ _ E)
    as (im' & data & _ & Hr & _ & _ & (v & Hv & Hdev)).
  rewrite legacy_block in Hr. inversion Hr; subst data.
  rewrite Hdev, <- Hv. by_vm.
Defined.

Lemma load_tif_metadata_missing_identity_raises_witness :
  exists e, load_tif_metadata "legacy/anonymous.tif" archive = (Raise e, archive).
Proof.
  apply (load_tif_metadata_missing_identity_raises "legacy/anonymous.tif" archive
           img (delete "seed" identity_data) "seed").
  - reflexivity.
  - left. reflexivity.
  - by_vm.
Defined.

Lemma load_tif_metadata_optional_fields_witness :
  exists oi md st',
    load_tif_metadata "legacy/old.tif" archive = (Ret (oi, Some md), st') /\
    md !! "graph" = Some PNone /\
    md !! "input_encoding_dim" = Some (PInt 1) /\
    length (events st') = 13%nat.
Proof.
  destruct (decoded_inv (load_tif_metadata "legacy/old.tif" archive))
    as (im & md & st' & E); [by_vm|].
  exists (Some im), md, st'. split; [exact E|].
  destruct (load_tif_metadata_optional_fields _ _ _ _ _ E)
    as (im' & data & _ & Hr & Hev & Habs & _).
  rewrite legacy_block in Hr. inversion Hr; subst data.
  split; [|split].
  - apply (Habs "graph"). vm_compute. tauto.
  - apply (Habs "input_encoding_dim"). vm_compute. tauto.
  - rewrite Hev. by_vm.
Defined.

Lemma run_frames_schedules_cover_witness :
  exists r st',
    run_frames self PNone 1 (Some [PList [PInt 1; PInt 1]]) None 1 false
               (with_script [good_values]) = (Ret r, st') /\
    (1 <= length [PList [PInt 1; PInt 1]])%nat.
Proof.
  destruct (returned_inv
              (run_frames self PNone 1 (Some [PList [PInt 1; PInt 1]]) None 1 false
                          (with_script [good_values])))
    as (r & st' & E); [by_vm|].
  exists r, st'. split; [exact E|].
  exact (proj1 (run_frames_schedules_cover _ _ _ _ _ _ _ _ _ _ E) _ eq_refl).
Defined.

Lemma run_frames_frames_well_formed_witness :
  exists frames metas st',
    run_frames self PNone 1 None None 1 false (with_script [good_values])
      = (Ret (frames, metas), st') /\
    frames = [mkFrame [1; 1; 3]%nat [0; 100; 255]] /\
    Forall (fun f =>
              well_formed f /\
              exists i, (i < 1)%nat /\
                generated_from PNone None None 1
                  (mkModel (1, 1, 3)%nat "sigmoid" [good_values]) i f)
           frames.
Proof.
  destruct (returned_inv
              (run_frames self PNone 1 None None 1 false (with_script [good_values])))
    as ([frames metas] & st' & E); [by_vm|].
  exists frames, metas, st'. split; [exact E|].
  split.
  - assert (Hb : fst (match fst (run_frames self PNone 1 None None 1 false
                                            (with_script [good_values]))
                      with Ret r => r | Raise _ => ([], []) end)
                 = [mkFrame [1; 1; 3]%nat [0; 100; 255]]) by by_vm.
    rewrite E in Hb. exact Hb.
  - destruct (run_frames_frames_well_formed _ _ _ _ _ _ _ _ _ _ _ E)
      as (m0 & Hm & Hf).
    cbn in Hm. inversion Hm; subst m0. exact Hf.
Defined.

Lemma reinit_model_from_metadata_explicit_witness :
  exists v st',
    reinit_model_from_metadata self [8; 8; 3] "" (Some with_latent) archive
      = (Ret v, st') /\
    with_latent !! "latent" = Some v /\ recon_calls st' = 1%nat.
Proof.
  destruct (returned_inv
              (reinit_model_from_metadata self [8; 8; 3] "" (Some with_latent)
                                          archive))
    as (v & st' & E); [by_vm|].
  exists v, st'. split; [exact E|].
  destruct (reinit_model_from_metadata_explicit _ _ _ _ _ _ _ E)
    as (_ & Hl & _ & Hr & _).
  split; [exact Hl | exact Hr].
Defined.

Lemma reinit_model_from_file_replaces_then_fails_witness :
  exists st',
    reinit_model_from_metadata self [8; 8; 3] "legacy/old.tif" None archive
      = (Raise (KeyError "latent"), st') /\
    self_model st' = Some (mkModel (8, 8, 3)%nat "tanh" []).
Proof.
  destruct (decoded_inv (load_tif_metadata "legacy/old.tif" archive))
    as (im & md & st1 & E); [by_vm|].
  destruct (reinit_model_from_file_replaces_then_fails
              self [8; 8; 3] "legacy/old.tif" archive (Some im) md st1 E eq_refl)
    as (ld & ls & sd & args & _ & _ & _ & _ & Hr).
  eexists. split.
  - apply (Hr (mkModel (8, 8, 3)%nat "tanh" []) (torch st1)
              (mkModel (8, 8, 3)%nat "tanh" []) (torch st1)); reflexivity.
  - reflexivity.
Defined.

Lemma regen_frames_all_reproduced_witness :
  fst (regen_frames_with reinit_model_from_metadata self "in" [8; 8; 3] 1 1 None None
                         false reproduced) = Raise (UnboundLocalError "frames") /\
  events (snd (regen_frames_with reinit_model_from_metadata self "in" [8; 8; 3] 1 1
                                 None None false reproduced))
    = [LogFoundExisting "out/a_reproduce"].
Proof.
  rewrite (regen_frames_all_reproduced reinit_model_from_metadata self "in"
             [8; 8; 3] 1 1 None None false reproduced).
  - split; by_vm.
  - by_vm.
  - intros p Hp. vm_compute in Hp. destruct Hp as [<-|[]]. by_vm.
Defined.

Lemma regen_frames_save_video_never_completes_witness :
  exists st',
    regen_frames_with (reinit_stub [blank_values]) self "in" [1; 1; 3]
                      1 1 None None true archive = (Ret (Some []), st').
Proof.
  destruct (returned_inv
              (regen_frames_with (reinit_stub [blank_values]) self "in" [1; 1; 3]
                                 1 1 None None true archive))
    as (v & st' & E); [by_vm|].
  exists st'.
  rewrite <- (regen_frames_save_video_never_completes _ _ _ _ _ _ _ _ _ _ _ E).
  exact E.
Defined.

Lemma regen_frames_never_completes_witness :
  regen_frames self "in/missing" [8; 8; 3] 1 1 None None false archive
    = (Raise AssertionError, archive).
Proof.
  apply (regen_frames_never_completes self "in/missing" [8; 8; 3] 1 1 None None
           false archive).
  reflexivity.
Defined.

Lemma regen_dir_names_never_stripped_witness :
  exists stem,
    Path.basename "in/a.tif" = stem ++ ".tif" /\
    reproduce_save_fn "out" "in/a.tif" = Path.join "out" (stem ++ "_reproduce").
Proof.
  destruct (regen_dir_names_never_stripped "out" (fs archive) "in" "in/a.tif")
    as (stem & _ & _ & Hb & Hs).
  - vm_compute. left. reflexivity.
  - exists stem. split; [exact Hb | exact Hs].
Defined.

Lemma reproduce_save_fn_of_tif_witness :
  reproduce_save_fn "out" "out/a_reproduce_0.tif" = "out/a_reproduce_0_reproduce".
Proof.
  exact (reproduce_save_fn_of_tif "out" "out" "a_reproduce_0" eq_refl).
Defined.

End ScenarioMore.

Module InterpWitnesses.
Import Interp InterpFacts InterpMore.
Open Scope R_scope.

Lemma lerp_reversed_witness :
  exists fwd bwd,
    lerp (mkLatent (fin [0; 1]) [1; 2]%nat) (mkLatent (fin [3; 7]) [1; 2]%nat) 2
      = Ret fwd /\
    lerp (mkLatent (fin [3; 7]) [1; 2]%nat) (mkLatent (fin [0; 1]) [1; 2]%nat) 2
      = Ret bwd /\
    map sample bwd = rev (map sample fwd).
Proof. exact (lerp_reversed [0; 1] [3; 7] [1; 2]%nat [1; 2]%nat 2 eq_refl). Defined.

Lemma angle_at_quarter : angle_at 4 1 = PI / 2.
Proof. unfold angle_at. simpl. field. Qed.

Lemma slerp_passes_through_unit_endpoints_witness :
  exists states,
    slerp (mkLatent (fin [1; 0]) [1; 2]%nat) (mkLatent (fin [0; 1]) [1; 2]%nat) 4
      = Ret states /\
    nth_error states 1 =
      Some (mkLatent (normalized (fin [0; 1])) [1; 2]%nat).
Proof.
  destruct (slerp_passes_through_unit_endpoints
              (mkLatent (fin [1; 0]) [1; 2]%nat) (mkLatent (fin [0; 1]) [1; 2]%nat)
              (PI / 2) 4 eq_refl
              (slerp_theta_orthogonal _) (proj1 PI_neq_half) (proj2 PI_neq_half))
    as (states & Hs & _ & Hk).
  exists states. split; [exact Hs|].
  apply (Hk 1%nat); [lia | exact angle_at_quarter].
Defined.

Lemma slerp_zero_endpoint_all_nan_witness :
  exists states,
    slerp (mkLatent (fin [0; 0]) [1; 2]%nat) (mkLatent (fin [1; 0]) [1; 2]%nat) 4
      = Ret states /\
    length states = 4%nat /\
    Forall (fun s => sample s = [None; None]) states.
Proof.
  refine (proj2 (slerp_zero_endpoint_all_nan
                   (mkLatent (fin [0; 0]) [1; 2]%nat) (mkLatent (fin [1; 0]) [1; 2]%nat) 4
                   eq_refl _ (or_introl _))).
  - discriminate.
  - repeat constructor.
Defined.

Lemma interpolation_shape_mismatch_raises_witness :
  lerp (mkLatent (fin [1; 0]) [1; 2]%nat) (mkLatent (fin [1; 0; 0]) [1; 3]%nat) 2
    = Raise RuntimeError /\
  slerp (mkLatent (fin [1; 0]) [1; 2]%nat) (mkLatent (fin [1; 0; 0]) [1; 3]%nat) 2
    = Raise RuntimeError.
Proof.
  apply interpolation_shape_mismatch_raises; simpl; lia.
Defined.

End InterpWitnesses.

Section BackupFacts.
Context `{Externals}.

Lemma string_app_inv_head (a b c : string) : a ++ b = a ++ c -> b = c.
Proof.
  induction a as [|x a IH]; intros E; [exact E|].
  change (String x (a ++ b) = String x (a ++ c)) in E.
  inversion E. auto.
Qed.

Lemma has_slash_cons c s :
  has_slash (String c s) = Ascii.eqb "/" c || has_slash s.
Proof. reflexivity. Qed.

Lemma slash_free_split (x x' y y' : string) :
  has_slash x = false -> has_slash x' = false ->
  x ++ String "/" y = x' ++ String "/" y' -> x = x' /\ y = y'.
Proof.
  revert x'. induction x as [|c x IH]; intros [|c' x'] Hx Hx' E.
  - inversion E. split; reflexivity.
  - change (String "/" y = String c' (x' ++ String "/" y')) in E.
    inversion E; subst c'. rewrite has_slash_cons in Hx'. discriminate Hx'.
  - change (String c (x ++ String "/" y) = String "/" y') in E.
    inversion E; subst c. rewrite has_slash_cons in Hx. discriminate Hx.
  - change (String c (x ++ String "/" y) = String c' (x' ++ String "/" y')) in E.
    inversion E; subst c'.
    rewrite has_slash_cons in Hx, Hx'.
    apply orb_false_iff in Hx as [_ Hx]. apply orb_false_iff in Hx' as [_ Hx'].
    destruct (IH x' Hx Hx' H3) as [-> ->]. split; reflexivity.
Qed.

Lemma join_slash_free out b :
  has_slash b = false -> Path.join out b = Path.join out "" ++ b.
Proof.
  intros Hb. unfold Path.join. rewrite (no_slash_not_absolute _ Hb).
  change (Path.startswith "/" "") with false. cbv iota.
  destruct (String.eqb out "" || Path.endswith out "/").
  - rewrite string_app_nil_r. reflexivity.
  - rewrite string_app_assoc. reflexivity.
Qed.

Lemma py_name fn :
  Path.endswith fn ".py" = true -> exists stem, fn = stem ++ ".py".
Proof. intros E. eexists. apply (endswith_split _ _ E). Qed.

Lemma norm_py p stem : norm (p ++ stem ++ ".py") = p ++ stem ++ ".py".
Proof.
  assert (E : p ++ stem ++ ".py" = (p ++ stem ++ ".p") ++ "y").
  { rewrite !string_app_assoc. reflexivity. }
  rewrite E. apply norm_no_trailing_slash. discriminate.
Qed.

Lemma norm_py_name fn : Path.endswith fn ".py" = true -> norm fn = fn.
Proof. intros E. destruct (py_name _ E) as (stem & ->). exact (norm_py "" stem). Qed.

Lemma endswith_py_not_slash p stem : Path.endswith (p ++ stem ++ ".py") "/" = false.
Proof.
  destruct (Path.endswith (p ++ stem ++ ".py") "/") eqn:E; [|reflexivity].
  pose proof (endswith_last _ "/" "/"%char E eq_refl) as H1.
  assert (E2 : Path.endswith (p ++ stem ++ ".py") ".py" = true).
  { rewrite <- !string_app_assoc. apply endswith_app. }
  pose proof (endswith_last _ ".py" "y"%char E2 eq_refl) as H2.
  rewrite H1 in H2. discriminate H2.
Qed.

Lemma py_nonempty p stem : String.eqb (p ++ stem ++ ".py") "" = false.
Proof.
  destruct (String.eqb_spec (p ++ stem ++ ".py") "") as [E|]; [|reflexivity].
  apply (f_equal String.length) in E.
  rewrite !string_length_app in E. simpl in E. lia.
Qed.

(** The two shapes of a target: [P ++ fn], or [P ++ fn ++ "/" ++ fn] when
    the first is a directory, for [P] the output directory with its
    separator. *)
Lemma copy_target_cases f out fn :
  has_slash fn = false -> Path.endswith fn ".py" = true ->
  (isdir f (Path.join out "" ++ fn) = false /\
   copy_target f out fn = Path.join out "" ++ fn) \/
  (isdir f (Path.join out "" ++ fn) = true /\
   copy_target f out fn = Path.join out "" ++ fn ++ String "/" fn).
Proof.
  intros Hs He. unfold copy_target. rewrite (join_slash_free _ _ Hs).
  destruct (isdir f (Path.join out "" ++ fn)) eqn:D; [right | left; auto].
  split; [reflexivity|].
  rewrite (basename_no_slash _ Hs).
  destruct (py_name _ He) as (stem & ->).
  unfold Path.join at 1.
  rewrite (no_slash_not_absolute _ Hs), py_nonempty, endswith_py_not_slash.
  simpl. rewrite !string_app_assoc. reflexivity.
Qed.

Lemma norm_copy_target f out fn :
  has_slash fn = false -> Path.endswith fn ".py" = true ->
  norm (copy_target f out fn) = copy_target f out fn.
Proof.
  intros Hs He.
  destruct (copy_target_cases f out fn Hs He) as [[_ ->]|[_ ->]];
    destruct (py_name _ He) as (stem & ->).
  - apply norm_py.
  - change (String "/" (stem ++ ".py")) with ("/" ++ stem ++ ".py").
    rewrite <- !string_app_assoc.
    rewrite (string_app_assoc _ stem ".py"). apply norm_py.
Qed.

Lemma copy_target_inj f out a b :
  has_slash a = false -> Path.endswith a ".py" = true ->
  has_slash b = false -> Path.endswith b ".py" = true ->
  copy_target f out a = copy_target f out b -> a = b.
Proof.
  intros Ha Ea Hb Eb E.
  destruct (copy_target_cases f out a Ha Ea) as [[_ Ta]|[_ Ta]];
    destruct (copy_target_cases f out b Hb Eb) as [[_ Tb]|[_ Tb]];
    rewrite Ta, Tb in E; apply string_app_inv_head in E.
  - exact E.
  - rewrite E, has_slash_app, has_slash_cons in Ha.
    rewrite orb_true_r in Ha. discriminate Ha.
  - rewrite <- E, has_slash_app, has_slash_cons in Hb.
    rewrite orb_true_r in Hb. discriminate Hb.
  - exact (proj1 (slash_free_split _ _ _ _ Ha Hb E)).
Qed.

Lemma glob_py_In f fn :
  In fn (glob_py f) ->
  has_slash fn = false /\ Path.endswith fn ".py" = true.
Proof.
  unfold glob_py. intros Hin.
  apply in_map_iff in Hin as ([q nd] & Hq & Hin). simpl in Hq. subst q.
  apply list_elem_of_In, list_elem_of_filter in Hin as [Hp _].
  apply Is_true_true in Hp.
  apply andb_true_iff in Hp as [Hp He].
  apply andb_true_iff in Hp as [Hs _].
  split; [apply negb_true_iff; exact Hs | exact He].
Qed.

Lemma isdir_write f p c q :
  isdir f p = false -> isdir (assoc_set (norm p) (File c) f) q = isdir f q.
Proof.
  unfold isdir, fs_lookup. intros Hp.
  destruct (string_dec (norm p) (norm q)) as [E|Hne].
  - rewrite <- E, assoc_set_same.
    destruct (assoc (norm p) f) as [[|c']|]; try discriminate Hp;
      destruct (String.eqb (norm p) q); reflexivity.
  - rewrite assoc_set_other by exact Hne. reflexivity.
Qed.

Lemma shutil_copy_inv src dst0 st st' :
  shutil_copy src dst0 st = (Ret tt, st') ->
  exists c,
    samefile (fs st) src
             (if isdir (fs st) dst0 then Path.join dst0 (Path.basename src)
              else dst0) = false /\
    fs_lookup (fs st) src = Some (File c) /\
    isdir (fs st) (if isdir (fs st) dst0 then Path.join dst0 (Path.basename src)
                   else dst0) = false /\
    fs st' = assoc_set (norm (if isdir (fs st) dst0
                              then Path.join dst0 (Path.basename src)
                              else dst0)) (File c) (fs st) /\
    same_but_fs st st'.
Proof.
  unfold shutil_copy. cbv [bind get]. intros E.
  set (dst := if isdir (fs st) dst0 then Path.join dst0 (Path.basename src)
              else dst0) in *.
  destruct (samefile (fs st) src dst) eqn:Sf; [discriminate E|].
  destruct (fs_lookup (fs st) src) as [[|c]|] eqn:L; try discriminate E.
  destruct (isdir (fs st) dst) eqn:D; [discriminate E|].
  destruct (writable (fs st) dst); [|discriminate E].
  cbv [set_fs] in E. inversion E; subst st'. simpl.
  exists c. repeat split; reflexivity.
Qed.

(** A copy that succeeded went below the output directory. *)
Lemma copied_below f out fn c :
  has_slash fn = false -> Path.endswith fn ".py" = true ->
  fs_lookup f fn = Some (File c) ->
  samefile f fn (copy_target f out fn) = false ->
  has_slash (copy_target f out fn) = true.
Proof.
  intros Hs He Hl Hsf.
  destruct (join_empty_cases out) as [P|(a & P)].
  - exfalso. destruct (copy_target_cases f out fn Hs He) as [[D T]|[D T]];
      rewrite P in *.
    + change ("" ++ fn) with fn in *. rewrite T in Hsf.
      unfold samefile, exists_ in Hsf. rewrite Hl, String.eqb_refl in Hsf.
      discriminate Hsf.
    + change ("" ++ fn) with fn in *. unfold isdir in D. rewrite Hl in D.
      discriminate D.
  - destruct (copy_target_cases f out fn Hs He) as [[_ ->]|[_ ->]];
      rewrite P, string_app_assoc, has_slash_app, has_slash_app;
      change (has_slash "/") with true; rewrite orb_true_r; reflexivity.
Qed.

Lemma slash_differs (a b : string) :
  has_slash a = false -> has_slash b = true -> a <> b.
Proof. intros Ha Hb ->. congruence. Qed.

Lemma copy_all_inv out l : forall st st',
  (forall fn, In fn l -> has_slash fn = false /\ Path.endswith fn ".py" = true) ->
  copy_all out l st = (Ret tt, st') ->
  same_but_fs st st' /\
  (forall q, isdir (fs st') q = isdir (fs st) q) /\
  (forall q, has_slash (norm q) = false ->
             fs_lookup (fs st') q = fs_lookup (fs st) q) /\
  (forall q, (forall fn, In fn l -> norm q <> copy_target (fs st) out fn) ->
             fs_lookup (fs st') q = fs_lookup (fs st) q) /\
  (forall fn, In fn l ->
     exists c, fs_lookup (fs st) fn = Some (File c) /\
               fs_lookup (fs st') (copy_target (fs st) out fn) = Some (File c)).
Proof.
  unfold copy_all.
  induction l as [|fn r IH]; intros st st' Hl E; simpl in E.
  - cbv [ret] in E. inversion E; subst st'.
    split; [apply same_but_fs_refl|]. repeat split; try reflexivity.
    intros fn [].
  - apply bind_ret_inv in E as ([] & st1 & Ec & E).
    destruct (Hl fn (or_introl eq_refl)) as [Hs He].
    destruct (shutil_copy_inv _ _ _ _ Ec) as (c & Hsf & Hsrc & Hd & Hfs & Hsame).
    fold (copy_target (fs st) out fn) in Hsf, Hd, Hfs.
    set (dst := copy_target (fs st) out fn) in *.
    assert (Hn : norm dst = dst) by (apply norm_copy_target; assumption).
    assert (Hslash : has_slash dst = true)
      by (eapply copied_below; eassumption).
    assert (Hdir : forall q, isdir (fs st1) q = isdir (fs st) q).
    { intros q. rewrite Hfs. apply isdir_write. exact Hd. }
    assert (Htgt : forall fn', copy_target (fs st1) out fn' = copy_target (fs st) out fn').
    { intros fn'. unfold copy_target. rewrite Hdir. reflexivity. }
    assert (Hfree : forall q, has_slash (norm q) = false ->
                              fs_lookup (fs st1) q = fs_lookup (fs st) q).
    { intros q Hq. rewrite Hfs, Hn. apply fs_lookup_write_other.
      apply slash_differs; assumption. }
    destruct (IH st1 st') as (Hsame' & Hdir' & Hfree' & Hother' & Hcopy');
      [intros fn' Hin; apply Hl; right; exact Hin | exact E |].
    split; [eapply same_but_fs_trans; eassumption|].
    split; [intros q; rewrite Hdir', Hdir; reflexivity|].
    split; [intros q Hq; rewrite Hfree', Hfree by exact Hq; reflexivity|].
    split.
    + intros q Hq. rewrite Hother'.
      * rewrite Hfs, Hn. apply fs_lookup_write_other.
        apply (Hq fn). left. reflexivity.
      * intros fn' Hin. rewrite Htgt. apply Hq. right. exact Hin.
    + intros fn0 Hin0.
      destruct (in_dec string_dec fn0 r) as [Hr|Hr].
      * destruct (Hcopy' fn0 Hr) as (c0 & H1 & H2).
        exists c0. rewrite Htgt in H2. split; [|exact H2].
        rewrite <- H1. symmetry. apply Hfree.
        destruct (Hl fn0 Hin0) as [Hs0 He0].
        rewrite (norm_py_name _ He0). exact Hs0.
      * destruct Hin0 as [<-|Hin0]; [|contradiction].
        exists c. split; [exact Hsrc|].
        fold dst. rewrite Hother'.
        -- rewrite Hfs, Hn. apply fs_lookup_write_at. exact Hn.
        -- intros fn' Hin. rewrite Htgt, Hn. unfold dst. intros Heq.
           destruct (Hl fn' (or_intror Hin)) as [Hs' He'].
           apply Hr. rewrite (copy_target_inj _ _ _ _ Hs He Hs' He' Heq).
           exact Hin.
Qed.

Lemma glob_py_nonempty f : (0 <? length (glob_py f))%nat = true -> glob_py f <> [].
Proof. destruct (glob_py f); [discriminate | discriminate]. Qed.

(** X25. A call of [save_repository] that returns found both arguments to be
    directories and at least one [*.py] entry in the current directory, and
    it has copied every such entry, a regular file, below [output_dir]
    (into the directory of the same name when there is one); no entry of
    the current directory and nothing but the file system has changed. The
    sources are those of the current directory: [search_dir] is not
    searched, any other directory in its place gives the same outcome. *)
Theorem save_repository_copies_current_directory search_dir output_dir st st' :
  save_repository search_dir output_dir st = (Ret tt, st') ->
  isdir (fs st) output_dir = true /\ isdir (fs st) search_dir = true /\
  glob_py (fs st) <> [] /\
  (forall fn, In fn (glob_py (fs st)) ->
     exists c, fs_lookup (fs st) fn = Some (File c) /\
               fs_lookup (fs st') (copy_target (fs st) output_dir fn)
                 = Some (File c)) /\
  (forall q, has_slash (norm q) = false ->
             fs_lookup (fs st') q = fs_lookup (fs st) q) /\
  same_but_fs st st' /\
  (forall other, isdir (fs st) other = true ->
                 save_repository other output_dir st = (Ret tt, st')).
Proof.
  unfold save_repository. intros E.
  apply bind_ret_inv in E as (s0 & s0' & Eg & E).
  cbv [get] in Eg. inversion Eg; subst s0 s0'.
  apply bind_ret_inv in E as ([] & s1 & A1 & E).
  apply assert_ret_inv in A1 as [A1 ->].
  apply bind_ret_inv in E as ([] & s2 & A2 & E).
  apply assert_ret_inv in A2 as [A2 ->].
  apply bind_ret_inv in E as ([] & s3 & A3 & E).
  apply assert_ret_inv in A3 as [A3 ->].
  destruct (copy_all_inv _ _ _ _ (glob_py_In (fs st)) E)
    as (Hsame & _ & Hfree & _ & Hcopy).
  split; [exact A1|]. split; [exact A2|].
  split; [apply glob_py_nonempty, A3|].
  split; [exact Hcopy|]. split; [exact Hfree|]. split; [exact Hsame|].
  intros other Ho. cbv [bind get]. rewrite A1, Ho, A3. exact E.
Qed.

(** X26. A call of [backup_pyfiles] that returns found at least one [*.py]
    entry in the current directory and has copied every such entry, a
    regular file, below the runner's output directory; no entry of the
    current directory and nothing but the file system has changed. *)
Theorem backup_pyfiles_copies self st st' :
  backup_pyfiles self st = (Ret tt, st') ->
  glob_py (fs st) <> [] /\
  (forall fn, In fn (glob_py (fs st)) ->
     exists c, fs_lookup (fs st) fn = Some (File c) /\
               fs_lookup (fs st') (copy_target (fs st) (output_dir self) fn)
                 = Some (File c)) /\
  (forall q, has_slash (norm q) = false ->
             fs_lookup (fs st') q = fs_lookup (fs st) q) /\
  same_but_fs st st'.
Proof.
  unfold backup_pyfiles. intros E.
  apply bind_ret_inv in E as (s0 & s0' & Eg & E).
  cbv [get] in Eg. inversion Eg; subst s0 s0'.
  apply bind_ret_inv in E as ([] & s3 & A3 & E).
  apply assert_ret_inv in A3 as [A3 ->].
  destruct (copy_all_inv _ _ _ _ (glob_py_In (fs st)) E)
    as (Hsame & _ & Hfree & _ & Hcopy).
  split; [apply glob_py_nonempty, A3|].
  split; [exact Hcopy|]. split; [exact Hfree | exact Hsame].
Qed.

(** X27. A runner constructed without [output_dir] (the default is the
    empty string) cannot back up its sources: [backup_pyfiles] ends with
    AssertionError when the current directory has no [*.py] entry and
    otherwise with the error of the first copy, a file being copied onto
    itself; the state is unchanged either way. *)
Theorem backup_pyfiles_default_dir_fails self st :
  output_dir self = "" ->
  exists e, backup_pyfiles self st = (Raise e, st) /\
            (glob_py (fs st) = [] -> e = AssertionError).
Proof.
  intros Ho. unfold backup_pyfiles. cbv [bind get]. rewrite Ho.
  pose proof (glob_py_In (fs st)) as Hg.
  destruct (glob_py (fs st)) as [|fn r].
  - exists AssertionError. split; [reflexivity | auto].
  - simpl. cbv [ret]. unfold copy_all. simpl. cbv [bind].
    destruct (Hg fn (or_introl eq_refl)) as [Hs He].
    destruct (shutil_copy fn (Path.join "" fn) st) as [[[]|e] st1] eqn:Ec.
    + exfalso.
      destruct (shutil_copy_inv _ _ _ _ Ec) as (c & Hsf & Hsrc & _).
      fold (copy_target (fs st) "" fn) in Hsf.
      pose proof (copied_below _ "" _ _ Hs He Hsrc Hsf) as Hb.
      destruct (copy_target_cases (fs st) "" fn Hs He) as [[D T]|[D T]].
      * rewrite T in Hb. change (Path.join "" "" ++ fn) with fn in Hb. congruence.
      * change (Path.join "" "" ++ fn) with fn in D.
        unfold isdir in D. rewrite Hsrc in D. discriminate D.
    + exists e. split; [|discriminate].
      f_equal. unfold shutil_copy in Ec. cbv [bind get] in Ec.
      destruct (samefile _ _ _); [inversion Ec; reflexivity|].
      destruct (fs_lookup (fs st) fn) as [[|c]|]; try (inversion Ec; reflexivity).
      destruct (isdir (fs st) _); [inversion Ec; reflexivity|].
      destruct (writable _ _); [discriminate Ec | inversion Ec; reflexivity].
Qed.

End BackupFacts.

Section FitFacts.
Context `{Externals}.
Context `{!Trainer}.

Lemma events_call_torch {A} (f : torch_state -> PyResult A * torch_state) :
  preserves events (call_torch f).
Proof. intros st. unfold call_torch. destruct (f (torch st)). reflexivity. Qed.

Lemma recon_call_torch {A} (f : torch_state -> PyResult A * torch_state) :
  preserves recon_calls (call_torch f).
Proof. intros st. unfold call_torch. destruct (f (torch st)). reflexivity. Qed.

Lemma write_image_png_inv path img st st' :
  write_image path img "png" None None st = (Ret tt, st') ->
  isfile (fs st') (path ++ ".png") = true /\
  (forall q, isfile (fs st) q = true -> isfile (fs st') q = true) /\
  same_but_fs st st'.
Proof.
  intros E.
  destruct (write_image_plain_inv path img "png" None st st' eq_refl E)
    as (Hf & _ & Hs).
  split; [exact Hf|]. split; [|exact Hs].
  intros q Hq. unfold write_image in E.
  apply bind_ret_inv in E as (u & s1 & Ea & E).
  apply assert_ret_inv in Ea as [_ ->].
  cbn [str_in existsb String.eqb Ascii.eqb Bool.eqb orb] in E.
  apply bind_ret_inv in E as (u1 & s2 & Ew & E).
  apply assert_isfile_inv in E as [-> _].
  exact (cv2_imwrite_isfile_mono _ _ _ _ _ _ Ew Hq).
Qed.

Lemma write_image_tif_none_inv path img st st' :
  write_image path img "tif" None None st = (Ret tt, st') ->
  isfile (fs st') (path ++ ".tif") = true /\
  (forall q, isfile (fs st) q = true -> isfile (fs st') q = true) /\
  events st' = (events st ++ [Warn NoTiffMetadata])%list /\
  self_model st' = self_model st /\ recon_calls st' = recon_calls st.
Proof.
  intros E.
  destruct (write_image_tif_inv _ _ _ _ _ _ E) as (c & _ & Hfs & Hev & _ & Hm & Hr).
  split; [|split; [|split; [exact Hev | split; [exact Hm | exact Hr]]]].
  - unfold isfile. rewrite Hfs, fs_lookup_write_at by apply norm_tif. reflexivity.
  - intros q Hq. rewrite Hfs. apply isfile_write_mono. exact Hq.
Qed.

Lemma fit_epoch_inv self tgt shape iters loss opt sch inputs test_inputs epoch
    loss_vals st loss_vals' st' :
  fit_epoch self tgt shape iters loss opt sch inputs test_inputs epoch loss_vals st
    = (Ret loss_vals', st') ->
  (exists v, loss_vals' = (loss_vals ++ [v])%list) /\
  events st' = (events st ++ [Warn NoTiffMetadata; Warn NoTiffMetadata])%list /\
  Forall (fun p => isfile (fs st') p = true) (fit_files self epoch) /\
  (forall q, isfile (fs st) q = true -> isfile (fs st') q = true) /\
  recon_calls st' = recon_calls st /\
  is_Some (self_model st) /\ is_Some (self_model st').
Proof.
  unfold fit_epoch. intros E.
  apply bind_ret_inv in E as (s0 & s0' & Eg & E).
  cbv [get] in Eg. inversion Eg; subst s0 s0'.
  destruct (self_model st) as [m|] eqn:Hm; [|discriminate E].
  apply bind_ret_inv in E as ([m1 [[frame test_frame] loss_val]] & s1 & Ec & E).
  apply call_torch_ret_inv in Ec as (t1 & _ & ->).
  apply bind_ret_inv in E as ([] & s2 & Es & E).
  cbv [set_model] in Es. inversion Es; subst s2; clear Es. simpl in E.
  apply bind_ret_inv in E as (str & s3 & Ef & E).
  apply lift_ret_inv in Ef as [_ ->].
  apply bind_ret_inv in E as (v & s4 & Ei & E).
  apply lift_ret_inv in Ei as [_ ->].
  apply bind_ret_inv in E as ([] & s5 & W1 & E).
  apply bind_ret_inv in E as ([] & s6 & W2 & E).
  apply bind_ret_inv in E as ([] & s7 & W3 & E).
  apply bind_ret_inv in E as ([] & s8 & W4 & E).
  cbv [ret] in E. inversion E; subst loss_vals' st'; clear E.
  destruct (write_image_png_inv _ _ _ _ W1) as (F1 & M1 & (E1 & _ & S1 & R1)).
  destruct (write_image_tif_none_inv _ _ _ _ W2) as (F2 & M2 & E2 & S2 & R2).
  destruct (write_image_png_inv _ _ _ _ W3) as (F3 & M3 & (E3 & _ & S3 & R3)).
  destruct (write_image_tif_none_inv _ _ _ _ W4) as (F4 & M4 & E4 & S4 & R4).
  simpl in *.
  split; [exists v; reflexivity|].
  split; [rewrite E4, E3, E2, E1, <- app_assoc; reflexivity|].
  split.
  { unfold fit_files. rewrite !string_app_assoc in *.
    repeat constructor; auto. }
  split; [auto|].
  split; [congruence|].
  split; [eauto|]. rewrite S4, S3, S2, S1. eauto.
Qed.

Lemma fit_loop self tgt shape iters loss opt sch inputs test_inputs len :
  forall start loss_vals st loss_vals' st',
  for_each (fit_epoch self tgt shape iters loss opt sch inputs test_inputs)
           (seq start len) loss_vals st = (Ret loss_vals', st') ->
  length loss_vals' = length loss_vals + len /\
  events st' = (events st ++ repeat (Warn NoTiffMetadata) (2 * len))%list /\
  (forall e, start <= e < start + len ->
     Forall (fun p => isfile (fs st') p = true) (fit_files self e)) /\
  (forall q, isfile (fs st) q = true -> isfile (fs st') q = true) /\
  recon_calls st' = recon_calls st.
Proof.
  induction len as [|len IH]; intros start loss_vals st loss_vals' st' E;
    simpl in E.
  - cbv [ret] in E. inversion E; subst.
    split; [lia|]. split; [simpl; rewrite app_nil_r; reflexivity|].
    split; [intros e He; lia|]. split; [auto | reflexivity].
  - apply bind_ret_inv in E as (lv1 & st1 & Eb & E).
    destruct (fit_epoch_inv _ _ _ _ _ _ _ _ _ _ _ _ _ _ Eb)
      as ((v & ->) & Hev & Hf & Hm & Hr & _).
    destruct (IH _ _ _ _ _ E) as (Hl' & Hev' & Hf' & Hm' & Hr').
    split; [rewrite Hl', length_app; simpl; lia|].
    split.
    { rewrite Hev', Hev, <- app_assoc.
      replace (2 * S len) with (S (S (2 * len))) by lia. reflexivity. }
    split.
    { intros e He. destruct (Nat.eq_dec e start) as [->|Hne].
      - eapply Forall_impl; [exact Hf|]. simpl. intros p Hp. apply Hm', Hp.
      - apply Hf'. lia. }
    split; [auto|]. congruence.
Qed.

(** X28. What a completed [fit] leaves behind: a call that returns had a
    model with a convolutional map bound to the runner; it returns one loss
    value per epoch; for every epoch the four files [fit_<epoch>.png],
    [fit_<epoch>.tif], [fit_<epoch>_test.png] and [fit_<epoch>_test.tif]
    exist under the output directory; the log has grown by exactly two
    warnings per epoch, the archives being written without metadata, and by
    the closing line; no model was constructed. *)
Theorem fit_leaves_losses_and_files self tgt shape weights num_epochs iters lr wd
    st loss_vals st' :
  fit self tgt shape weights num_epochs iters lr wd st = (Ret loss_vals, st') ->
  (exists m, self_model st = Some m /\ is_conv_map m = true) /\
  length loss_vals = num_epochs /\
  (forall e, e < num_epochs ->
     Forall (fun p => isfile (fs st') p = true) (fit_files self e)) /\
  events st' = (events st ++ repeat (Warn NoTiffMetadata) (2 * num_epochs) ++
                [LogFinishedFitting])%list /\
  recon_calls st' = recon_calls st.
Proof.
  unfold fit. intros E.
  apply bind_ret_inv in E as (s0 & s0' & Eg & E).
  cbv [get] in Eg. inversion Eg; subst s0 s0'.
  destruct (self_model st) as [m|] eqn:Hm; [|discriminate E].
  apply bind_ret_inv in E as ([] & s1 & Ea & E).
  apply assert_ret_inv in Ea as [Ha ->].
  apply bind_ret_inv in E as (opt & s2 & E1 & E).
  apply call_torch_ret_inv in E1 as (t1 & _ & ->).
  apply bind_ret_inv in E as (sch & s3 & E2 & E).
  apply call_torch_ret_inv in E2 as (t2 & _ & ->).
  apply bind_ret_inv in E as (loss & s4 & E3 & E).
  apply call_torch_ret_inv in E3 as (t3 & _ & ->).
  apply bind_ret_inv in E as ([m1 inputs] & s5 & E4 & E).
  apply call_torch_ret_inv in E4 as (t4 & _ & ->).
  apply bind_ret_inv in E as ([] & s6 & Es & E).
  cbv [set_model] in Es. inversion Es; subst s6; clear Es.
  apply bind_ret_inv in E as ([m2 test_inputs] & s7 & E5 & E).
  apply call_torch_ret_inv in E5 as (t5 & _ & ->).
  apply bind_ret_inv in E as ([] & s8 & Es & E).
  cbv [set_model] in Es. inversion Es; subst s8; clear Es.
  apply bind_ret_inv in E as (lv & s9 & El & E).
  apply bind_ret_inv in E as ([] & s10 & Ee & E).
  cbv [emit] in Ee. inversion Ee; subst s10; clear Ee.
  cbv [ret] in E. inversion E; subst loss_vals st'; clear E.
  destruct (fit_loop _ _ _ _ _ _ _ _ _ _ _ _ _ _ _ El) as (Hl & Hev & Hf & _ & Hr).
  simpl in *.
  split; [exists m; auto|]. split; [exact Hl|].
  split; [intros e He; apply Hf; lia|].
  split; [rewrite Hev, <- app_assoc; reflexivity | exact Hr].
Qed.

End FitFacts.

Module ScenarioMore2.
Import Ref Scenario Scenario2 Scenario3.
Open Scope Z_scope.

Lemma save_repository_copies_current_directory_witness :
  exists st',
    save_repository "lib" "out" project = (Ret tt, st') /\
    fs_lookup (fs st') "out/main.py" = Some (File Opaque) /\
    fs_lookup (fs st') "out/model.py" = Some (File (Tiff img None)) /\
    fs_lookup (fs st') "main.py" = Some (File Opaque).
Proof.
  destruct (returned_inv (save_repository "lib" "out" project))
    as ([] & st' & E); [by_vm|].
  exists st'. split; [exact E|].
  destruct (save_repository_copies_current_directory _ _ _ _ E)
    as (_ & _ & _ & Hc & Hf & _).
  split; [|split].
  - destruct (Hc "main.py") as (c & H1 & H2); [vm_compute; tauto|].
    change (Some (File Opaque) = Some (File c)) in H1.
    inversion H1; subst c. exact H2.
  - destruct (Hc "model.py") as (c & H1 & H2); [vm_compute; tauto|].
    change (Some (File (Tiff img None)) = Some (File c)) in H1.
    inversion H1; subst c. exact H2.
  - rewrite (Hf "main.py"); reflexivity.
Defined.

Lemma backup_pyfiles_copies_witness :
  exists st',
    backup_pyfiles self project = (Ret tt, st') /\
    fs_lookup (fs st') "out/main.py" = Some (File Opaque).
Proof.
  destruct (returned_inv (backup_pyfiles self project))
    as ([] & st' & E); [by_vm|].
  exists st'. split; [exact E|].
  destruct (backup_pyfiles_copies _ _ _ E) as (_ & Hc & _).
  destruct (Hc "main.py") as (c & H1 & H2); [vm_compute; tauto|].
  change (Some (File Opaque) = Some (File c)) in H1.
  inversion H1; subst c. exact H2.
Defined.

Lemma backup_pyfiles_default_dir_fails_witness :
  exists e, backup_pyfiles default_runner project = (Raise e, project).
Proof.
  destruct (backup_pyfiles_default_dir_fails default_runner project eq_refl)
    as (e & He & _).
  exists e. exact He.
Defined.

Lemma fit_leaves_losses_and_files_witness :
  exists loss_vals st',
    @fit _ _ trainer self tt [8; 8; 3] tt 2 100 (mkRatio 1 1000)
         (mkRatio 1 100000) (with_script []) = (Ret loss_vals, st') /\
    length loss_vals = 2%nat /\
    isfile (fs st') "out/fit_1_test.tif" = true /\
    length (events st') = 5%nat.
Proof.
  destruct (returned_inv
              (@fit _ _ trainer self tt [8; 8; 3] tt 2 100 (mkRatio 1 1000)
                    (mkRatio 1 100000) (with_script [])))
    as (lv & st' & E); [by_vm|].
  exists lv, st'. split; [exact E|].
  destruct (fit_leaves_losses_and_files _ _ _ _ _ _ _ _ _ _ _ E)
    as (_ & Hl & Hf & Hev & _).
  split; [exact Hl|]. split.
  - specialize (Hf 1%nat ltac:(lia)).
    apply List.Forall_forall with (x := "out/fit_1_test.tif") in Hf; [exact Hf|].
    vm_compute. tauto.
  - rewrite Hev. reflexivity.
Defined.

End ScenarioMore2.
